(** * Bao: verified streaming over the BLAKE3 tree hash

    A shallow embedding of [docs/bao-reference.py] and the properties of its
    tree codec: tree geometry, the buffered encoder, the streaming decoder,
    the iterative hasher, and the slice producer and verifier.

    Conventions.
    - A Python [int] is a [Z]; 32-bit words are [Z] with the masking written
      out as in the source ([& WORD_MAX]).
    - [bytes] / [bytearray] values are [list byte].
    - Python exceptions are the constructors of [exn]; a computation that may
      raise returns [res].  [OutOfFuel] is not a Python exception: recursive
      functions and [while] loops take a [nat] bound, and the lemmas on the
      bounds ([chunk_loop_Ok], [tree_fuel_children], [encode_recurse_encodes],
      [decode_recurse_encodes]) show that the ones used are never exhausted.
    - Streams are mutable objects; the functions that read and write them are
      written in the monad [M], whose state survives a raised exception. *)

From Stdlib Require Import ZArith List Lia Bool Uint63.
From Stdlib.Strings Require Import Byte.
Import ListNotations.
Local Open Scope Z_scope.

Set Implicit Arguments.

(* ================================================================== *)
(** * Results and exceptions *)

Inductive exn : Set :=
| AssertionError   (* assert ..., "hash mismatch" *)
| IOError          (* raise IOError("unexpected EOF") *)
| OverflowError    (* int.to_bytes: int too big to convert *)
| IndexError.      (* list index out of range, pop from empty list *)

Inductive res (A : Type) : Type :=
| Ok (a : A)
| Raise (e : exn)
| OutOfFuel.
Arguments Ok {A} a.
Arguments Raise {A} e.
Arguments OutOfFuel {A}.

Definition rbind {A B} (r : res A) (k : A -> res B) : res B :=
  match r with
  | Ok a => k a
  | Raise e => Raise e
  | OutOfFuel => OutOfFuel
  end.

Declare Scope res_scope.
Delimit Scope res_scope with res.
Notation "x <- r ;; k" := (rbind r (fun x => k))
  (at level 61, r at next level, right associativity) : res_scope.
Notation "' pat <- r ;; k" := (rbind r (fun x => match x with pat => k end))
  (at level 61, pat pattern, r at next level, right associativity) : res_scope.

(* ================================================================== *)
(** * Bytes *)

Definition bytes := list byte.

(** [len(buf)] *)
Definition len (buf : bytes) : Z := Z.of_nat (length buf).

Definition Z_of_byte (b : byte) : Z := Z.of_N (Byte.to_N b).

Definition byte_of_Z (z : Z) : byte :=
  match Byte.of_N (Z.to_N (z mod 256)) with
  | Some b => b
  | None => x00
  end.

(** [buf[:n]] and [buf[n:]] for [0 <= n]. *)
Definition slice_to (buf : bytes) (n : Z) : bytes := firstn (Z.to_nat n) buf.
Definition slice_from (buf : bytes) (n : Z) : bytes := skipn (Z.to_nat n) buf.
(** [buf[a:b]] for [0 <= a] and [0 <= b]. *)
Definition slice (buf : bytes) (a b : Z) : bytes :=
  firstn (Z.to_nat b - Z.to_nat a) (skipn (Z.to_nat a) buf).

(** [b"\0" * n] *)
Definition zeros (n : Z) : bytes := repeat x00 (Z.to_nat n).

Fixpoint bytes_eqb (a b : bytes) : bool :=
  match a, b with
  | [], [] => true
  | x :: a', y :: b' => Byte.eqb x y && bytes_eqb a' b'
  | _, _ => false
  end.

(** [int.from_bytes(buf, "little")] *)
Fixpoint int_from_bytes (buf : bytes) : Z :=
  match buf with
  | [] => 0
  | b :: rest => Z_of_byte b + 256 * int_from_bytes rest
  end.

(** The [n] low bytes of [x], least significant first. *)
Fixpoint le_bytes (n : nat) (x : Z) : bytes :=
  match n with
  | O => []
  | S n' => byte_of_Z x :: le_bytes n' (x / 256)
  end.

(** [x.to_bytes(n, "little")]: unsigned, raises [OverflowError] when [x] is
    negative or does not fit. *)
Definition int_to_bytes (x : Z) (n : nat) : res bytes :=
  if (0 <=? x) && (x <? 256 ^ Z.of_nat n) then Ok (le_bytes n x)
  else Raise OverflowError.

(* ================================================================== *)
(** * Constants *)

Definition IV : list Z :=
  [ 0x6A09E667; 0xBB67AE85; 0x3C6EF372; 0xA54FF53A;
    0x510E527F; 0x9B05688C; 0x1F83D9AB; 0x5BE0CD19 ].

Definition MSG_SCHEDULE : list (list nat) :=
  [ [0; 1; 2; 3; 4; 5; 6; 7; 8; 9; 10; 11; 12; 13; 14; 15];
    [2; 6; 3; 10; 7; 0; 4; 13; 1; 11; 12; 5; 9; 14; 15; 8];
    [3; 4; 10; 12; 13; 2; 7; 14; 6; 5; 9; 0; 11; 15; 8; 1];
    [10; 7; 12; 9; 14; 3; 13; 15; 4; 0; 11; 2; 5; 8; 1; 6];
    [12; 13; 9; 11; 15; 10; 14; 8; 7; 2; 5; 3; 0; 1; 6; 4];
    [9; 14; 11; 5; 8; 12; 15; 1; 13; 3; 0; 10; 2; 6; 4; 7];
    [11; 15; 5; 0; 1; 9; 8; 6; 14; 10; 2; 12; 3; 4; 7; 13] ]%nat.

Definition BLOCK_SIZE : Z := 64.
Definition CHUNK_SIZE : Z := 1024.
Definition KEY_SIZE : Z := 32.
Definition HASH_SIZE : Z := 32.
Definition PARENT_SIZE : Z := 2 * HASH_SIZE.
Definition WORD_BITS : Z := 32.
Definition WORD_BYTES : Z := 4.
Definition WORD_MAX : Z := 2 ^ WORD_BITS - 1.
Definition HEADER_SIZE : Z := 8.

(** Domain flags. *)
Definition CHUNK_START : Z := Z.shiftl 1 0.
Definition CHUNK_END : Z := Z.shiftl 1 1.
Definition PARENT : Z := Z.shiftl 1 2.
Definition ROOT : Z := Z.shiftl 1 3.
Definition KEYED_HASH : Z := Z.shiftl 1 4.
Definition DERIVE_KEY : Z := Z.shiftl 1 5.

(** Finalization flags: the two sentinel objects [IS_ROOT] and [NOT_ROOT]. *)
Inductive finalization : Set := IS_ROOT | NOT_ROOT.

Definition is_root (f : finalization) : bool :=
  match f with IS_ROOT => true | NOT_ROOT => false end.

(* ================================================================== *)
(** * The BLAKE3 compression function *)

Definition wrapping_add (a b : Z) : Z := Z.land (a + b) WORD_MAX.

Definition rotate_right (x n : Z) : Z :=
  Z.land (Z.lor (Z.shiftr x n) (Z.shiftl x (WORD_BITS - n))) WORD_MAX.

(** [state[i]] and [state[i] = v] on the 16-word state.  Every index used by
    [g] and [round] is a literal below 16 and the state always has 16 words
    (see [length_g]), so the out-of-range behaviour is never exercised. *)
Definition get (state : list Z) (i : nat) : Z := nth i state 0.

Fixpoint set {A : Type} (state : list A) (i : nat) (v : A) : list A :=
  match state, i with
  | [], _ => []
  | _ :: t, O => v :: t
  | h :: t, S i' => h :: set t i' v
  end.

(** The BLAKE3 G function. *)
Definition g (state : list Z) (a b c d : nat) (x y : Z) : list Z :=
  let state := set state a (wrapping_add (get state a) (wrapping_add (get state b) x)) in
  let state := set state d (rotate_right (Z.lxor (get state d) (get state a)) 16) in
  let state := set state c (wrapping_add (get state c) (get state d)) in
  let state := set state b (rotate_right (Z.lxor (get state b) (get state c)) 12) in
  let state := set state a (wrapping_add (get state a) (wrapping_add (get state b) y)) in
  let state := set state d (rotate_right (Z.lxor (get state d) (get state a)) 8) in
  let state := set state c (wrapping_add (get state c) (get state d)) in
  let state := set state b (rotate_right (Z.lxor (get state b) (get state c)) 7) in
  state.

(** The BLAKE3 round function.  [m i] is [msg_words[schedule[i]]]. *)
Definition round (state : list Z) (msg_words : list Z) (schedule : list nat) : list Z :=
  let m i := nth (nth i schedule O) msg_words 0 in
  (* Mix the columns. *)
  let state := g state 0 4 8 12 (m 0%nat) (m 1%nat) in
  let state := g state 1 5 9 13 (m 2%nat) (m 3%nat) in
  let state := g state 2 6 10 14 (m 4%nat) (m 5%nat) in
  let state := g state 3 7 11 15 (m 6%nat) (m 7%nat) in
  (* Mix the rows. *)
  let state := g state 0 5 10 15 (m 8%nat) (m 9%nat) in
  let state := g state 1 6 11 12 (m 10%nat) (m 11%nat) in
  let state := g state 2 7 8 13 (m 12%nat) (m 13%nat) in
  let state := g state 3 4 9 14 (m 14%nat) (m 15%nat) in
  state.

(** [words_from_bytes]: [len(buf) // 4] little-endian words; trailing bytes
    that do not fill a word are ignored. *)
Fixpoint words_from_bytes (buf : bytes) : list Z :=
  match buf with
  | b0 :: b1 :: b2 :: b3 :: rest =>
      int_from_bytes [b0; b1; b2; b3] :: words_from_bytes rest
  | _ => []
  end.

(** [bytes_from_words]: each word is written with [to_bytes(4, "little")]. *)
Fixpoint bytes_from_words (words : list Z) : res bytes :=
  match words with
  | [] => Ok []
  | w :: rest =>
      (b <- int_to_bytes w 4 ;;
       bs <- bytes_from_words rest ;;
       Ok (b ++ bs))%res
  end.

(** The truncated BLAKE3 compression function.  Building the state reads
    [cv[0..7]] and the first round reads all sixteen message words, so a
    short [cv] or a block of fewer than 64 bytes raises [IndexError]. *)
Definition compress (cv : list Z) (block : bytes) (block_len offset flags : Z)
  : res (list Z) :=
  let block_words := words_from_bytes block in
  if (length cv <? 8)%nat || (length block_words <? 16)%nat then Raise IndexError
  else
    let state :=
      [ get cv 0; get cv 1; get cv 2; get cv 3;
        get cv 4; get cv 5; get cv 6; get cv 7;
        get IV 0; get IV 1; get IV 2; get IV 3;
        Z.land offset WORD_MAX;
        Z.land (Z.shiftr offset WORD_BITS) WORD_MAX;
        block_len;
        flags ] in
    let state :=
      fold_left (fun st schedule => round st block_words schedule)
                (firstn 7 MSG_SCHEDULE) state in
    Ok (map (fun i => Z.lxor (get state i) (get state (i + 8))) (seq 0 8)).

(* ================================================================== *)
(** * Node hashers *)

(** The [while] loop of [chunk_chaining_value]; [rest] is [chunk_bytes[i:]].
    Returns the chaining value, the flags and the last block. *)
Fixpoint chunk_loop (fuel : nat) (cv : list Z) (rest : bytes) (chunk_index flags : Z)
  : res (list Z * Z * bytes) :=
  if len rest >? BLOCK_SIZE then
    match fuel with
    | O => OutOfFuel
    | S fuel' =>
        let block := slice_to rest BLOCK_SIZE in
        (cv' <- compress cv block BLOCK_SIZE chunk_index flags ;;
         chunk_loop fuel' cv' (slice_from rest BLOCK_SIZE) chunk_index 0)%res
    end
  else Ok (cv, flags, rest).

(** Compute a BLAKE3 chunk chaining value. *)
Definition chunk_chaining_value (chunk_bytes : bytes) (chunk_index : Z)
           (fin : finalization) : res bytes :=
  ('(cv, flags, block) <- chunk_loop (length chunk_bytes) IV chunk_bytes chunk_index CHUNK_START ;;
   let flags := Z.lor flags CHUNK_END in
   let flags := if is_root fin then Z.lor flags ROOT else flags in
   let block_len := len block in
   let block := block ++ zeros (BLOCK_SIZE - block_len) in
   cv <- compress cv block block_len chunk_index flags ;;
   bytes_from_words cv)%res.

(** Compute a BLAKE3 parent node chaining value. *)
Definition parent_chaining_value (parent_bytes : bytes) (fin : finalization)
  : res bytes :=
  (let cv := IV in
   let flags := PARENT in
   let flags := if is_root fin then Z.lor flags ROOT else flags in
   cv <- compress cv parent_bytes BLOCK_SIZE 0 flags ;;
   bytes_from_words cv)%res.

(** Verify a chunk chaining value.  [hmac.compare_digest] is [True] exactly
    when the two byte strings are equal (a length difference gives [False]). *)
Definition verify_chunk (expected_cv chunk_bytes : bytes) (chunk_index : Z)
           (fin : finalization) : res unit :=
  (found_cv <- chunk_chaining_value chunk_bytes chunk_index fin ;;
   if bytes_eqb expected_cv found_cv then Ok tt else Raise AssertionError)%res.

(** Verify a parent node chaining value. *)
Definition verify_parent (expected_cv parent_bytes : bytes) (fin : finalization)
  : res unit :=
  (found_cv <- parent_chaining_value parent_bytes fin ;;
   if bytes_eqb expected_cv found_cv then Ok tt else Raise AssertionError)%res.

Definition encode_len (content_len : Z) : res bytes :=
  int_to_bytes content_len (Z.to_nat HEADER_SIZE).

Definition decode_len (len_bytes : bytes) : Z := int_from_bytes len_bytes.

(* ================================================================== *)
(** * Tree geometry *)

(** [int.bit_length()] *)
Definition bit_length (n : Z) : Z :=
  if n =? 0 then 0 else Z.log2 (Z.abs n) + 1.

(** Left subtrees contain the largest possible power of two chunks, with at
    least one byte left for the right subtree.  Every caller guards the call
    with [parent_len > CHUNK_SIZE]; below that Python's [2 ** -1] is the
    float [0.5], which [Z.pow] does not reproduce, so the lemmas about
    [left_len] all assume [CHUNK_SIZE < parent_len]. *)
Definition left_len (parent_len : Z) : Z :=
  let available_chunks := (parent_len - 1) / CHUNK_SIZE in
  let power_of_two_chunks := 2 ^ (bit_length available_chunks - 1) in
  CHUNK_SIZE * power_of_two_chunks.

Definition count_chunks (content_len : Z) : Z :=
  if content_len =? 0 then 1
  else (content_len + CHUNK_SIZE - 1) / CHUNK_SIZE.

Definition encoded_subtree_size (content_len : Z) (outboard : bool) : Z :=
  let parents_size := PARENT_SIZE * (count_chunks content_len - 1) in
  if outboard then parents_size else parents_size + content_len.

(** The recursion depth of the tree functions on a subtree of [content_len]
    bytes is at most [log2_up content_len]; see [tree_fuel_left] and
    [tree_fuel_right]. *)
Definition tree_fuel (content_len : Z) : nat :=
  S (Z.to_nat (Z.log2_up content_len)).

(* ================================================================== *)
(** * Encoder *)

(** [encode_recurse] with the [nonlocal chunk_index] passed in and returned:
    the result is [(encoded, cv, chunk_index')]. *)
Fixpoint encode_recurse (fuel : nat) (outboard : bool) (buf : bytes)
         (fin : finalization) (chunk_index : Z) : res (bytes * bytes * Z) :=
  match fuel with
  | O => OutOfFuel
  | S fuel' =>
      if len buf <=? CHUNK_SIZE then
        (chunk_cv <- chunk_chaining_value buf chunk_index fin ;;
         let chunk_encoded := if outboard then [] else buf in
         Ok (chunk_encoded, chunk_cv, chunk_index + 1))%res
      else
        let llen := left_len (len buf) in
        (* Interior nodes have no len suffix. *)
        ('(left_encoded, left_cv, chunk_index) <-
           encode_recurse fuel' outboard (slice_to buf llen) NOT_ROOT chunk_index ;;
         '(right_encoded, right_cv, chunk_index) <-
           encode_recurse fuel' outboard (slice_from buf llen) NOT_ROOT chunk_index ;;
         let node := left_cv ++ right_cv in
         let encoded := node ++ left_encoded ++ right_encoded in
         cv <- parent_chaining_value node fin ;;
         Ok (encoded, cv, chunk_index))%res
  end.

Definition bao_encode (buf : bytes) (outboard : bool) : res (bytes * bytes) :=
  (* Only this topmost call sets a non-None finalization. *)
  ('(encoded, hash_, _) <- encode_recurse (tree_fuel (len buf)) outboard buf IS_ROOT 0 ;;
   (* The final output prefixes the encoded length. *)
   header <- encode_len (len buf) ;;
   Ok (header ++ encoded, hash_))%res.

(* ================================================================== *)
(** * Streams *)

(** The three stream objects a call works on.  [outboard_stream = None] is
    the combined mode, where [tree_stream] and [input_stream] are the same
    object.  An input stream is represented by the bytes not yet read; the
    output stream by the bytes written so far. *)
Record streams : Type := mkStreams {
  input_stream : bytes;
  outboard_stream : option bytes;
  output_stream : bytes
}.

(** Computations over the streams.  The state is returned also when an
    exception is raised: what was read and written before stays so. *)
Definition M (A : Type) : Type := streams -> res A * streams.

Definition ret {A} (a : A) : M A := fun s => (Ok a, s).
Definition bind {A B} (m : M A) (k : A -> M B) : M B :=
  fun s => match m s with
           | (Ok a, s') => k a s'
           | (Raise e, s') => (Raise e, s')
           | (OutOfFuel, s') => (OutOfFuel, s')
           end.
Definition lift {A} (r : res A) : M A := fun s => (r, s).

Declare Scope io_scope.
Delimit Scope io_scope with io.
Notation "x <- m ;; k" := (bind m (fun x => k))
  (at level 61, m at next level, right associativity) : io_scope.
Notation "m ;; k" := (bind m (fun _ => k))
  (at level 61, right associativity) : io_scope.

Inductive which_stream : Set := Input | Tree.

(** [read_exact] on a stream given by its remaining bytes: [n] bytes, or
    [IOError] after the stream has been read to its end. *)
Definition read_bytes (s : bytes) (n : Z) : res bytes * bytes :=
  if n <=? len s then (Ok (slice_to s n), slice_from s n)
  else (Raise IOError, []).

Definition read_exact (w : which_stream) (n : Z) : M bytes :=
  fun s =>
    match w, outboard_stream s with
    | Tree, Some t =>
        let (r, t') := read_bytes t n in
        (r, mkStreams (input_stream s) (Some t') (output_stream s))
    | _, _ =>
        let (r, i') := read_bytes (input_stream s) n in
        (r, mkStreams i' (outboard_stream s) (output_stream s))
    end.

(** [stream.seek(n, 1)] with [0 <= n]. *)
Definition seek (w : which_stream) (n : Z) : M unit :=
  fun s =>
    match w, outboard_stream s with
    | Tree, Some t =>
        (Ok tt, mkStreams (input_stream s) (Some (slice_from t n)) (output_stream s))
    | _, _ =>
        (Ok tt, mkStreams (slice_from (input_stream s) n) (outboard_stream s) (output_stream s))
    end.

(** [output_stream.write(b)] *)
Definition write (b : bytes) : M unit :=
  fun s => (Ok tt, mkStreams (input_stream s) (outboard_stream s) (output_stream s ++ b)).

(* ================================================================== *)
(** * Full decoder *)

(** [decode_recurse]; the [nonlocal chunk_index] is passed in and returned. *)
Fixpoint decode_recurse (fuel : nat) (subtree_cv : bytes) (content_len : Z)
         (fin : finalization) (chunk_index : Z) : M Z :=
  match fuel with
  | O => lift OutOfFuel
  | S fuel' =>
      if content_len <=? CHUNK_SIZE then
        (chunk <- read_exact Input content_len ;;
         lift (verify_chunk subtree_cv chunk chunk_index fin) ;;
         write chunk ;;
         ret (chunk_index + 1))%io
      else
        (parent <- read_exact Tree PARENT_SIZE ;;
         lift (verify_parent subtree_cv parent fin) ;;
         let left_cv := slice_to parent HASH_SIZE in
         let right_cv := slice_from parent HASH_SIZE in
         let llen := left_len content_len in
         chunk_index <- decode_recurse fuel' left_cv llen NOT_ROOT chunk_index ;;
         decode_recurse fuel' right_cv (content_len - llen) NOT_ROOT chunk_index)%io
  end.

Definition bao_decode (hash_ : bytes) : M unit :=
  (header <- read_exact Tree HEADER_SIZE ;;
   let content_len := decode_len header in
   decode_recurse (tree_fuel content_len) hash_ content_len IS_ROOT 0 ;;
   ret tt)%io.

(* ================================================================== *)
(** * Streaming hasher *)

(** [bin(n).count("1")] *)
Fixpoint pos_popcount (p : positive) : Z :=
  match p with
  | xH => 1
  | xO p' => pos_popcount p'
  | xI p' => 1 + pos_popcount p'
  end.

Definition popcount (n : Z) : Z :=
  match n with
  | Z0 => 0
  | Zpos p => pos_popcount p
  | Zneg p => pos_popcount p
  end.

(** The stack [subtrees] is a Python list used with [append] and [pop]; here
    it is a list whose head is the top of the stack (the last element of the
    Python list), so [subtrees[0]] is the last element.

    The merging loop run after a full chunk, followed by the [append]. *)
Fixpoint merge_subtrees (subtrees : list bytes) (new_subtree : bytes)
         (total_after_merging : Z) : res (list bytes) :=
  if Z.of_nat (length subtrees) + 1 >? total_after_merging then
    match subtrees with
    | [] => Raise IndexError
    | top :: rest =>
        (let parent := top ++ new_subtree in
         new_subtree <- parent_chaining_value parent NOT_ROOT ;;
         merge_subtrees rest new_subtree total_after_merging)%res
    end
  else Ok (new_subtree :: subtrees).

(** The merging loop run at end of input, followed by the root parent. *)
Fixpoint finish_subtrees (subtrees : list bytes) (new_subtree : bytes) : res bytes :=
  match subtrees with
  | [] => Raise IndexError
  | [bottom] => parent_chaining_value (bottom ++ new_subtree) IS_ROOT
  | top :: rest =>
      (let parent := top ++ new_subtree in
       new_subtree <- parent_chaining_value parent NOT_ROOT ;;
       finish_subtrees rest new_subtree)%res
  end.

(** The branch [if not read] of [bao_hash]: the end of the input. *)
Definition hash_finish (buf : bytes) (chunks : Z) (subtrees : list bytes) : res bytes :=
  if chunks =? 0 then chunk_chaining_value buf chunks IS_ROOT
  else
    (new_subtree <- chunk_chaining_value buf chunks NOT_ROOT ;;
     finish_subtrees subtrees new_subtree)%res.

(** The [while True] loop of [bao_hash].  The stream is used through
    [input_stream.read(CHUNK_SIZE)] alone, and the loop takes whatever a call
    returns: [CHUNK_SIZE] bytes, fewer (a pipe, a socket or a raw file may
    return less than was asked for, at any time), or [b""] at the end.  So
    [input_stream] is the list of the results of the coming calls of [read];
    when the list is used up the stream is at its end and [read] returns
    [b""].  The loop body runs once per call. *)
Fixpoint hash_loop (input_stream : list bytes) (buf : bytes) (chunks : Z)
         (subtrees : list bytes) : res bytes :=
  match input_stream with
  | [] | [] :: _ => hash_finish buf chunks subtrees
  | ((_ :: _) as read) :: input_stream =>
      if len buf >=? CHUNK_SIZE then
        (new_subtree <-
           chunk_chaining_value (slice_to buf CHUNK_SIZE) chunks NOT_ROOT ;;
         let chunks := chunks + 1 in
         let total_after_merging := popcount chunks in
         subtrees <- merge_subtrees subtrees new_subtree total_after_merging ;;
         let buf := slice_from buf CHUNK_SIZE in
         hash_loop input_stream (buf ++ read) chunks subtrees)%res
      else hash_loop input_stream (buf ++ read) chunks subtrees
  end.

(** This is identical to the BLAKE3 hash function. *)
Definition bao_hash (input_stream : list bytes) : res bytes :=
  hash_loop input_stream [] 0 [].

(** The reads of a buffered reader over [input], as [open(path, "rb")],
    [sys.stdin.buffer] and [io.BytesIO] are: [read(CHUNK_SIZE)] returns
    [CHUNK_SIZE] bytes as long as that many remain, then the rest.  Every
    read takes at least one byte, so [length input] reads are enough. *)
Fixpoint full_reads (fuel : nat) (input : bytes) : list bytes :=
  match fuel with
  | O => []
  | S fuel' =>
      match slice_to input CHUNK_SIZE with
      | [] => []
      | read => read :: full_reads fuel' (slice_from input CHUNK_SIZE)
      end
  end.

Definition buffered (input : bytes) : list bytes := full_reads (length input) input.

(* ================================================================== *)
(** * Slice producer *)

Fixpoint slice_recurse (fuel : nat) (slice_start slice_end : Z)
         (subtree_start subtree_len : Z) : M unit :=
  match fuel with
  | O => lift OutOfFuel
  | S fuel' =>
      let subtree_end := subtree_start + subtree_len in
      if subtree_end <=? slice_start then
        let parent_nodes_size := encoded_subtree_size subtree_len true in
        (seek Tree parent_nodes_size ;;
         seek Input subtree_len)%io
      else if slice_end <=? subtree_start then ret tt
      else if subtree_len <=? CHUNK_SIZE then
        (chunk <- read_exact Input subtree_len ;;
         write chunk)%io
      else
        (parent <- read_exact Tree PARENT_SIZE ;;
         write parent ;;
         let llen := left_len subtree_len in
         slice_recurse fuel' slice_start slice_end subtree_start llen ;;
         slice_recurse fuel' slice_start slice_end (subtree_start + llen)
                       (subtree_len - llen))%io
  end.

Definition bao_slice (slice_start slice_len : Z) : M unit :=
  (content_len_bytes <- read_exact Tree HEADER_SIZE ;;
   write content_len_bytes ;;
   let content_len := decode_len content_len_bytes in
   let slice_len := if slice_len =? 0 then 1 else slice_len in
   let slice_end := slice_start + slice_len in
   let slice_start :=
     if slice_start >=? content_len
     then (if content_len >? 0 then content_len - 1 else 0)
     else slice_start in
   slice_recurse (tree_fuel content_len) slice_start slice_end 0 content_len)%io.

(* ================================================================== *)
(** * Slice verifier *)

(** The normalisation at the head of [bao_decode_slice]: the values of
    [(slice_start, slice_end, skip_output)] that [decode_slice_recurse]
    closes over. *)
Definition decode_slice_range (content_len slice_start slice_len : Z)
  : Z * Z * bool :=
  let skip_output := false in
  let '(slice_len, skip_output) :=
    if slice_len =? 0 then (1, true) else (slice_len, skip_output) in
  let slice_end := slice_start + slice_len in
  let '(slice_start, skip_output) :=
    if slice_start >=? content_len
    then ((if content_len >? 0 then content_len - 1 else 0), true)
    else (slice_start, skip_output) in
  (slice_start, slice_end, skip_output).

Fixpoint decode_slice_recurse (fuel : nat) (content_len slice_start slice_end : Z)
         (skip_output : bool) (subtree_start subtree_len : Z)
         (subtree_cv : bytes) (fin : finalization) : M unit :=
  match fuel with
  | O => lift OutOfFuel
  | S fuel' =>
      let subtree_end := subtree_start + subtree_len in
      if (subtree_end <=? slice_start) && (content_len >? 0) then ret tt
      else if (slice_end <=? subtree_start) && (content_len >? 0) then ret tt
      else if subtree_len <=? CHUNK_SIZE then
        (chunk <- read_exact Input subtree_len ;;
         let chunk_index := subtree_start / CHUNK_SIZE in
         lift (verify_chunk subtree_cv chunk chunk_index fin) ;;
         let chunk_start := Z.max 0 (Z.min subtree_len (slice_start - subtree_start)) in
         let chunk_end := Z.max 0 (Z.min subtree_len (slice_end - subtree_start)) in
         if negb skip_output then write (slice chunk chunk_start chunk_end)
         else ret tt)%io
      else
        (parent <- read_exact Input PARENT_SIZE ;;
         lift (verify_parent subtree_cv parent fin) ;;
         let left_cv := slice_to parent HASH_SIZE in
         let right_cv := slice_from parent HASH_SIZE in
         let llen := left_len subtree_len in
         decode_slice_recurse fuel' content_len slice_start slice_end skip_output
                              subtree_start llen left_cv NOT_ROOT ;;
         decode_slice_recurse fuel' content_len slice_start slice_end skip_output
                              (subtree_start + llen) (subtree_len - llen)
                              right_cv NOT_ROOT)%io
  end.

Definition bao_decode_slice (hash_ : bytes) (slice_start slice_len : Z) : M unit :=
  (content_len_bytes <- read_exact Input HEADER_SIZE ;;
   let content_len := decode_len content_len_bytes in
   let '(slice_start, slice_end, skip_output) :=
     decode_slice_range content_len slice_start slice_len in
   decode_slice_recurse (tree_fuel content_len) content_len slice_start slice_end
                        skip_output 0 content_len hash_ IS_ROOT)%io.

(** A combined-mode run starts with the whole input unread and nothing
    written. *)
Definition combined (input : bytes) : streams := mkStreams input None [].

(* ================================================================== *)
(** * Lemmas: results *)

(** Boolean comparisons in hypotheses, as propositions for [lia]. *)
Ltac zbool :=
  repeat match goal with
  | H : (_ >? _) = _ |- _ => rewrite Z.gtb_ltb in H
  | H : (_ >=? _) = _ |- _ => rewrite Z.geb_leb in H
  | H : (_ <? _) = true |- _ => apply Z.ltb_lt in H
  | H : (_ <? _) = false |- _ => apply Z.ltb_ge in H
  | H : (_ <=? _) = true |- _ => apply Z.leb_le in H
  | H : (_ <=? _) = false |- _ => apply Z.leb_gt in H
  | H : (_ =? _) = true |- _ => apply Z.eqb_eq in H
  | H : (_ =? _) = false |- _ => apply Z.eqb_neq in H
  end.

Lemma rbind_Ok {A B} (r : res A) (k : A -> res B) (b : B) :
  rbind r k = Ok b -> exists a, r = Ok a /\ k a = Ok b.
Proof. destruct r; simpl; intros H; try discriminate. eauto. Qed.

(* ================================================================== *)
(** * Lemmas: bytes and integers *)

Lemma len_nonneg (b : bytes) : 0 <= len b.
Proof. unfold len. lia. Qed.

Lemma len_app (a b : bytes) : len (a ++ b) = len a + len b.
Proof. unfold len. rewrite length_app. lia. Qed.

Lemma len_nil : len [] = 0.
Proof. reflexivity. Qed.

Lemma len_slice_to (b : bytes) (n : Z) :
  0 <= n <= len b -> len (slice_to b n) = n.
Proof. unfold len, slice_to. intros. rewrite length_firstn. lia. Qed.

Lemma len_slice_from (b : bytes) (n : Z) :
  0 <= n <= len b -> len (slice_from b n) = len b - n.
Proof. unfold len, slice_from. intros. rewrite length_skipn. lia. Qed.

Lemma slice_to_from (b : bytes) (n : Z) : slice_to b n ++ slice_from b n = b.
Proof. apply firstn_skipn. Qed.

Lemma slice_to_app (a b : bytes) : slice_to (a ++ b) (len a) = a.
Proof.
  unfold slice_to, len. rewrite Nat2Z.id, firstn_app, Nat.sub_diag, firstn_all.
  simpl. apply app_nil_r.
Qed.

Lemma slice_from_app (a b : bytes) : slice_from (a ++ b) (len a) = b.
Proof.
  unfold slice_from, len. rewrite Nat2Z.id, skipn_app, Nat.sub_diag, skipn_all.
  reflexivity.
Qed.

Lemma slice_to_app_n (a b : bytes) (n : Z) : n = len a -> slice_to (a ++ b) n = a.
Proof. intros ->. apply slice_to_app. Qed.

Lemma slice_from_app_n (a b : bytes) (n : Z) : n = len a -> slice_from (a ++ b) n = b.
Proof. intros ->. apply slice_from_app. Qed.

Lemma bytes_eqb_eq (a b : bytes) : bytes_eqb a b = true <-> a = b.
Proof.
  revert b. induction a as [|x a IH]; destruct b as [|y b]; simpl;
    try (split; [discriminate | congruence]); try tauto.
  rewrite andb_true_iff, IH. split.
  - intros [H ->]. apply Byte.byte_dec_bl in H. now subst.
  - intros H; inversion H; subst. split; [now apply Byte.byte_dec_lb | reflexivity].
Qed.

Lemma Z_of_byte_range (b : byte) : 0 <= Z_of_byte b < 256.
Proof.
  unfold Z_of_byte. pose proof (Byte.to_N_bounded b). lia.
Qed.

Lemma Z_of_byte_of_Z (z : Z) : Z_of_byte (byte_of_Z z) = z mod 256.
Proof.
  unfold Z_of_byte, byte_of_Z.
  pose proof (Z.mod_pos_bound z 256 ltac:(lia)) as Hb.
  destruct (Byte.of_N (Z.to_N (z mod 256))) as [b|] eqn:E.
  - apply Byte.to_of_N in E. rewrite E. lia.
  - apply Byte.of_N_None_iff in E. lia.
Qed.

Lemma length_le_bytes (n : nat) (x : Z) : length (le_bytes n x) = n.
Proof. revert x. induction n; simpl; intros; [reflexivity | now rewrite IHn]. Qed.

Lemma int_from_le_bytes (n : nat) (x : Z) :
  int_from_bytes (le_bytes n x) = x mod 256 ^ Z.of_nat n.
Proof.
  revert x. induction n as [|n IH]; intros x.
  - simpl. now rewrite Z.mod_1_r.
  - cbn [le_bytes int_from_bytes]. rewrite IH, Z_of_byte_of_Z.
    rewrite Nat2Z.inj_succ, Z.pow_succ_r by lia.
    rewrite Z.rem_mul_r by lia. lia.
Qed.

Lemma int_to_bytes_Ok (x : Z) (n : nat) :
  0 <= x < 256 ^ Z.of_nat n -> int_to_bytes x n = Ok (le_bytes n x).
Proof.
  intros H. unfold int_to_bytes.
  destruct (0 <=? x) eqn:E1; [|lia]. destruct (x <? 256 ^ Z.of_nat n) eqn:E2; [|lia].
  reflexivity.
Qed.

Lemma encode_len_Ok (n : Z) :
  0 <= n < 2 ^ 64 -> encode_len n = Ok (le_bytes 8 n).
Proof. intros H. unfold encode_len. apply int_to_bytes_Ok. simpl. lia. Qed.

Lemma decode_encode_len (n : Z) :
  0 <= n < 2 ^ 64 -> decode_len (le_bytes 8 n) = n.
Proof.
  intros H. unfold decode_len. rewrite int_from_le_bytes.
  apply Z.mod_small. simpl. lia.
Qed.

Lemma len_le_bytes (n : nat) (x : Z) : len (le_bytes n x) = Z.of_nat n.
Proof. unfold len. now rewrite length_le_bytes. Qed.

(* ================================================================== *)
(** * Lemmas: the compression function is total on well-formed input *)

(** A 32-bit word. *)
Definition word (w : Z) : Prop := 0 <= w < 2 ^ 32.

Lemma land_WORD_MAX (x : Z) : Z.land x WORD_MAX = x mod 2 ^ 32.
Proof. change WORD_MAX with (Z.ones 32). apply Z.land_ones. lia. Qed.

Lemma word_land (x : Z) : word (Z.land x WORD_MAX).
Proof. rewrite land_WORD_MAX. unfold word. apply Z.mod_pos_bound. lia. Qed.

Lemma word_wrapping_add (a b : Z) : word (wrapping_add a b).
Proof. apply word_land. Qed.

Lemma word_rotate_right (x n : Z) : word (rotate_right x n).
Proof. apply word_land. Qed.

Lemma word_lxor (a b : Z) : word a -> word b -> word (Z.lxor a b).
Proof.
  unfold word. intros Ha Hb.
  assert (Hn : 0 <= Z.lxor a b) by (apply Z.lxor_nonneg; lia).
  split; [exact Hn|].
  destruct (Z.eq_dec (Z.lxor a b) 0) as [->|Hz]; [lia|].
  apply Z.log2_lt_pow2; [lia|].
  pose proof (Z.log2_lxor a b ltac:(lia) ltac:(lia)) as Hl.
  assert (Z.log2 a < 32).
  { destruct (Z.eq_dec a 0) as [->|]; [simpl; lia|]. apply Z.log2_lt_pow2; lia. }
  assert (Z.log2 b < 32).
  { destruct (Z.eq_dec b 0) as [->|]; [simpl; lia|]. apply Z.log2_lt_pow2; lia. }
  lia.
Qed.

Lemma length_set (st : list Z) (i : nat) (v : Z) : length (set st i v) = length st.
Proof.
  revert i. induction st as [|h t IH]; intros [|i]; simpl; auto.
Qed.

Lemma Forall_set (st : list Z) (i : nat) (v : Z) :
  Forall word st -> word v -> Forall word (set st i v).
Proof.
  intros Hst Hv. revert i.
  induction Hst as [|h t Hh Ht IH]; intros [|i]; simpl; auto.
Qed.

Lemma word_get (st : list Z) (i : nat) : Forall word st -> word (get st i).
Proof.
  intros H. unfold get. revert i.
  induction H as [|h t Hh Ht IH]; intros [|i]; simpl; auto; unfold word; lia.
Qed.

Lemma length_g st a b c d x y : length (g st a b c d x y) = length st.
Proof. unfold g. now rewrite !length_set. Qed.

Lemma Forall_g st a b c d x y : Forall word st -> Forall word (g st a b c d x y).
Proof.
  intros H. unfold g.
  repeat (apply Forall_set;
          [| first [apply word_wrapping_add | apply word_rotate_right]]).
  exact H.
Qed.

Lemma length_round st m sch : length (round st m sch) = length st.
Proof. unfold round. now rewrite !length_g. Qed.

Lemma Forall_round st m sch : Forall word st -> Forall word (round st m sch).
Proof. intros H. unfold round. now repeat apply Forall_g. Qed.

Lemma fold_left_inv {A B} (P : A -> Prop) (f : A -> B -> A) (l : list B) (a : A) :
  (forall a b, P a -> P (f a b)) -> P a -> P (fold_left f l a).
Proof.
  intros Hf. revert a. induction l as [|b l IH]; intros a Ha; [exact Ha|].
  apply (IH (f a b)). now apply Hf.
Qed.

Lemma rounds_inv (m : list Z) (schs : list (list nat)) (st : list Z) :
  Forall word st ->
  Forall word (fold_left (fun st sch => round st m sch) schs st).
Proof.
  apply (fold_left_inv (Forall word) (fun st sch => round st m sch)).
  intros a b. apply Forall_round.
Qed.

Lemma words_from_bytes_length (k : nat) (b : bytes) :
  (4 * k <= length b)%nat -> (k <= length (words_from_bytes b))%nat.
Proof.
  revert b. induction k as [|k IH]; intros b H; [lia|].
  destruct b as [|b0 [|b1 [|b2 [|b3 rest]]]]; simpl in H; try lia.
  cbn [words_from_bytes length]. apply le_n_S, IH. lia.
Qed.

Lemma compress_Ok cv block block_len offset flags :
  length cv = 8%nat -> Forall word cv -> word block_len -> word flags ->
  64 <= len block ->
  exists out, compress cv block block_len offset flags = Ok out
              /\ length out = 8%nat /\ Forall word out.
Proof.
  intros Hlen Hcv Hbl Hfl Hblock. unfold compress.
  assert (Hw : (16 <= length (words_from_bytes block))%nat).
  { apply words_from_bytes_length. unfold len in Hblock. lia. }
  rewrite Hlen.
  destruct (length (words_from_bytes block) <? 16)%nat eqn:E;
    [apply Nat.ltb_lt in E; lia|].
  cbn [Nat.ltb Nat.leb orb].
  eexists. split; [reflexivity|]. split.
  - now rewrite length_map, length_seq.
  - apply Forall_map, Forall_forall. intros i _.
    apply word_lxor; apply word_get; apply rounds_inv;
      repeat (apply Forall_cons;
              [first [apply word_get; assumption | apply word_land | assumption
                     | apply word_get; repeat constructor; unfold word; simpl; lia]|]);
      constructor.
Qed.

Lemma bytes_from_words_Ok (ws : list Z) :
  Forall word ws ->
  exists b, bytes_from_words ws = Ok b /\ len b = 4 * Z.of_nat (length ws).
Proof.
  induction 1 as [|w ws Hw Hws [b [Hb Hl]]].
  - exists []. split; reflexivity.
  - cbn [bytes_from_words]. rewrite int_to_bytes_Ok by (unfold word in Hw; simpl; lia).
    cbn [rbind]. rewrite Hb. cbn [rbind]. eexists. split; [reflexivity|].
    rewrite len_app, len_le_bytes, Hl. cbn [length]. lia.
Qed.

Lemma word_IV : Forall word IV.
Proof. repeat constructor; unfold word; simpl; lia. Qed.

Lemma chunk_loop_Ok (fuel : nat) cv rest idx flags :
  (length rest <= fuel)%nat -> length cv = 8%nat -> Forall word cv -> word flags ->
  exists cv' flags' block,
    chunk_loop fuel cv rest idx flags = Ok (cv', flags', block)
    /\ length cv' = 8%nat /\ Forall word cv'
    /\ (flags' = flags \/ flags' = 0) /\ len block <= 64.
Proof.
  revert cv rest flags.
  induction fuel as [|fuel IH]; intros cv rest flags Hf Hlen Hcv Hfl.
  - destruct rest; [|simpl in Hf; lia]. exists cv, flags, [].
    repeat split; auto; rewrite ?len_nil; lia.
  - cbn [chunk_loop]. unfold BLOCK_SIZE.
    destruct (len rest >? 64) eqn:E.
    + assert (Hr : 64 < len rest) by lia.
      destruct (@compress_Ok cv (slice_to rest 64) 64 idx flags) as [cv1 [H1 [H2 H3]]];
        auto; [unfold word; lia | rewrite len_slice_to; lia |].
      rewrite H1. cbn [rbind].
      destruct (IH cv1 (slice_from rest 64) 0) as [cv' [fl' [blk [Hr1 [Hr2 [Hr3 [Hr4 Hr5]]]]]]];
        auto; [|unfold word; lia|].
      { unfold slice_from. rewrite length_skipn. unfold len in Hr. lia. }
      exists cv', fl', blk. repeat split; auto. right. destruct Hr4; auto.
    + exists cv, flags, rest. repeat split; auto. lia.
Qed.

Lemma len_zeros (n : Z) : 0 <= n -> len (zeros n) = n.
Proof. intros. unfold len, zeros. rewrite repeat_length. lia. Qed.

Lemma chunk_chaining_value_Ok (chunk_bytes : bytes) (idx : Z) (fin : finalization) :
  exists cv, chunk_chaining_value chunk_bytes idx fin = Ok cv /\ len cv = 32.
Proof.
  unfold chunk_chaining_value.
  destruct (@chunk_loop_Ok (length chunk_bytes) IV chunk_bytes idx CHUNK_START)
    as [cv [fl [blk [H [Hl [Hw [Hf Hb]]]]]]];
    auto using word_IV; [unfold word; cbv; intuition congruence|].
  rewrite H. cbn [rbind].
  pose proof (len_nonneg blk) as Hb0.
  destruct (@compress_Ok cv (blk ++ zeros (BLOCK_SIZE - len blk)) (len blk) idx
              (if is_root fin then Z.lor (Z.lor fl CHUNK_END) ROOT
               else Z.lor fl CHUNK_END)) as [out [Ho [Hol How]]]; auto.
  - unfold word. lia.
  - destruct Hf as [-> | ->]; destruct fin; unfold word; cbv; intuition congruence.
  - rewrite len_app, len_zeros; unfold BLOCK_SIZE; lia.
  - rewrite Ho. cbn [rbind].
    destruct (bytes_from_words_Ok How) as [b [Hb1 Hb2]].
    exists b. split; [exact Hb1 | lia].
Qed.

Lemma parent_chaining_value_Ok (parent_bytes : bytes) (fin : finalization) :
  64 <= len parent_bytes ->
  exists cv, parent_chaining_value parent_bytes fin = Ok cv /\ len cv = 32.
Proof.
  intros Hp. unfold parent_chaining_value.
  destruct (@compress_Ok IV parent_bytes BLOCK_SIZE 0
              (if is_root fin then Z.lor PARENT ROOT else PARENT))
    as [out [Ho [Hol How]]]; auto using word_IV.
  - unfold word, BLOCK_SIZE. lia.
  - destruct fin; unfold word; cbv; intuition congruence.
  - rewrite Ho. cbn [rbind].
    destruct (bytes_from_words_Ok How) as [b [Hb1 Hb2]].
    exists b. split; [exact Hb1 | lia].
Qed.

Lemma compress_length cv block block_len offset flags out :
  compress cv block block_len offset flags = Ok out -> length out = 8%nat.
Proof.
  unfold compress. destruct (_ || _)%bool; [discriminate|].
  match goal with
  | |- Ok ?t = Ok out -> _ =>
      assert (Hl : length t = 8%nat) by (now rewrite length_map, length_seq);
      revert Hl; generalize t
  end.
  intros t Hl H. congruence.
Qed.

Lemma int_to_bytes_len (x : Z) (n : nat) (b : bytes) :
  int_to_bytes x n = Ok b -> len b = Z.of_nat n.
Proof.
  unfold int_to_bytes. destruct (_ && _)%bool; [|discriminate].
  intros H. assert (b = le_bytes n x) by congruence. subst b. apply len_le_bytes.
Qed.

Lemma bytes_from_words_len (ws : list Z) (b : bytes) :
  bytes_from_words ws = Ok b -> len b = 4 * Z.of_nat (length ws).
Proof.
  revert b. induction ws as [|w ws IH]; cbn [bytes_from_words]; intros b H.
  - injection H as <-. reflexivity.
  - apply rbind_Ok in H. destruct H as [b1 [H1 H]].
    apply rbind_Ok in H. destruct H as [b2 [H2 H]]. injection H as <-.
    apply int_to_bytes_len in H1. rewrite len_app, H1, (IH _ H2).
    cbn [length]. lia.
Qed.

Lemma parent_chaining_value_len (parent_bytes : bytes) fin cv :
  parent_chaining_value parent_bytes fin = Ok cv -> len cv = 32.
Proof.
  unfold parent_chaining_value. intros H.
  apply rbind_Ok in H. destruct H as [ws [Hc Hb]].
  apply compress_length in Hc. apply bytes_from_words_len in Hb. lia.
Qed.

Lemma chunk_chaining_value_len (chunk_bytes : bytes) idx fin cv :
  chunk_chaining_value chunk_bytes idx fin = Ok cv -> len cv = 32.
Proof.
  intros H. destruct (chunk_chaining_value_Ok chunk_bytes idx fin) as [cv' [H1 H2]].
  congruence.
Qed.

(** From here on the two node hashers are used through the lemmas above. *)
Global Opaque chunk_chaining_value parent_chaining_value.

(* ================================================================== *)
(** * Lemmas: tree geometry *)

Lemma bit_length_pos (n : Z) : 0 < n -> bit_length n = Z.log2 n + 1.
Proof.
  intros H. unfold bit_length. destruct (n =? 0) eqn:E; [lia|].
  now rewrite Z.abs_eq by lia.
Qed.

(** [left_len] picks the exponent [k] with [2^k <= (L-1) // 1024 < 2^(k+1)]. *)
Lemma left_len_log (L : Z) :
  CHUNK_SIZE < L ->
  exists k, 0 <= k /\ left_len L = CHUNK_SIZE * 2 ^ k
            /\ 2 ^ k <= (L - 1) / CHUNK_SIZE < 2 ^ (k + 1).
Proof.
  unfold CHUNK_SIZE. intros HL. unfold left_len, CHUNK_SIZE.
  assert (Ha : 0 < (L - 1) / 1024).
  { apply Z.div_str_pos. lia. }
  rewrite bit_length_pos by exact Ha.
  exists (Z.log2 ((L - 1) / 1024)).
  pose proof (Z.log2_nonneg ((L - 1) / 1024)).
  pose proof (Z.log2_spec _ Ha) as Hs.
  replace (Z.log2 ((L - 1) / 1024) + 1 - 1) with (Z.log2 ((L - 1) / 1024)) by lia.
  replace (Z.succ (Z.log2 ((L - 1) / 1024))) with (Z.log2 ((L - 1) / 1024) + 1) in Hs by lia.
  repeat split; try lia.
Qed.

Lemma left_len_bounds (L : Z) :
  CHUNK_SIZE < L ->
  CHUNK_SIZE <= left_len L < L /\ L - left_len L <= left_len L
  /\ left_len L mod CHUNK_SIZE = 0.
Proof.
  intros HL. destruct (left_len_log HL) as [k [Hk [Hll [Hlo Hhi]]]].
  unfold CHUNK_SIZE in *.
  assert (Hp : 1 <= 2 ^ k) by (pose proof (Z.pow_pos_nonneg 2 k); lia).
  rewrite Z.pow_add_r in Hhi by lia. change (2 ^ 1) with 2 in Hhi.
  pose proof (Z.div_mod (L - 1) 1024 ltac:(lia)) as Hdm.
  pose proof (Z.mod_pos_bound (L - 1) 1024 ltac:(lia)) as Hmb.
  rewrite Hll. repeat split; try nia.
  rewrite Z.mul_comm. apply Z.mod_mul. lia.
Qed.

Lemma count_chunks_pos (N : Z) : 0 <= N -> 1 <= count_chunks N.
Proof.
  intros H. unfold count_chunks, CHUNK_SIZE. destruct (N =? 0) eqn:E; [lia|].
  assert (1024 <= N + 1024 - 1) by lia.
  pose proof (Z.div_le_mono 1024 (N + 1024 - 1) 1024 ltac:(lia) ltac:(lia)) as Hd.
  rewrite Z.div_same in Hd by lia. exact Hd.
Qed.

Lemma count_chunks_leaf (N : Z) : 0 <= N <= CHUNK_SIZE -> count_chunks N = 1.
Proof.
  unfold count_chunks, CHUNK_SIZE. intros H. destruct (N =? 0) eqn:E; [reflexivity|].
  assert (N <> 0) by lia.
  replace (N + 1024 - 1) with (1 * 1024 + (N - 1)) by lia.
  rewrite Z.div_add_l by lia. rewrite Z.div_small by lia. lia.
Qed.

Lemma count_chunks_mul (p : Z) : 0 < p -> count_chunks (CHUNK_SIZE * p) = p.
Proof.
  unfold count_chunks, CHUNK_SIZE. intros H. destruct (1024 * p =? 0) eqn:E; [lia|].
  replace (1024 * p + 1024 - 1) with (p * 1024 + 1023) by lia.
  rewrite Z.div_add_l by lia. rewrite Z.div_small by lia. lia.
Qed.

Lemma count_chunks_add (p N : Z) :
  0 < p -> 0 < N -> count_chunks (CHUNK_SIZE * p + N) = p + count_chunks N.
Proof.
  unfold count_chunks, CHUNK_SIZE. intros Hp HN.
  destruct (1024 * p + N =? 0) eqn:E; [lia|]. destruct (N =? 0) eqn:E2; [lia|].
  replace (1024 * p + N + 1024 - 1) with (p * 1024 + (N + 1024 - 1)) by lia.
  now rewrite Z.div_add_l by lia.
Qed.

Lemma count_chunks_split (L : Z) :
  CHUNK_SIZE < L ->
  count_chunks L = count_chunks (left_len L) + count_chunks (L - left_len L).
Proof.
  intros HL. destruct (left_len_log HL) as [k [Hk [Hll _]]].
  pose proof (left_len_bounds HL) as [Hb1 [Hb2 _]].
  assert (Hp : 0 < 2 ^ k) by (apply Z.pow_pos_nonneg; lia).
  assert (Hc : count_chunks (left_len L) = 2 ^ k).
  { rewrite Hll. now apply count_chunks_mul. }
  rewrite Hc.
  replace L with (CHUNK_SIZE * 2 ^ k + (L - left_len L)) at 1 by lia.
  apply count_chunks_add; lia.
Qed.

Lemma tree_fuel_children (L : Z) :
  CHUNK_SIZE < L ->
  (tree_fuel (left_len L) < tree_fuel L)%nat
  /\ (tree_fuel (L - left_len L) < tree_fuel L)%nat.
Proof.
  intros HL. destruct (left_len_log HL) as [k [Hk [Hll _]]].
  pose proof (left_len_bounds HL) as [Hb1 [Hb2 _]].
  unfold CHUNK_SIZE in *.
  assert (Hpow : left_len L = 2 ^ (10 + k)).
  { rewrite Hll, Z.pow_add_r by lia. reflexivity. }
  assert (H1 : Z.log2_up (left_len L) = 10 + k).
  { rewrite Hpow. apply Z.log2_up_pow2. lia. }
  assert (H2 : 10 + k < Z.log2_up L).
  { apply Z.log2_up_lt_pow2; lia. }
  assert (H3 : Z.log2_up (L - left_len L) <= 10 + k).
  { apply Z.log2_up_le_pow2; lia. }
  pose proof (Z.log2_up_nonneg (L - left_len L)).
  unfold tree_fuel. lia.
Qed.

(** Induction over the subtrees of a tree. *)
Lemma tree_ind (P : Z -> Prop) :
  (forall L, 0 <= L <= CHUNK_SIZE -> P L) ->
  (forall L, CHUNK_SIZE < L -> P (left_len L) -> P (L - left_len L) -> P L) ->
  forall L, 0 <= L -> P L.
Proof.
  intros Hleaf Hnode L HL. pattern L.
  apply Zlt_0_ind; [|exact HL].
  intros x IH Hx. destruct (Z_le_gt_dec x CHUNK_SIZE) as [Hc|Hc].
  - apply Hleaf. lia.
  - pose proof (@left_len_bounds x ltac:(lia)) as [Hb1 [Hb2 _]].
    unfold CHUNK_SIZE in *. apply Hnode; [unfold CHUNK_SIZE; lia| |]; apply IH; lia.
Qed.

(* ================================================================== *)
(** * The encoded tree as a relation *)

(** [encodes outboard buf fin idx enc cv]: the subtree over [buf] whose first
    chunk has index [idx] is serialised as [enc] and has chaining value
    [cv].  This is the big-step form of [encode_recurse]
    (see [encode_recurse_encodes]). *)
Inductive encodes (outboard : bool)
  : bytes -> finalization -> Z -> bytes -> bytes -> Prop :=
| encodes_leaf buf fin idx cv :
    len buf <= CHUNK_SIZE ->
    chunk_chaining_value buf idx fin = Ok cv ->
    encodes outboard buf fin idx (if outboard then [] else buf) cv
| encodes_node buf fin idx left_encoded left_cv right_encoded right_cv cv :
    CHUNK_SIZE < len buf ->
    encodes outboard (slice_to buf (left_len (len buf))) NOT_ROOT idx
            left_encoded left_cv ->
    encodes outboard (slice_from buf (left_len (len buf))) NOT_ROOT
            (idx + count_chunks (left_len (len buf))) right_encoded right_cv ->
    parent_chaining_value (left_cv ++ right_cv) fin = Ok cv ->
    encodes outboard buf fin idx
            ((left_cv ++ right_cv) ++ left_encoded ++ right_encoded) cv.

Lemma encodes_len_cv ob buf fin idx enc cv :
  encodes ob buf fin idx enc cv -> len cv = 32.
Proof.
  destruct 1 as [buf fin idx cv _ H | buf fin idx le lcv re rcv cv _ _ _ H].
  - eapply chunk_chaining_value_len; eauto.
  - eapply parent_chaining_value_len; eauto.
Qed.

Lemma encodes_total ob (buf : bytes) fin idx :
  exists enc cv, encodes ob buf fin idx enc cv.
Proof.
  remember (len buf) as L eqn:HL.
  assert (H0 : 0 <= L) by (subst; apply len_nonneg).
  revert buf fin idx HL. pattern L. revert L H0. apply tree_ind.
  - intros L HL buf fin idx ->.
    destruct (chunk_chaining_value_Ok buf idx fin) as [cv [Hcv _]].
    exists (if ob then [] else buf), cv. apply encodes_leaf; [lia | exact Hcv].
  - intros L HL IHl IHr buf fin idx ->.
    pose proof (left_len_bounds HL) as [Hb1 [Hb2 _]]. unfold CHUNK_SIZE in *.
    destruct (IHl (slice_to buf (left_len (len buf))) NOT_ROOT idx)
      as [le [lcv Hl]]; [rewrite len_slice_to; lia|].
    destruct (IHr (slice_from buf (left_len (len buf))) NOT_ROOT
                  (idx + count_chunks (left_len (len buf))))
      as [re [rcv Hr]]; [rewrite len_slice_from; lia|].
    pose proof (encodes_len_cv Hl). pose proof (encodes_len_cv Hr).
    destruct (@parent_chaining_value_Ok (lcv ++ rcv) fin) as [cv [Hcv _]];
      [rewrite len_app; lia|].
    eexists. exists cv. eapply encodes_node; eauto.
Qed.

Lemma encodes_fun ob buf fin idx enc cv enc' cv' :
  encodes ob buf fin idx enc cv -> encodes ob buf fin idx enc' cv' ->
  enc = enc' /\ cv = cv'.
Proof.
  intros H. revert enc' cv'.
  induction H as [buf fin idx cv Hlen Hcv
                 | buf fin idx le lcv re rcv cv Hlen Hl IHl Hr IHr Hcv];
    intros enc' cv' H'; inversion H'; subst; try (unfold CHUNK_SIZE in *; lia).
  - split; congruence.
  - match goal with
    | Hl' : encodes _ (slice_to _ _) _ _ _ _,
      Hr' : encodes _ (slice_from _ _) _ _ _ _ |- _ =>
        destruct (IHl _ _ Hl') as [-> ->]; destruct (IHr _ _ Hr') as [-> ->]
    end.
    split; congruence.
Qed.

(** The chaining value does not depend on the encoding mode. *)
Lemma encodes_cv_mode ob ob' buf fin idx enc cv :
  encodes ob buf fin idx enc cv -> exists enc', encodes ob' buf fin idx enc' cv.
Proof.
  induction 1 as [buf fin idx cv Hlen Hcv
                 | buf fin idx le lcv re rcv cv Hlen Hl [le' IHl] Hr [re' IHr] Hcv].
  - eexists. now apply encodes_leaf.
  - eexists. eapply encodes_node; eauto.
Qed.

Lemma encodes_len_enc ob buf fin idx enc cv :
  encodes ob buf fin idx enc cv -> len enc = encoded_subtree_size (len buf) ob.
Proof.
  induction 1 as [buf fin idx cv Hlen Hcv
                 | buf fin idx le lcv re rcv cv Hlen Hl IHl Hr IHr Hcv].
  - unfold encoded_subtree_size. pose proof (len_nonneg buf).
    rewrite count_chunks_leaf by lia. destruct ob; rewrite ?len_nil; unfold PARENT_SIZE; lia.
  - pose proof (left_len_bounds Hlen) as [Hb1 [Hb2 _]]. unfold CHUNK_SIZE in *.
    pose proof (encodes_len_cv Hl). pose proof (encodes_len_cv Hr).
    rewrite len_slice_to in IHl by lia. rewrite len_slice_from in IHr by lia.
    rewrite !len_app, IHl, IHr. unfold encoded_subtree_size.
    rewrite (@count_chunks_split (len buf)) by (unfold CHUNK_SIZE; lia).
    unfold PARENT_SIZE, HASH_SIZE. destruct ob; lia.
Qed.

Lemma encode_recurse_encodes ob buf fin idx enc cv :
  encodes ob buf fin idx enc cv ->
  forall fuel, (tree_fuel (len buf) <= fuel)%nat ->
  encode_recurse fuel ob buf fin idx = Ok (enc, cv, idx + count_chunks (len buf)).
Proof.
  induction 1 as [buf fin idx cv Hlen Hcv
                 | buf fin idx le lcv re rcv cv Hlen Hl IHl Hr IHr Hcv];
    intros fuel Hfuel; (destruct fuel as [|fuel]; [unfold tree_fuel in Hfuel; lia|]);
    cbn [encode_recurse].
  - destruct (len buf <=? CHUNK_SIZE) eqn:E; [|lia].
    rewrite Hcv. cbn [rbind]. pose proof (len_nonneg buf).
    now rewrite count_chunks_leaf by lia.
  - destruct (len buf <=? CHUNK_SIZE) eqn:E; [lia|].
    pose proof (left_len_bounds Hlen) as [Hb1 [Hb2 _]].
    pose proof (tree_fuel_children Hlen) as [Hf1 Hf2]. unfold CHUNK_SIZE in *.
    rewrite len_slice_to in IHl by lia. rewrite len_slice_from in IHr by lia.
    rewrite IHl by lia. cbn [rbind].
    rewrite IHr by lia. cbn [rbind].
    rewrite Hcv. cbn [rbind].
    rewrite (@count_chunks_split (len buf)) by (unfold CHUNK_SIZE; lia).
    do 2 f_equal. lia.
Qed.

(* ================================================================== *)
(** * Lemmas: streams *)

Lemma bind_Ok {A B} (m : M A) (k : A -> M B) s a s' :
  m s = (Ok a, s') -> bind m k s = k a s'.
Proof. intros H. unfold bind. now rewrite H. Qed.

Lemma bind_Raise {A B} (m : M A) (k : A -> M B) s e s' :
  m s = (Raise e, s') -> bind m k s = (Raise e, s').
Proof. intros H. unfold bind. now rewrite H. Qed.

Lemma read_bytes_app (a rest : bytes) (n : Z) :
  n = len a -> read_bytes (a ++ rest) n = (Ok a, rest).
Proof.
  intros ->. unfold read_bytes. rewrite len_app.
  pose proof (len_nonneg rest).
  destruct (len a <=? len a + len rest) eqn:E; [|lia].
  now rewrite slice_to_app, slice_from_app.
Qed.

(** In combined mode both stream names read the one input stream. *)
Lemma read_exact_combined w (a rest out : bytes) (n : Z) :
  n = len a ->
  read_exact w n (mkStreams (a ++ rest) None out) = (Ok a, mkStreams rest None out).
Proof.
  intros H. unfold read_exact. cbn [outboard_stream input_stream output_stream].
  rewrite (read_bytes_app a rest H). now destruct w.
Qed.

Lemma seek_combined w (a rest out : bytes) (n : Z) :
  n = len a ->
  seek w n (mkStreams (a ++ rest) None out) = (Ok tt, mkStreams rest None out).
Proof.
  intros H. unfold seek. cbn [outboard_stream input_stream output_stream].
  rewrite (slice_from_app_n a rest H). now destruct w.
Qed.

Lemma bytes_eqb_refl (a : bytes) : bytes_eqb a a = true.
Proof. now apply bytes_eqb_eq. Qed.

Lemma verify_chunk_Ok cv chunk idx fin :
  chunk_chaining_value chunk idx fin = Ok cv -> verify_chunk cv chunk idx fin = Ok tt.
Proof. intros H. unfold verify_chunk. rewrite H. cbn [rbind]. now rewrite bytes_eqb_refl. Qed.

Lemma verify_parent_Ok cv parent fin :
  parent_chaining_value parent fin = Ok cv -> verify_parent cv parent fin = Ok tt.
Proof. intros H. unfold verify_parent. rewrite H. cbn [rbind]. now rewrite bytes_eqb_refl. Qed.

(* ================================================================== *)
(** * Lemmas: the decoder inverts the encoder *)

Lemma decode_recurse_encodes buf fin idx enc cv :
  encodes false buf fin idx enc cv ->
  forall fuel, (tree_fuel (len buf) <= fuel)%nat ->
  forall rest out,
    decode_recurse fuel cv (len buf) fin idx (mkStreams (enc ++ rest) None out)
    = (Ok (idx + count_chunks (len buf)), mkStreams rest None (out ++ buf)).
Proof.
  induction 1 as [buf fin idx cv Hlen Hcv
                 | buf fin idx le lcv re rcv cv Hlen Hl IHl Hr IHr Hcv];
    intros fuel Hfuel rest out;
    (destruct fuel as [|fuel]; [unfold tree_fuel in Hfuel; lia|]);
    cbn [decode_recurse].
  - destruct (len buf <=? CHUNK_SIZE) eqn:E; [|lia].
    erewrite bind_Ok; [|apply read_exact_combined; reflexivity].
    unfold lift, write, ret, bind. rewrite (verify_chunk_Ok _ _ _ Hcv).
    cbn [input_stream outboard_stream output_stream].
    pose proof (len_nonneg buf). now rewrite count_chunks_leaf by lia.
  - destruct (len buf <=? CHUNK_SIZE) eqn:E; [lia|].
    pose proof (left_len_bounds Hlen) as [Hb1 [Hb2 _]].
    pose proof (tree_fuel_children Hlen) as [Hf1 Hf2]. unfold CHUNK_SIZE in *.
    pose proof (encodes_len_cv Hl) as Hlcv. pose proof (encodes_len_cv Hr) as Hrcv.
    rewrite len_slice_to in IHl by lia. rewrite len_slice_from in IHr by lia.
    rewrite <- !app_assoc with (l := lcv ++ rcv).
    erewrite bind_Ok;
      [|apply read_exact_combined; rewrite len_app; unfold PARENT_SIZE, HASH_SIZE; lia].
    erewrite bind_Ok; [|unfold lift; rewrite (verify_parent_Ok _ _ Hcv); reflexivity].
    rewrite (slice_to_app_n lcv rcv) by (unfold HASH_SIZE; lia).
    rewrite (slice_from_app_n lcv rcv) by (unfold HASH_SIZE; lia).
    rewrite <- app_assoc.
    erewrite bind_Ok; [|apply IHl; lia].
    rewrite IHr by lia.
    rewrite (@count_chunks_split (len buf)) by (unfold CHUNK_SIZE; lia).
    rewrite <- app_assoc, slice_to_from. do 2 f_equal. lia.
Qed.

Lemma bao_encode_encodes ob (x : bytes) :
  len x < 2 ^ 64 ->
  exists enc h, encodes ob x IS_ROOT 0 enc h
                /\ bao_encode x ob = Ok (le_bytes 8 (len x) ++ enc, h).
Proof.
  intros Hx. destruct (encodes_total ob x IS_ROOT 0) as [enc [h He]].
  exists enc, h. split; [exact He|]. unfold bao_encode.
  rewrite (encode_recurse_encodes He) by lia. cbn [rbind].
  pose proof (len_nonneg x).
  rewrite encode_len_Ok by lia. reflexivity.
Qed.

(* ================================================================== *)
(** * Lemmas: slices of a buffer *)

Lemma slice_to_slice (x : bytes) (a b n : Z) :
  0 <= a -> 0 <= n <= b - a -> slice_to (slice x a b) n = slice x a (a + n).
Proof.
  intros Ha Hn. unfold slice_to, slice. rewrite firstn_firstn.
  f_equal. lia.
Qed.

Lemma slice_from_slice (x : bytes) (a b n : Z) :
  0 <= a -> 0 <= n <= b - a -> slice_from (slice x a b) n = slice x (a + n) b.
Proof.
  intros Ha Hn. unfold slice_from, slice.
  rewrite skipn_firstn_comm, skipn_skipn. f_equal; [lia|]. f_equal. lia.
Qed.

Lemma len_slice (x : bytes) (a b : Z) :
  0 <= a <= b -> b <= len x -> len (slice x a b) = b - a.
Proof.
  intros Ha Hb. unfold len, slice in *. rewrite length_firstn, length_skipn. lia.
Qed.

Lemma slice_all (x : bytes) : slice x 0 (len x) = x.
Proof.
  unfold slice, len. rewrite Nat2Z.id. simpl. rewrite Nat.sub_0_r. apply firstn_all.
Qed.

Lemma slice_from_eq_slice (x : bytes) (a : Z) :
  0 <= a -> slice_from x a = slice x a (len x).
Proof.
  intros Ha. unfold slice_from, slice, len. rewrite Nat2Z.id.
  symmetry. apply firstn_all2. rewrite length_skipn. lia.
Qed.

Lemma slice_to_eq_slice (x : bytes) (a : Z) : slice_to x a = slice x 0 a.
Proof. unfold slice_to, slice. simpl. now rewrite Nat.sub_0_r. Qed.

(** [left_len] of a subtree holding more than [2^j] and at most [2^(j+1)]
    chunks. *)
Lemma left_len_eq (L j : Z) :
  0 <= j -> CHUNK_SIZE * 2 ^ j < L <= CHUNK_SIZE * 2 ^ (j + 1) ->
  left_len L = CHUNK_SIZE * 2 ^ j.
Proof.
  intros Hj HL.
  assert (Hp : 0 < 2 ^ j) by (apply Z.pow_pos_nonneg; lia).
  assert (HL' : CHUNK_SIZE < L) by (unfold CHUNK_SIZE in *; nia).
  destruct (left_len_log HL') as [k [Hk [Hll [Hlo Hhi]]]].
  unfold CHUNK_SIZE in *.
  assert (H1 : 2 ^ j <= (L - 1) / 1024).
  { apply Z.div_le_lower_bound; lia. }
  assert (H2 : (L - 1) / 1024 < 2 ^ (j + 1)).
  { apply Z.div_lt_upper_bound; lia. }
  assert (k < j + 1) by (apply (Z.pow_lt_mono_r_iff 2); lia).
  assert (j < k + 1) by (apply (Z.pow_lt_mono_r_iff 2); lia).
  replace j with k by lia. exact Hll.
Qed.

(** Joining two adjacent subtrees of [x]: the left one complete with [2^j]
    chunks, the right one with at most as many. *)
Lemma encodes_join (x : bytes) (A B idx j : Z) fin le lcv re rcv cv :
  0 <= j -> 0 <= A ->
  A + CHUNK_SIZE * 2 ^ j < B <= A + CHUNK_SIZE * 2 ^ (j + 1) -> B <= len x ->
  encodes true (slice x A (A + CHUNK_SIZE * 2 ^ j)) NOT_ROOT idx le lcv ->
  encodes true (slice x (A + CHUNK_SIZE * 2 ^ j) B) NOT_ROOT (idx + 2 ^ j) re rcv ->
  parent_chaining_value (lcv ++ rcv) fin = Ok cv ->
  encodes true (slice x A B) fin idx ((lcv ++ rcv) ++ le ++ re) cv.
Proof.
  intros Hj HA HB HBx Hl Hr Hcv.
  assert (Hp : 0 < 2 ^ j) by (apply Z.pow_pos_nonneg; lia).
  assert (Hlen : len (slice x A B) = B - A) by (apply len_slice; unfold CHUNK_SIZE in *; lia).
  assert (Hll : left_len (len (slice x A B)) = CHUNK_SIZE * 2 ^ j).
  { rewrite Hlen. apply left_len_eq; lia. }
  apply encodes_node.
  - rewrite Hlen. unfold CHUNK_SIZE in *. nia.
  - rewrite Hll, slice_to_slice by (unfold CHUNK_SIZE in *; lia). exact Hl.
  - rewrite Hll, slice_from_slice by (unfold CHUNK_SIZE in *; lia).
    rewrite count_chunks_mul by lia. exact Hr.
  - exact Hcv.
Qed.

(* ================================================================== *)
(** * Lemmas: population count *)

Lemma popcount_double (k : Z) : popcount (2 * k) = popcount k.
Proof. destruct k; reflexivity. Qed.

Lemma popcount_double_1 (k : Z) : 0 <= k -> popcount (2 * k + 1) = 1 + popcount k.
Proof. destruct k; intros; try reflexivity. lia. Qed.

Lemma pos_popcount_pos (p : positive) : 1 <= pos_popcount p.
Proof. induction p; cbn [pos_popcount]; lia. Qed.

Lemma pos_popcount_succ (p : positive) :
  pos_popcount (Pos.succ p) <= pos_popcount p + 1.
Proof. induction p; cbn [pos_popcount Pos.succ]; lia. Qed.

Lemma popcount_succ (k : Z) : 0 <= k -> popcount (k + 1) <= popcount k + 1.
Proof.
  destruct k as [|p|p]; intros H; [simpl; lia| |lia].
  replace (Z.pos p + 1) with (Z.pos (Pos.succ p)) by lia.
  apply pos_popcount_succ.
Qed.

Lemma popcount_pos (k : Z) : 0 < k -> 1 <= popcount k.
Proof. destruct k; intros; try lia. apply pos_popcount_pos. Qed.

(* ================================================================== *)
(** * The hasher's stack *)

(** [stack_inv x k e st]: [st] (top first) holds the chaining values of the
    complete subtrees of [x] that the binary digits of [k] call for, the
    lowest digit standing for a subtree of [2^e] chunks that ends at chunk
    [k * 2^e]. *)
Inductive stack_inv (x : bytes) : Z -> Z -> list bytes -> Prop :=
| stack_zero e : stack_inv x 0 e []
| stack_even k e st :
    0 < k -> stack_inv x k (e + 1) st -> stack_inv x (2 * k) e st
| stack_odd k e s st enc :
    0 <= k ->
    encodes true (slice x (CHUNK_SIZE * (2 * k * 2 ^ e))
                        (CHUNK_SIZE * (2 * k * 2 ^ e) + CHUNK_SIZE * 2 ^ e))
            NOT_ROOT (2 * k * 2 ^ e) enc s ->
    stack_inv x k (e + 1) st ->
    stack_inv x (2 * k + 1) e (s :: st).

Lemma stack_inv_length x k e st :
  stack_inv x k e st -> Z.of_nat (length st) = popcount k.
Proof.
  induction 1 as [e | k e st Hk H IH | k e s st enc Hk Hs H IH].
  - reflexivity.
  - now rewrite popcount_double.
  - rewrite popcount_double_1 by lia. cbn [length]. lia.
Qed.

Lemma stack_inv_nonneg x k e st : stack_inv x k e st -> 0 <= k.
Proof. destruct 1; lia. Qed.

(** Pushing the chaining value of the next complete subtree. *)
Lemma merge_subtrees_inv x k e st :
  stack_inv x k e st ->
  forall new enc, 0 <= e ->
    CHUNK_SIZE * (k * 2 ^ e) + CHUNK_SIZE * 2 ^ e <= len x ->
    encodes true (slice x (CHUNK_SIZE * (k * 2 ^ e))
                        (CHUNK_SIZE * (k * 2 ^ e) + CHUNK_SIZE * 2 ^ e))
            NOT_ROOT (k * 2 ^ e) enc new ->
    exists st', merge_subtrees st new (popcount (k + 1)) = Ok st'
                /\ stack_inv x (k + 1) e st'.
Proof.
  induction 1 as [e | k e st Hk H IH | k e s st enc0 Hk Hs H IH];
    intros new enc He Hx Hnew.
  - exists [new]. split; [reflexivity|].
    apply (@stack_odd x 0 e new [] enc); [lia| |constructor].
    exact Hnew.
  - exists (new :: st). pose proof (stack_inv_length H) as Hlen.
    destruct st as [|s st]; cbn [merge_subtrees];
      rewrite popcount_double_1 by lia;
      (destruct (_ >? _) eqn:E; [cbn [length] in *; zbool; lia|]);
      (split; [reflexivity|]);
      apply (@stack_odd x k e new _ enc); auto; lia.
  - pose proof (stack_inv_length H) as Hlen.
    pose proof (popcount_succ Hk) as Hps.
    assert (Hpw : 0 < 2 ^ e) by (apply Z.pow_pos_nonneg; lia).
    assert (Hpw2 : 2 ^ (e + 1) = 2 * 2 ^ e) by (rewrite Z.pow_add_r by lia; lia).
    cbn [merge_subtrees].
    replace (2 * k + 1 + 1) with (2 * (k + 1)) by lia.
    rewrite popcount_double.
    destruct (_ >? _) eqn:E; [|cbn [length] in *; zbool; lia].
    pose proof (encodes_len_cv Hs) as Hls. pose proof (encodes_len_cv Hnew) as Hln.
    destruct (@parent_chaining_value_Ok (s ++ new) NOT_ROOT) as [cv [Hcv _]];
      [rewrite len_app; lia|].
    rewrite Hcv. cbn [rbind].
    destruct (IH cv ((s ++ new) ++ enc0 ++ enc)) as [st' [Hm Hinv]]; [lia| | |].
    + rewrite Hpw2. unfold CHUNK_SIZE in *. lia.
    + replace (CHUNK_SIZE * (k * 2 ^ (e + 1)) + CHUNK_SIZE * 2 ^ (e + 1))
        with (CHUNK_SIZE * (2 * k * 2 ^ e) + CHUNK_SIZE * 2 ^ e + CHUNK_SIZE * 2 ^ e)
        by (rewrite Hpw2; lia).
      replace (k * 2 ^ (e + 1)) with (2 * k * 2 ^ e) by (rewrite Hpw2; lia).
      apply encodes_join with (j := e); auto.
      * unfold CHUNK_SIZE; lia.
      * rewrite Hpw2. unfold CHUNK_SIZE. lia.
      * unfold CHUNK_SIZE in *. lia.
      * replace (CHUNK_SIZE * (2 * k * 2 ^ e) + CHUNK_SIZE * 2 ^ e)
          with (CHUNK_SIZE * ((2 * k + 1) * 2 ^ e)) by lia.
        replace (2 * k * 2 ^ e + 2 ^ e) with ((2 * k + 1) * 2 ^ e) by lia.
        exact Hnew.
    + exists st'. split; [exact Hm|].
      apply stack_even; [lia | exact Hinv].
Qed.

Lemma stack_inv_zero x k e st : stack_inv x k e st -> k = 0 -> st = [].
Proof. destruct 1; intros; auto; lia. Qed.

(** Merging the last, possibly partial, subtree down the stack at end of
    input gives the root. *)
Lemma finish_subtrees_inv x k e st :
  stack_inv x k e st ->
  forall new enc, 0 <= e -> 0 < k ->
    CHUNK_SIZE * (k * 2 ^ e) < len x <= CHUNK_SIZE * (k * 2 ^ e) + CHUNK_SIZE * 2 ^ e ->
    encodes true (slice x (CHUNK_SIZE * (k * 2 ^ e)) (len x))
            NOT_ROOT (k * 2 ^ e) enc new ->
    exists h enc', finish_subtrees st new = Ok h /\ encodes true x IS_ROOT 0 enc' h.
Proof.
  induction 1 as [e | k e st Hk H IH | k e s st enc0 Hk Hs H IH];
    intros new enc He Hk0 Hx Hnew; [lia| |];
    assert (Hpw : 0 < 2 ^ e) by (apply Z.pow_pos_nonneg; lia);
    assert (Hpw2 : 2 ^ (e + 1) = 2 * 2 ^ e) by (rewrite Z.pow_add_r by lia; lia).
  - apply (IH new enc); [lia | lia | |].
    + rewrite Hpw2. unfold CHUNK_SIZE in *. lia.
    + replace (k * 2 ^ (e + 1)) with (2 * k * 2 ^ e) by (rewrite Hpw2; lia).
      exact Hnew.
  - pose proof (encodes_len_cv Hs) as Hls. pose proof (encodes_len_cv Hnew) as Hln.
    assert (Hjoin : forall fin cv,
               parent_chaining_value (s ++ new) fin = Ok cv ->
               encodes true (slice x (CHUNK_SIZE * (2 * k * 2 ^ e)) (len x)) fin
                       (2 * k * 2 ^ e) ((s ++ new) ++ enc0 ++ enc) cv).
    { intros fin cv Hcv. apply encodes_join with (j := e); auto.
      - unfold CHUNK_SIZE; lia.
      - rewrite Hpw2. unfold CHUNK_SIZE in *. lia.
      - lia.
      - replace (CHUNK_SIZE * (2 * k * 2 ^ e) + CHUNK_SIZE * 2 ^ e)
          with (CHUNK_SIZE * ((2 * k + 1) * 2 ^ e)) by lia.
        replace (2 * k * 2 ^ e + 2 ^ e) with ((2 * k + 1) * 2 ^ e) by lia.
        exact Hnew. }
    destruct (Z.eq_dec k 0) as [->|Hkn].
    + apply stack_inv_zero in H; [|reflexivity]. subst st. cbn [finish_subtrees].
      destruct (@parent_chaining_value_Ok (s ++ new) IS_ROOT) as [cv [Hcv _]];
        [rewrite len_app; lia|].
      exists cv. eexists. split; [exact Hcv|].
      specialize (Hjoin IS_ROOT cv Hcv).
      replace (CHUNK_SIZE * (2 * 0 * 2 ^ e)) with 0 in Hjoin by lia.
      replace (2 * 0 * 2 ^ e) with 0 in Hjoin by lia.
      rewrite slice_all in Hjoin. exact Hjoin.
    + pose proof (stack_inv_length H) as Hlen.
      pose proof (@popcount_pos k ltac:(lia)) as Hpp.
      destruct st as [|s' st]; [cbn [length] in Hlen; lia|].
      cbn [finish_subtrees].
      destruct (@parent_chaining_value_Ok (s ++ new) NOT_ROOT) as [cv [Hcv _]];
        [rewrite len_app; lia|].
      rewrite Hcv. cbn [rbind].
      apply (IH cv ((s ++ new) ++ enc0 ++ enc)); [lia | lia | |].
      * rewrite Hpw2. unfold CHUNK_SIZE in *. lia.
      * replace (k * 2 ^ (e + 1)) with (2 * k * 2 ^ e) by (rewrite Hpw2; lia).
        apply Hjoin. exact Hcv.
Qed.

Lemma slice_to_nil_inv (b : bytes) : slice_to b CHUNK_SIZE = [] -> b = [].
Proof. destruct b; [reflexivity | discriminate]. Qed.

Lemma slice_app_mid (pre mid post : bytes) :
  slice (pre ++ mid ++ post) (len pre) (len pre + len mid) = mid.
Proof.
  unfold slice, len. rewrite Nat2Z.id, skipn_app, Nat.sub_diag, skipn_all.
  cbn [skipn app].
  replace (Z.to_nat (Z.of_nat (length pre) + Z.of_nat (length mid)) - length pre)%nat
    with (length mid) by lia.
  rewrite firstn_app, Nat.sub_diag, firstn_all. simpl. apply app_nil_r.
Qed.

Lemma slice_app_tail (pre post : bytes) :
  slice (pre ++ post) (len pre) (len (pre ++ post)) = post.
Proof.
  rewrite <- (app_nil_r post) at 1. rewrite len_app. apply slice_app_mid.
Qed.

Lemma read_full (input : bytes) :
  slice_from input CHUNK_SIZE <> [] -> len (slice_to input CHUNK_SIZE) = CHUNK_SIZE.
Proof.
  intros H. unfold slice_from, slice_to, len in *. rewrite length_firstn.
  destruct (le_lt_dec (length input) (Z.to_nat CHUNK_SIZE)) as [Hl|Hl].
  - rewrite skipn_all2 in H by lia. congruence.
  - unfold CHUNK_SIZE in *. lia.
Qed.

Lemma read_len (input : bytes) :
  input <> [] -> 0 < len (slice_to input CHUNK_SIZE) <= CHUNK_SIZE.
Proof.
  intros H. unfold slice_to, len. rewrite length_firstn.
  assert (0 < length input)%nat by (destruct input; [congruence | simpl; lia]).
  unfold CHUNK_SIZE. lia.
Qed.

Lemma length_read_rest (input : bytes) (fuel : nat) :
  input <> [] -> (length input <= S fuel)%nat ->
  (length (slice_from input CHUNK_SIZE) <= fuel)%nat.
Proof.
  intros Hne Hf. unfold slice_from. rewrite length_skipn.
  assert (0 < length input)%nat by (destruct input; [congruence | simpl; lia]).
  unfold CHUNK_SIZE. lia.
Qed.

(** The reads of [buffered] deliver the input, none of them is empty, and
    all but the last have [CHUNK_SIZE] bytes. *)
Lemma full_reads_yield (fuel : nat) :
  forall input, (length input <= fuel)%nat ->
    concat (full_reads fuel input) = input
    /\ Forall (fun read => 0 < len read <= CHUNK_SIZE) (full_reads fuel input)
    /\ (forall reads last, full_reads fuel input = reads ++ [last] ->
                           Forall (fun read => len read = CHUNK_SIZE) reads).
Proof.
  induction fuel as [|fuel IH]; intros input Hf.
  - assert (input = []) by (destruct input; [reflexivity | simpl in Hf; lia]).
    subst input. cbn [full_reads concat]. split; [reflexivity|]. split; [constructor|].
    intros reads last H. destruct reads; discriminate H.
  - cbn [full_reads]. destruct (slice_to input CHUNK_SIZE) as [|b r] eqn:Hread.
    + apply slice_to_nil_inv in Hread. subst input. cbn [concat].
      split; [reflexivity|]. split; [constructor|].
      intros reads last H. destruct reads; discriminate H.
    + assert (Hne : input <> []) by (intros ->; discriminate).
      rewrite <- Hread. clear b r Hread.
      destruct (IH (slice_from input CHUNK_SIZE) (length_read_rest Hne Hf))
        as [Hc [Hall Hfull]].
      split; [|split].
      * cbn [concat]. rewrite Hc. apply slice_to_from.
      * constructor; [apply read_len; exact Hne | exact Hall].
      * intros reads last H. destruct reads as [|r0 reads]; [constructor|].
        cbn [app] in H. injection H as <- Hrest.
        constructor; [|now apply (Hfull reads last)].
        apply read_full. intros Hnil.
        assert (Hnone : full_reads fuel (slice_from input CHUNK_SIZE) = []).
        { rewrite Hnil. destruct fuel; reflexivity. }
        rewrite Hnone in Hrest. destruct reads; discriminate Hrest.
Qed.

(** The end of input, in a state the loop can reach on input [x]. *)
Lemma hash_finish_inv (x : bytes) buf chunks st pre :
  x = pre ++ buf -> len pre = CHUNK_SIZE * chunks ->
  stack_inv x chunks 0 st ->
  (buf = [] /\ chunks = 0) \/ 0 < len buf <= CHUNK_SIZE ->
  exists h enc, hash_finish buf chunks st = Ok h /\ encodes true x IS_ROOT 0 enc h.
Proof.
  intros Hx Hpre Hst Hbuf. pose proof (stack_inv_nonneg Hst) as Hc0.
  unfold hash_finish. destruct (chunks =? 0) eqn:Ec.
  - assert (chunks = 0) by lia. subst chunks.
    assert (pre = []) by (destruct pre; [reflexivity | unfold len in Hpre; simpl in Hpre; lia]).
    subst pre. cbn [app] in Hx. subst x.
    destruct (chunk_chaining_value_Ok buf 0 IS_ROOT) as [h [Hh _]].
    exists h, []. split; [exact Hh|].
    apply (@encodes_leaf true buf IS_ROOT 0 h); [|exact Hh].
    destruct Hbuf as [[-> _]|Hb]; [rewrite len_nil; unfold CHUNK_SIZE|]; lia.
  - destruct Hbuf as [[_ ->]|Hb]; [lia|].
    destruct (chunk_chaining_value_Ok buf chunks NOT_ROOT) as [new [Hnew _]].
    rewrite Hnew. cbn [rbind].
    apply (@finish_subtrees_inv x chunks 0 st Hst new []); [lia | lia | |].
    + rewrite Hx, len_app, Hpre. change (2 ^ 0) with 1. lia.
    + change (2 ^ 0) with 1. rewrite Z.mul_1_r, <- Hpre.
      rewrite Hx at 1 2. rewrite slice_app_tail.
      apply (@encodes_leaf true buf NOT_ROOT chunks new); [lia | exact Hnew].
Qed.

(** The loop of [bao_hash] on full reads, started in a state it can reach on
    input [x], returns the root chaining value of the tree over [x]. *)
Lemma hash_loop_inv (x : bytes) :
  forall fuel input buf chunks st pre,
    x = pre ++ buf ++ input -> len pre = CHUNK_SIZE * chunks ->
    stack_inv x chunks 0 st ->
    (buf = [] /\ chunks = 0)
    \/ (0 < len buf <= CHUNK_SIZE /\ (input <> [] -> len buf = CHUNK_SIZE)) ->
    (length input <= fuel)%nat ->
    exists h enc, hash_loop (full_reads fuel input) buf chunks st = Ok h
                  /\ encodes true x IS_ROOT 0 enc h.
Proof.
  assert (Hend : forall buf chunks st pre,
             x = pre ++ buf ++ [] -> len pre = CHUNK_SIZE * chunks ->
             stack_inv x chunks 0 st ->
             (buf = [] /\ chunks = 0)
             \/ (0 < len buf <= CHUNK_SIZE /\ (@nil byte <> [] -> len buf = CHUNK_SIZE)) ->
             exists h enc, hash_finish buf chunks st = Ok h
                           /\ encodes true x IS_ROOT 0 enc h).
  { intros buf chunks st pre Hx Hpre Hst Hbuf. rewrite app_nil_r in Hx.
    apply (@hash_finish_inv x buf chunks st pre Hx Hpre Hst).
    destruct Hbuf as [Hb | [Hb _]]; [left | right]; exact Hb. }
  induction fuel as [|fuel IH]; intros input buf chunks st pre Hx Hpre Hst Hbuf Hfuel.
  { assert (input = []) by (destruct input; [reflexivity | simpl in Hfuel; lia]).
    subst input. cbn [full_reads hash_loop]. now apply (Hend buf chunks st pre). }
  pose proof (stack_inv_nonneg Hst) as Hc0.
  cbn [full_reads]. destruct (slice_to input CHUNK_SIZE) as [|b r] eqn:Hread.
  - apply slice_to_nil_inv in Hread. subst input. cbn [hash_loop].
    now apply (Hend buf chunks st pre).
  - assert (Hne : input <> []) by (intros ->; discriminate).
    cbn [hash_loop]. rewrite <- Hread. clear b r Hread.
    assert (Hin : slice_to input CHUNK_SIZE ++ slice_from input CHUNK_SIZE = input)
      by apply slice_to_from.
    pose proof (length_read_rest Hne Hfuel) as Hrest.
    destruct (len buf >=? CHUNK_SIZE) eqn:Eb.
    + destruct Hbuf as [[-> _]|[Hb Hfull]]; [rewrite len_nil in Eb; unfold CHUNK_SIZE in Eb; lia|].
      specialize (Hfull Hne).
      assert (Hsb : slice_to buf CHUNK_SIZE = buf).
      { unfold slice_to. apply firstn_all2. unfold len in Hfull. lia. }
      assert (Hsf : slice_from buf CHUNK_SIZE = []).
      { unfold slice_from. apply skipn_all2. unfold len in Hfull. lia. }
      rewrite Hsb, Hsf.
      destruct (chunk_chaining_value_Ok buf chunks NOT_ROOT) as [new [Hnew _]].
      rewrite Hnew. cbn [rbind].
      destruct (@merge_subtrees_inv x chunks 0 st Hst new []) as [st' [Hm Hst']]; [lia| | |].
      * change (2 ^ 0) with 1. rewrite Hx, !len_app, Hpre. pose proof (len_nonneg input). lia.
      * change (2 ^ 0) with 1. rewrite !Z.mul_1_r, <- Hpre, <- Hfull.
        rewrite Hx, slice_app_mid.
        apply (@encodes_leaf true buf NOT_ROOT chunks new); [lia | exact Hnew].
      * rewrite Hm. cbn [rbind app].
        apply (IH _ _ _ _ (pre ++ buf)); auto.
        -- rewrite Hin, <- app_assoc. exact Hx.
        -- rewrite len_app. lia.
        -- right. split; [apply read_len; exact Hne | apply read_full].
    + destruct Hbuf as [[-> ->]|[Hb Hfull]]; [|specialize (Hfull Hne); lia].
      cbn [app]. apply (IH _ _ _ _ pre); auto.
      * cbn [app] in Hx. now rewrite Hin.
      * right. split; [apply read_len; exact Hne | apply read_full].
Qed.

Lemma bao_hash_encodes (x : bytes) :
  exists h enc, bao_hash (buffered x) = Ok h /\ encodes true x IS_ROOT 0 enc h.
Proof.
  unfold bao_hash, buffered. apply (@hash_loop_inv x _ x [] 0 [] []); auto.
  constructor.
Qed.

(* ================================================================== *)
(** * Lemmas: slices are produced and verified in step *)

(** [v] clamped to [[0, m]], as [max(0, min(m, v))]. *)
Definition clamp (m v : Z) : Z := Z.max 0 (Z.min m v).

(** The chunk of [buf] that holds the byte at offset [off]. *)
Definition chunk_of (buf : bytes) (off : Z) : bytes :=
  slice buf (CHUNK_SIZE * (off / CHUNK_SIZE))
        (Z.min (len buf) (CHUNK_SIZE * (off / CHUNK_SIZE) + CHUNK_SIZE)).

Lemma slice_skip_first (l : bytes) (a b : Z) :
  slice l a b = skipn (Z.to_nat a) (firstn (Z.to_nat b) l).
Proof.
  unfold slice. destruct (le_lt_dec (Z.to_nat a) (Z.to_nat b)) as [H|H].
  - rewrite skipn_firstn_comm. reflexivity.
  - replace (Z.to_nat b - Z.to_nat a)%nat with 0%nat by lia.
    cbn [firstn]. symmetry. apply skipn_all2. rewrite length_firstn. lia.
Qed.

Lemma skip_first_app {A} (l1 l2 : list A) (a b : nat) :
  skipn a (firstn b (l1 ++ l2))
  = skipn (Nat.min a (length l1)) (firstn (Nat.min b (length l1)) l1)
    ++ skipn (a - length l1) (firstn (b - length l1) l2).
Proof.
  rewrite firstn_app, skipn_app, length_firstn. f_equal.
  - destruct (le_lt_dec b (length l1)) as [Hb|Hb].
    + rewrite (Nat.min_l b) by lia.
      destruct (le_lt_dec a (length l1)) as [Ha|Ha].
      * now rewrite (Nat.min_l a) by lia.
      * rewrite !skipn_all2; [reflexivity| |]; rewrite length_firstn; lia.
    + rewrite (Nat.min_r b) by lia. rewrite (firstn_all2 (n := b)) by lia.
      rewrite firstn_all.
      destruct (le_lt_dec a (length l1)) as [Ha|Ha].
      * now rewrite (Nat.min_l a) by lia.
      * rewrite !skipn_all2; [reflexivity| |]; lia.
  - destruct (le_lt_dec (length l1) b) as [Hb|Hb].
    + now rewrite (Nat.min_r b) by lia.
    + replace (b - length l1)%nat with 0%nat by lia. cbn [firstn].
      now rewrite !skipn_nil.
Qed.

(** The part of a range that falls in a buffer is the part in its head
    followed by the part in its tail. *)
Lemma slice_clamp_split (buf : bytes) (n a b : Z) :
  0 <= n <= len buf ->
  slice buf (clamp (len buf) a) (clamp (len buf) b)
  = slice (slice_to buf n) (clamp n a) (clamp n b)
    ++ slice (slice_from buf n) (clamp (len buf - n) (a - n)) (clamp (len buf - n) (b - n)).
Proof.
  intros Hn. rewrite !slice_skip_first.
  rewrite <- (slice_to_from buf n) at 3.
  rewrite skip_first_app.
  assert (Hl : length (slice_to buf n) = Z.to_nat n).
  { unfold slice_to. rewrite length_firstn. unfold len in Hn. lia. }
  rewrite Hl. unfold clamp, len in *. f_equal; f_equal; try lia; f_equal; lia.
Qed.

Lemma seek_twice_combined (a rest out : bytes) (n m : Z) :
  0 <= n -> 0 <= m -> n + m = len a ->
  bind (seek Tree n) (fun _ => seek Input m) (mkStreams (a ++ rest) None out)
  = (Ok tt, mkStreams rest None out).
Proof.
  intros Hn Hm H. unfold bind, seek. cbn [outboard_stream input_stream output_stream].
  do 2 f_equal. unfold slice_from. rewrite skipn_skipn.
  replace (Z.to_nat m + Z.to_nat n)%nat with (length a) by (unfold len in H; lia).
  rewrite skipn_app, Nat.sub_diag, skipn_all. reflexivity.
Qed.

Lemma write_run (b inp out : bytes) :
  write b (mkStreams inp None out) = (Ok tt, mkStreams inp None (out ++ b)).
Proof. reflexivity. Qed.

Lemma left_len_chunks (L : Z) :
  CHUNK_SIZE < L -> count_chunks (left_len L) = left_len L / CHUNK_SIZE.
Proof.
  intros HL. destruct (left_len_log HL) as [k [Hk [Hll _]]].
  assert (0 < 2 ^ k) by (apply Z.pow_pos_nonneg; lia).
  rewrite Hll, count_chunks_mul by lia.
  unfold CHUNK_SIZE. rewrite Z.mul_comm, Z.div_mul; lia.
Qed.

(** What the slice producer and the slice verifier do on one subtree:
    [buf] starts at byte [subtree_start] of the content, [enc] is its
    encoding and [cv] its chaining value; [(slice_start, slice_end)] is the
    normalised range; [sl] is the producer's output for the subtree.
    - The producer, reading [enc], writes [sl]; it has read all of [enc] when
      the subtree ends within the range.
    - The verifier, reading [sl], succeeds and writes the part of [buf] that
      lies in the range, unless [skip_output] is set.
    - When the range covers bytes of one chunk only, [sl] is a chain of
      parent nodes followed by that chunk.
    - A subtree outside the range contributes nothing. *)
Definition slice_ok (buf enc cv : bytes) (fin : finalization)
           (content_len slice_start slice_end : Z) (skip_output : bool)
           (subtree_start : Z) (fuel : nat) (sl : bytes) : Prop :=
  (forall inp out,
      (subtree_start < slice_end -> exists rest, inp = enc ++ rest) ->
      exists inp',
        slice_recurse fuel slice_start slice_end subtree_start (len buf)
                      (mkStreams inp None out)
        = (Ok tt, mkStreams inp' None (out ++ sl))
        /\ (subtree_start + len buf <= slice_end ->
            forall rest, inp = enc ++ rest -> inp' = rest))
  /\ (forall rest out,
         decode_slice_recurse fuel content_len slice_start slice_end skip_output
                              subtree_start (len buf) cv fin
                              (mkStreams (sl ++ rest) None out)
         = (Ok tt,
            mkStreams rest None
              (out ++ if skip_output then []
                      else slice buf (clamp (len buf) (slice_start - subtree_start))
                                 (clamp (len buf) (slice_end - subtree_start)))))
  /\ (subtree_start <= slice_start < subtree_start + len buf ->
      slice_end = slice_start + 1 \/ slice_start + 1 = subtree_start + len buf ->
      exists parents, sl = parents ++ chunk_of buf (slice_start - subtree_start)
                      /\ len parents mod 64 = 0)
  /\ (subtree_start + len buf <= slice_start \/ slice_end <= subtree_start ->
      sl = []).

Lemma slice_empty_high (buf : bytes) (a b : Z) : len buf <= a -> slice buf a b = [].
Proof.
  intros H. unfold slice. rewrite skipn_all2 by (unfold len in H; lia).
  apply firstn_nil.
Qed.

Lemma slice_empty_low (buf : bytes) (a : Z) : slice buf a 0 = [].
Proof. unfold slice. reflexivity. Qed.

Lemma slice_ok_before buf fin idx enc cv clen ss se skip s fuel :
  encodes false buf fin idx enc cv ->
  0 < clen -> 0 < len buf -> ss < se -> s + len buf <= ss ->
  slice_ok buf enc cv fin clen ss se skip s (S fuel) [].
Proof.
  intros He Hclen Hbuf Hse Hb. repeat split.
  - intros inp out Hinp. destruct Hinp as [rest ->]; [lia|].
    exists rest. cbn [slice_recurse].
    destruct (s + len buf <=? ss) eqn:E; [|lia].
    rewrite seek_twice_combined, app_nil_r.
    + split; [reflexivity|]. intros _ rest' Hr. now apply app_inv_head in Hr.
    + unfold encoded_subtree_size, PARENT_SIZE, HASH_SIZE.
      pose proof (@count_chunks_pos (len buf) ltac:(lia)). lia.
    + lia.
    + rewrite (encodes_len_enc He). unfold encoded_subtree_size. lia.
  - intros rest out. cbn [decode_slice_recurse app].
    destruct (s + len buf <=? ss) eqn:E; [|lia].
    destruct (clen >? 0) eqn:E2; [|zbool; lia]. cbn [andb]. unfold ret.
    do 2 f_equal. destruct skip; [now rewrite app_nil_r|].
    rewrite slice_empty_high, app_nil_r; [reflexivity|]. unfold clamp. lia.
  - lia.
Qed.

Lemma slice_ok_after buf fin enc cv clen ss se skip s fuel :
  0 < clen -> 0 < len buf -> ss < se -> se <= s ->
  slice_ok buf enc cv fin clen ss se skip s (S fuel) [].
Proof.
  intros Hclen Hbuf Hse Ha. repeat split.
  - intros inp out _. exists inp. cbn [slice_recurse].
    destruct (s + len buf <=? ss) eqn:E; [lia|].
    destruct (se <=? s) eqn:E1; [|lia].
    unfold ret. rewrite app_nil_r. split; [reflexivity|]. lia.
  - intros rest out. cbn [decode_slice_recurse app].
    destruct (s + len buf <=? ss) eqn:E; [lia|].
    destruct (se <=? s) eqn:E1; [|lia].
    destruct (clen >? 0) eqn:E2; [|zbool; lia]. cbn [andb]. unfold ret.
    do 2 f_equal. destruct skip; [now rewrite app_nil_r|].
    replace (clamp (len buf) (se - s)) with 0 by (unfold clamp; lia).
    now rewrite slice_empty_low, app_nil_r.
  - lia.
Qed.

Lemma slice_slice (x : bytes) (A B a b : Z) :
  0 <= A -> 0 <= a -> 0 <= b <= B - A ->
  slice (slice x A B) a b = slice x (A + a) (A + b).
Proof.
  intros HA Ha Hb. unfold slice.
  rewrite skipn_firstn_comm, firstn_firstn, skipn_skipn.
  f_equal; [lia|]. f_equal. lia.
Qed.

Lemma chunk_of_left (buf : bytes) (n off : Z) :
  0 <= off < n -> n mod CHUNK_SIZE = 0 -> n <= len buf ->
  chunk_of (slice_to buf n) off = chunk_of buf off.
Proof.
  unfold CHUNK_SIZE. intros Hoff Hn Hlen. unfold chunk_of, CHUNK_SIZE.
  rewrite len_slice_to by lia.
  pose proof (Z.div_mod off 1024 ltac:(lia)) as Hdm.
  pose proof (Z.mod_pos_bound off 1024 ltac:(lia)) as Hmb.
  pose proof (Z.div_mod n 1024 ltac:(lia)) as Hdn. rewrite Hn in Hdn.
  assert (Hq : 0 <= off / 1024) by (apply Z.div_pos; lia).
  assert (Hle : 1024 * (off / 1024) + 1024 <= n) by nia.
  rewrite !Z.min_r by lia.
  rewrite slice_to_eq_slice, slice_slice by lia. reflexivity.
Qed.

Lemma chunk_of_right (buf : bytes) (n off : Z) :
  0 <= n <= off -> n mod CHUNK_SIZE = 0 -> n <= len buf ->
  chunk_of (slice_from buf n) (off - n) = chunk_of buf off.
Proof.
  unfold CHUNK_SIZE. intros Hoff Hn Hlen. unfold chunk_of, CHUNK_SIZE.
  rewrite len_slice_from by lia.
  pose proof (Z.div_mod n 1024 ltac:(lia)) as Hdn. rewrite Hn in Hdn.
  assert (Hq : (off - n) / 1024 = off / 1024 - n / 1024).
  { replace (off - n) with (off + (- (n / 1024)) * 1024) by lia.
    rewrite Z.div_add by lia. lia. }
  assert (0 <= (off - n) / 1024) by (apply Z.div_pos; lia).
  rewrite Hq in *.
  rewrite slice_from_eq_slice, slice_slice by lia.
  f_equal; lia.
Qed.

Lemma slice_ok_leaf buf fin cv clen ss se skip s fuel :
  len buf <= CHUNK_SIZE ->
  chunk_chaining_value buf (s / CHUNK_SIZE) fin = Ok cv ->
  0 < clen -> 0 < len buf -> ss < se -> ss < s + len buf -> s < se ->
  slice_ok buf buf cv fin clen ss se skip s (S fuel) buf.
Proof.
  intros Hlen Hcv Hclen Hbuf Hse Hb Ha. unfold slice_ok. split; [|split; [|split]].
  - intros inp out Hinp. destruct Hinp as [rest ->]; [lia|].
    exists rest. cbn [slice_recurse].
    destruct (s + len buf <=? ss) eqn:E; [lia|].
    destruct (se <=? s) eqn:E1; [lia|].
    destruct (len buf <=? CHUNK_SIZE) eqn:E2; [|lia].
    erewrite bind_Ok; [|apply read_exact_combined; reflexivity].
    rewrite write_run. split; [reflexivity|].
    intros _ rest' Hr. now apply app_inv_head in Hr.
  - intros rest out. cbn [decode_slice_recurse].
    destruct (s + len buf <=? ss) eqn:E; [lia|].
    destruct (se <=? s) eqn:E1; [lia|]. cbn [andb].
    destruct (len buf <=? CHUNK_SIZE) eqn:E2; [|lia].
    erewrite bind_Ok; [|apply read_exact_combined; reflexivity].
    erewrite bind_Ok; [|unfold lift; rewrite (verify_chunk_Ok _ _ _ Hcv); reflexivity].
    destruct skip; cbn [negb].
    + unfold ret. now rewrite app_nil_r.
    + rewrite write_run. reflexivity.
  - intros Hin _. exists []. split; [|reflexivity]. cbn [app].
    unfold chunk_of. rewrite Z.div_small by (unfold CHUNK_SIZE in *; lia).
    rewrite Z.mul_0_r, Z.min_l by (unfold CHUNK_SIZE in *; lia).
    symmetry. apply slice_all.
  - lia.
Qed.

Lemma slice_roundtrip buf fin idx enc cv :
  encodes false buf fin idx enc cv ->
  forall clen ss se skip s fuel,
    0 < clen -> 0 < len buf -> 0 <= s -> s mod CHUNK_SIZE = 0 ->
    idx = s / CHUNK_SIZE -> ss < se -> (tree_fuel (len buf) <= fuel)%nat ->
    exists sl, slice_ok buf enc cv fin clen ss se skip s fuel sl.
Proof.
  induction 1 as [buf fin idx cv Hlen Hcv
                 | buf fin idx le lcv re rcv cv Hlen Hl IHl Hr IHr Hcv];
    intros clen ss se skip s fuel Hclen Hbuf Hs Hsm Hidx Hse Hfuel;
    [pose proof (@encodes_leaf false buf fin idx cv Hlen Hcv) as He
    |pose proof (@encodes_node false _ _ _ _ _ _ _ _ Hlen Hl Hr Hcv) as He];
    cbv beta iota in *;
    (destruct fuel as [|fuel]; [unfold tree_fuel in Hfuel; lia|]);
    (destruct (Z_le_gt_dec (s + len buf) ss) as [Hb|Hb];
     [exists []; solve [eapply slice_ok_before; eauto]|]);
    (destruct (Z_le_gt_dec se s) as [Ha|Ha];
     [exists []; solve [apply slice_ok_after; auto]|]);
    clear He.
  - exists buf. subst idx. apply slice_ok_leaf; auto; lia.
  - pose proof (left_len_bounds Hlen) as [Hb1 [Hb2 Hb3]].
    pose proof (tree_fuel_children Hlen) as [Hf1 Hf2].
    pose proof (encodes_len_cv Hl) as Hlcv. pose proof (encodes_len_cv Hr) as Hrcv.
    set (llen := left_len (len buf)) in *.
    assert (Hll : len (slice_to buf llen) = llen)
      by (apply len_slice_to; unfold CHUNK_SIZE in *; lia).
    assert (Hlr : len (slice_from buf llen) = len buf - llen)
      by (apply len_slice_from; unfold CHUNK_SIZE in *; lia).
    destruct (IHl clen ss se skip s fuel) as [sl_l [Pl [Vl [Cl Nl]]]];
      auto; try (rewrite Hll; unfold CHUNK_SIZE in *; lia).
    destruct (IHr clen ss se skip (s + llen) fuel) as [sl_r [Pr [Vr [Cr Nr]]]];
      auto; try (rewrite Hlr; unfold CHUNK_SIZE in *; lia).
    { unfold CHUNK_SIZE in *. lia. }
    { rewrite <- Z.add_mod_idemp_l, Hsm, Z.add_0_l by (unfold CHUNK_SIZE; lia).
      exact Hb3. }
    { subst idx. unfold llen. rewrite left_len_chunks by exact Hlen.
      fold llen. unfold CHUNK_SIZE in *.
      pose proof (Z.div_mod llen 1024 ltac:(lia)) as Hd. rewrite Hb3 in Hd.
      replace (s + llen) with (s + (llen / 1024) * 1024) by lia.
      now rewrite Z.div_add by lia. }
    rewrite Hll in *. rewrite Hlr in *.
    exists ((lcv ++ rcv) ++ sl_l ++ sl_r). split; [|split; [|split]].
    + intros inp out Hinp. destruct Hinp as [rest ->]; [lia|].
      cbn [slice_recurse].
      destruct (s + len buf <=? ss) eqn:E; [lia|].
      destruct (se <=? s) eqn:E1; [lia|].
      destruct (len buf <=? CHUNK_SIZE) eqn:E2; [lia|].
      rewrite <- !app_assoc with (l := lcv ++ rcv).
      erewrite bind_Ok;
        [|apply read_exact_combined; rewrite len_app; unfold PARENT_SIZE, HASH_SIZE; lia].
      erewrite bind_Ok; [|apply write_run].
      fold llen. rewrite <- (app_assoc le).
      destruct (Pl (le ++ re ++ rest) (out ++ lcv ++ rcv)) as [inp1 [Rl Il]];
        [intros _; eexists; reflexivity|].
      erewrite bind_Ok; [|exact Rl].
      destruct (Pr inp1 ((out ++ lcv ++ rcv) ++ sl_l)) as [inp2 [Rr Ir]].
      { intros Hlt. exists rest. apply Il; [lia|]. reflexivity. }
      exists inp2. rewrite Rr. split.
      * do 2 f_equal. now rewrite <- !app_assoc.
      * intros Hend rest' Hrest. rewrite <- !app_assoc in Hrest.
        do 4 apply app_inv_head in Hrest. subst rest'.
        apply Ir; [lia|]. apply Il; [lia|]. reflexivity.
    + intros rest out. cbn [decode_slice_recurse].
      destruct (s + len buf <=? ss) eqn:E; [lia|].
      destruct (se <=? s) eqn:E1; [lia|]. cbn [andb].
      destruct (len buf <=? CHUNK_SIZE) eqn:E2; [lia|].
      rewrite <- !app_assoc with (l := lcv ++ rcv).
      erewrite bind_Ok;
        [|apply read_exact_combined; rewrite len_app; unfold PARENT_SIZE, HASH_SIZE; lia].
      erewrite bind_Ok; [|unfold lift; rewrite (verify_parent_Ok _ _ Hcv); reflexivity].
      rewrite (slice_to_app_n lcv rcv) by (unfold HASH_SIZE; lia).
      rewrite (slice_from_app_n lcv rcv) by (unfold HASH_SIZE; lia).
      fold llen. rewrite <- app_assoc.
      erewrite bind_Ok; [|apply Vl].
      rewrite Vr. do 2 f_equal. rewrite <- app_assoc. f_equal.
      destruct skip; [reflexivity|].
      rewrite (@slice_clamp_split buf llen) by (unfold CHUNK_SIZE in *; lia).
      do 2 f_equal; f_equal; lia.
    + intros Hin Hone.
      destruct (Z_lt_le_dec ss (s + llen)) as [Hleft|Hright].
      * destruct Cl as [parents [-> Hp]]; [lia | lia |].
        rewrite Nr by lia. rewrite app_nil_r.
        exists ((lcv ++ rcv) ++ parents). split.
        -- rewrite <- !app_assoc. do 3 f_equal.
           apply chunk_of_left; unfold CHUNK_SIZE in *; lia.
        -- rewrite !len_app, Hlcv, Hrcv.
           replace (32 + 32 + len parents) with (len parents + 1 * 64) by lia.
           now rewrite Z.mod_add by lia.
      * destruct Cr as [parents [-> Hp]]; [lia | lia |].
        rewrite Nl by lia. cbn [app].
        exists ((lcv ++ rcv) ++ parents). split.
        -- rewrite <- !app_assoc. do 3 f_equal.
           replace (ss - (s + llen)) with (ss - s - llen) by lia.
           apply chunk_of_right; unfold CHUNK_SIZE in *; lia.
        -- rewrite !len_app, Hlcv, Hrcv.
           replace (32 + 32 + len parents) with (len parents + 1 * 64) by lia.
           now rewrite Z.mod_add by lia.
    + lia.
Qed.

(* ================================================================== *)
(** * The specification's formula for the left subtree *)

Definition pow2 (p : Z) : Prop := exists k, 0 <= k /\ p = 2 ^ k.

(** [p] is the largest power of two that is at most [n]. *)
Definition largest_pow2_le (p n : Z) : Prop :=
  pow2 p /\ p <= n /\ forall q, pow2 q -> q <= n -> q <= p.

(** The ceiling of [a / b]. *)
Definition ceil_div (a b : Z) : Z :=
  if a mod b =? 0 then a / b else a / b + 1.

Lemma pow2_le_inv (j k : Z) : 0 <= j -> 0 <= k -> 2 ^ j < 2 ^ (k + 1) -> 2 ^ j <= 2 ^ k.
Proof.
  intros Hj Hk H. apply Z.pow_le_mono_r; [lia|].
  assert (j < k + 1) by (apply (Z.pow_lt_mono_r_iff 2); lia). lia.
Qed.

Lemma count_chunks_avail (L : Z) :
  0 < L -> count_chunks L = (L - 1) / CHUNK_SIZE + 1.
Proof.
  intros HL. unfold count_chunks, CHUNK_SIZE. destruct (L =? 0) eqn:E; [lia|].
  replace (L + 1024 - 1) with (L - 1 + 1 * 1024) by lia.
  now rewrite Z.div_add by lia.
Qed.

Lemma count_chunks_ceil (N : Z) :
  0 <= N -> count_chunks N = Z.max 1 (ceil_div N CHUNK_SIZE).
Proof.
  intros HN. unfold count_chunks, ceil_div, CHUNK_SIZE.
  pose proof (Z.div_mod N 1024 ltac:(lia)) as Hdm.
  pose proof (Z.mod_pos_bound N 1024 ltac:(lia)) as Hmb.
  assert (Hq : 0 <= N / 1024) by (apply Z.div_pos; lia).
  destruct (N =? 0) eqn:E.
  - assert (N = 0) by lia. subst N. reflexivity.
  - destruct (N mod 1024 =? 0) eqn:Em.
    + assert (Hm : N mod 1024 = 0) by lia. rewrite Hm in Hdm.
      replace (N + 1024 - 1) with (1023 + (N / 1024) * 1024) by lia.
      rewrite Z.div_add, (Z.div_small 1023) by lia. lia.
    + replace (N + 1024 - 1) with ((N mod 1024 - 1) + (N / 1024 + 1) * 1024) by lia.
      rewrite Z.div_add, (Z.div_small (N mod 1024 - 1)) by lia. lia.
Qed.

(* ================================================================== *)
(** * Properties of the codec *)

(** C4 (as stated, refuted): with [available_chunks] the ceiling of
    [(L - 1) / 1024], the largest power of two below it times 1024 is not
    [left_len L]: for [L = 1026] the ceiling is 2, while [left_len] leaves a
    one-chunk left subtree of 1024 bytes. *)
Lemma left_len_ceiling_counterexample :
  CHUNK_SIZE < 1026
  /\ ~ exists p, largest_pow2_le p (ceil_div (1026 - 1) CHUNK_SIZE)
                 /\ left_len 1026 = p * CHUNK_SIZE.
Proof.
  split; [reflexivity|]. intros [p [[_ [_ Hmax]] Hp]].
  assert (Hp1 : p = 1).
  { change (left_len 1026) with 1024 in Hp. unfold CHUNK_SIZE in Hp. lia. }
  assert (H2 : 2 <= p).
  { apply Hmax; [exists 1; split; [lia | reflexivity] | reflexivity]. }
  lia.
Qed.

(** C4 (amended): for every subtree length [L > 1024], [left_len L] is
    [p * 1024] where [p] is the largest power of two that is at most the
    floor of [(L - 1) / 1024]. *)
Theorem left_len_floor_formula (L : Z) :
  CHUNK_SIZE < L ->
  exists p, largest_pow2_le p ((L - 1) / CHUNK_SIZE) /\ left_len L = p * CHUNK_SIZE.
Proof.
  intros HL. destruct (left_len_log HL) as [k [Hk [Hll [Hlo Hhi]]]].
  exists (2 ^ k). split; [|lia].
  split; [exists k; auto|]. split; [exact Hlo|].
  intros q [j [Hj ->]] Hq. apply pow2_le_inv; lia.
Qed.

Lemma left_len_floor_formula_witness :
  CHUNK_SIZE < 1026
  /\ exists p, largest_pow2_le p ((1026 - 1) / CHUNK_SIZE) /\ left_len 1026 = p * CHUNK_SIZE.
Proof.
  split; [reflexivity | apply (@left_len_floor_formula 1026); reflexivity].
Defined.

(** C5: for every subtree length [L > 1024], [left_len L] is 1024 times a
    power of two [2^k], with [1024 <= left_len L < L]; [2^k] is the largest
    power of two strictly below [count_chunks L], the left child holds
    exactly [2^k] chunks, and the right child is not empty. *)
Theorem left_len_geometry (L : Z) :
  CHUNK_SIZE < L ->
  exists k, 0 <= k
    /\ left_len L = CHUNK_SIZE * 2 ^ k
    /\ CHUNK_SIZE <= left_len L < L
    /\ 0 < L - left_len L
    /\ count_chunks (left_len L) = 2 ^ k
    /\ 2 ^ k < count_chunks L
    /\ (forall q, pow2 q -> q < count_chunks L -> q <= 2 ^ k).
Proof.
  intros HL. destruct (left_len_log HL) as [k [Hk [Hll [Hlo Hhi]]]].
  pose proof (left_len_bounds HL) as [Hb1 [Hb2 _]].
  assert (Hp : 0 < 2 ^ k) by (apply Z.pow_pos_nonneg; lia).
  assert (Hcc : count_chunks L = (L - 1) / CHUNK_SIZE + 1)
    by (apply count_chunks_avail; unfold CHUNK_SIZE in *; lia).
  exists k. repeat split; try lia.
  - rewrite Hll. now apply count_chunks_mul.
  - intros q [j [Hj ->]] Hq. apply pow2_le_inv; lia.
Qed.

Lemma left_len_geometry_witness :
  CHUNK_SIZE < 3000
  /\ exists k, 0 <= k
    /\ left_len 3000 = CHUNK_SIZE * 2 ^ k
    /\ CHUNK_SIZE <= left_len 3000 < 3000
    /\ 0 < 3000 - left_len 3000
    /\ count_chunks (left_len 3000) = 2 ^ k
    /\ 2 ^ k < count_chunks 3000
    /\ (forall q, pow2 q -> q < count_chunks 3000 -> q <= 2 ^ k).
Proof.
  split; [reflexivity | apply (@left_len_geometry 3000); reflexivity].
Defined.

Lemma bao_decode_encoded (x enc h : bytes) :
  len x < 2 ^ 64 -> encodes false x IS_ROOT 0 enc h ->
  bao_decode h (combined (le_bytes 8 (len x) ++ enc)) = (Ok tt, mkStreams [] None x).
Proof.
  intros Hx He. pose proof (len_nonneg x) as H0. unfold bao_decode, combined.
  erewrite bind_Ok; [|apply read_exact_combined; reflexivity].
  rewrite decode_encode_len by lia.
  rewrite <- (app_nil_r enc).
  erewrite bind_Ok; [|apply (decode_recurse_encodes He); lia].
  reflexivity.
Qed.

(** C1: for every byte string [x], decoding the combined encoding of [x]
    against the root hash returned with it succeeds, consumes the whole
    stream and writes exactly [x].  ([len x < 2^64] is what the 8-byte
    length header can hold; a Python [bytes] object is always shorter.) *)
Theorem decode_encode_combined (x : bytes) :
  len x < 2 ^ 64 ->
  exists stream hash_,
    bao_encode x false = Ok (stream, hash_)
    /\ bao_decode hash_ (combined stream) = (Ok tt, mkStreams [] None x).
Proof.
  intros Hx. destruct (@bao_encode_encodes false x Hx) as [enc [h [He Hb]]].
  exists (le_bytes 8 (len x) ++ enc), h. split; [exact Hb|].
  now apply bao_decode_encoded.
Qed.

Lemma decode_encode_combined_witness :
  len [x00; x01; x02] < 2 ^ 64
  /\ exists stream hash_,
       bao_encode [x00; x01; x02] false = Ok (stream, hash_)
       /\ bao_decode hash_ (combined stream) = (Ok tt, mkStreams [] None [x00; x01; x02]).
Proof.
  split; [reflexivity | apply (@decode_encode_combined [x00; x01; x02]); reflexivity].
Defined.

Lemma bao_hash_encode (ob : bool) (x : bytes) :
  len x < 2 ^ 64 ->
  exists h stream, bao_hash (buffered x) = Ok h /\ bao_encode x ob = Ok (stream, h).
Proof.
  intros Hx. destruct (bao_hash_encodes x) as [h [enc [Hh He]]].
  destruct (@bao_encode_encodes ob x Hx) as [enc' [h' [He' Hb]]].
  destruct (@encodes_cv_mode true ob _ _ _ _ _ He) as [enc'' He''].
  destruct (encodes_fun He' He'') as [_ ->].
  exists h. eexists. split; [exact Hh | exact Hb].
Qed.





(** C6: for every byte string [x], the combined encoding has
    [8 + 64 * (count_chunks |x| - 1) + |x|] bytes and the outboard encoding
    [8 + 64 * (count_chunks |x| - 1)], where [count_chunks N] is
    [max 1 (ceil (N / 1024))]. *)
Theorem encoded_sizes (x : bytes) :
  len x < 2 ^ 64 ->
  exists combined_stream h1 outboard_stream h2,
    bao_encode x false = Ok (combined_stream, h1)
    /\ len combined_stream = 8 + 64 * (count_chunks (len x) - 1) + len x
    /\ bao_encode x true = Ok (outboard_stream, h2)
    /\ len outboard_stream = 8 + 64 * (count_chunks (len x) - 1)
    /\ count_chunks (len x) = Z.max 1 (ceil_div (len x) 1024).
Proof.
  intros Hx.
  destruct (@bao_encode_encodes false x Hx) as [e1 [h1 [He1 Hb1]]].
  destruct (@bao_encode_encodes true x Hx) as [e2 [h2 [He2 Hb2]]].
  exists (le_bytes 8 (len x) ++ e1), h1, (le_bytes 8 (len x) ++ e2), h2.
  apply encodes_len_enc in He1. apply encodes_len_enc in He2.
  unfold encoded_subtree_size, PARENT_SIZE, HASH_SIZE in *.
  repeat split; auto.
  - rewrite len_app, len_le_bytes, He1. lia.
  - rewrite len_app, len_le_bytes, He2. lia.
  - apply (@count_chunks_ceil (len x)). apply len_nonneg.
Qed.

Lemma encoded_sizes_witness :
  len (repeat x00 1025) < 2 ^ 64
  /\ exists combined_stream h1 outboard_stream h2,
    bao_encode (repeat x00 1025) false = Ok (combined_stream, h1)
    /\ len combined_stream
       = 8 + 64 * (count_chunks (len (repeat x00 1025)) - 1) + len (repeat x00 1025)
    /\ bao_encode (repeat x00 1025) true = Ok (outboard_stream, h2)
    /\ len outboard_stream = 8 + 64 * (count_chunks (len (repeat x00 1025)) - 1)
    /\ count_chunks (len (repeat x00 1025))
       = Z.max 1 (ceil_div (len (repeat x00 1025)) 1024).
Proof.
  split; [reflexivity | apply (@encoded_sizes (repeat x00 1025)); reflexivity].
Defined.

(** The BLAKE3 hash of the empty input. *)
Definition empty_hash : bytes :=
  [xaf; x13; x49; xb9; xf5; xf9; xa1; xa6; xa0; x40; x4d; xea; x36; xdc; xc9; x49;
   x9b; xcb; x25; xc9; xad; xc1; x12; xb7; xcc; x9a; x93; xca; xe4; x1f; x32; x62].

Lemma chunk_chaining_value_empty :
  chunk_chaining_value [] 0 IS_ROOT = Ok empty_hash.
Proof. vm_compute. reflexivity. Qed.

(** C7: on the empty input (a stream at its end: the first [read] returns
    [b""]), [bao_hash] returns
    af1349b9f5f9a1a6a0404dea36dcc9499bcb25c9adc112b7cc9a93cae41f3262 and the
    combined encoding is the eight zero bytes of the length header. *)
Theorem empty_input :
  bao_hash [] = Ok empty_hash
  /\ exists h, bao_encode [] false = Ok ([x00; x00; x00; x00; x00; x00; x00; x00], h).
Proof.
  split; [vm_compute; reflexivity|]. eexists. vm_compute. reflexivity.
Qed.

(* ================================================================== *)
(** * Slices of a whole encoding *)

(** The normalised range of [bao_slice] and [bao_decode_slice], by
    component. *)
Definition norm_start (content_len slice_start : Z) : Z :=
  if slice_start >=? content_len
  then (if content_len >? 0 then content_len - 1 else 0)
  else slice_start.

Definition norm_end (slice_start slice_len : Z) : Z :=
  slice_start + (if slice_len =? 0 then 1 else slice_len).

Definition norm_skip (content_len slice_start slice_len : Z) : bool :=
  (slice_len =? 0) || (slice_start >=? content_len).

Lemma decode_slice_range_eq (clen start slen : Z) :
  decode_slice_range clen start slen
  = (norm_start clen start, norm_end start slen, norm_skip clen start slen).
Proof.
  unfold decode_slice_range, norm_start, norm_end, norm_skip.
  destruct (slen =? 0); destruct (start >=? clen); reflexivity.
Qed.

Lemma bao_slice_eq (start slen : Z) (header enc out : bytes) :
  len header = 8 ->
  bao_slice start slen (mkStreams (header ++ enc) None out)
  = slice_recurse (tree_fuel (decode_len header))
                  (norm_start (decode_len header) start) (norm_end start slen)
                  0 (decode_len header) (mkStreams enc None (out ++ header)).
Proof.
  intros Hh. unfold bao_slice.
  erewrite bind_Ok; [|apply read_exact_combined; unfold HEADER_SIZE; lia].
  erewrite bind_Ok; [|apply write_run].
  reflexivity.
Qed.

Lemma bao_decode_slice_eq (h : bytes) (start slen : Z) (header sl out : bytes) :
  len header = 8 ->
  bao_decode_slice h start slen (mkStreams (header ++ sl) None out)
  = decode_slice_recurse (tree_fuel (decode_len header)) (decode_len header)
                         (norm_start (decode_len header) start) (norm_end start slen)
                         (norm_skip (decode_len header) start slen)
                         0 (decode_len header) h IS_ROOT (mkStreams sl None out).
Proof.
  intros Hh. unfold bao_decode_slice.
  erewrite bind_Ok; [|apply read_exact_combined; unfold HEADER_SIZE; lia].
  now rewrite decode_slice_range_eq.
Qed.

Lemma norm_range (clen start slen : Z) :
  0 <= clen -> 0 <= start -> 0 <= slen ->
  norm_start clen start < norm_end start slen
  /\ 0 <= norm_start clen start
  /\ (0 < clen -> norm_start clen start < clen).
Proof.
  intros Hc Hs Hl. unfold norm_start, norm_end.
  destruct (start >=? clen) eqn:E1; destruct (clen >? 0) eqn:E2;
    destruct (slen =? 0) eqn:E3; zbool; lia.
Qed.

(** The producer on the encoding of [x] and the verifier on its output. *)
Lemma bao_slice_decode (x enc h : bytes) (start slen : Z) :
  len x < 2 ^ 64 -> 0 <= start -> 0 <= slen ->
  encodes false x IS_ROOT 0 enc h ->
  exists sl inp',
    bao_slice start slen (combined (le_bytes 8 (len x) ++ enc))
    = (Ok tt, mkStreams inp' None (le_bytes 8 (len x) ++ sl))
    /\ bao_decode_slice h start slen (combined (le_bytes 8 (len x) ++ sl))
       = (Ok tt,
          mkStreams [] None
            (if norm_skip (len x) start slen then []
             else slice x (clamp (len x) (norm_start (len x) start))
                        (clamp (len x) (norm_end start slen))))
    /\ (norm_end start slen = norm_start (len x) start + 1
        \/ norm_start (len x) start + 1 = len x \/ len x = 0 ->
        exists parents, sl = parents ++ chunk_of x (norm_start (len x) start)
                        /\ len parents mod 64 = 0).
Proof.
  intros Hx Hs Hl He. pose proof (len_nonneg x) as H0.
  pose proof (@norm_range (len x) start slen H0 Hs Hl) as [Hr1 [Hr2 Hr3]].
  unfold combined.
  rewrite bao_slice_eq by (now rewrite len_le_bytes).
  destruct (Z.eq_dec (len x) 0) as [Hz|Hz].
  - assert (x = []) by (destruct x; [reflexivity | unfold len in Hz; simpl in Hz; lia]).
    subst x.
    pose proof (@encodes_leaf false [] IS_ROOT 0 empty_hash ltac:(rewrite len_nil; unfold CHUNK_SIZE; lia)
                  chunk_chaining_value_empty) as He'.
    cbv beta iota in He'. destruct (encodes_fun He He') as [-> ->].
    exists [], [].
    rewrite bao_decode_slice_eq by reflexivity.
    change (len []) with 0 in *.
    change (decode_len (le_bytes 8 0)) with 0.
    assert (Hns : norm_start 0 start = 0).
    { unfold norm_start. destruct (start >=? 0) eqn:E; [reflexivity | zbool; lia]. }
    assert (Hsk : norm_skip 0 start slen = true).
    { unfold norm_skip. destruct (start >=? 0) eqn:E; [apply orb_true_r | zbool; lia]. }
    rewrite Hns, Hsk. split; [reflexivity|]. split.
    + change (tree_fuel 0) with 1%nat. cbn [decode_slice_recurse].
      change (0 >? 0) with false. rewrite !andb_false_r.
      change (0 <=? CHUNK_SIZE) with true. cbv beta iota.
      erewrite bind_Ok; [|apply (@read_exact_combined Input [] [] [] 0); reflexivity].
      change (0 / CHUNK_SIZE) with 0.
      erewrite bind_Ok;
        [|unfold lift; rewrite (verify_chunk_Ok _ _ _ chunk_chaining_value_empty);
          reflexivity].
      reflexivity.
    + intros _. exists []. split; reflexivity.
  - assert (Hpos : 0 < len x) by lia. specialize (Hr3 Hpos).
    rewrite decode_encode_len by lia.
    destruct (@slice_roundtrip x IS_ROOT 0 enc h He (len x)
                (norm_start (len x) start) (norm_end start slen)
                (norm_skip (len x) start slen) 0 (tree_fuel (len x)))
      as [sl [P [V [C _]]]]; auto; try lia; try reflexivity.
    destruct (P enc (le_bytes 8 (len x))) as [inp' [Hrun _]].
    { intros _. exists []. now rewrite app_nil_r. }
    exists sl, inp'. cbn [app]. split; [exact Hrun|]. split.
    + rewrite bao_decode_slice_eq by (now rewrite len_le_bytes).
      rewrite decode_encode_len by lia.
      specialize (V [] []). rewrite app_nil_r, !Z.sub_0_r in V. rewrite V. reflexivity.
    + intros Hone. rewrite Z.sub_0_r in C. apply C; lia.
Qed.

(** C3: for every byte string [x] and every range with
    [start + len <= |x|], the slice that [bao_slice] extracts from the
    combined encoding of [x] is accepted by [bao_decode_slice] with the root
    hash, which is [bao_hash] of a buffered stream over [x] as well as the
    hash of [bao_encode], and the same range, which reads all of it and writes
    exactly [x[start : start + len]]. *)
Theorem slice_soundness (x : bytes) (slice_start slice_len : Z) :
  len x < 2 ^ 64 -> 0 <= slice_start -> 0 <= slice_len ->
  slice_start + slice_len <= len x ->
  exists stream hash_ slice_stream rest,
    bao_encode x false = Ok (stream, hash_)
    /\ bao_hash (buffered x) = Ok hash_
    /\ bao_slice slice_start slice_len (combined stream)
       = (Ok tt, mkStreams rest None slice_stream)
    /\ bao_decode_slice hash_ slice_start slice_len (combined slice_stream)
       = (Ok tt, mkStreams [] None (slice x slice_start (slice_start + slice_len))).
Proof.
  intros Hx Hs Hl Hin.
  destruct (@bao_encode_encodes false x Hx) as [enc [h [He Hb]]].
  destruct (@bao_hash_encode false x Hx) as [h' [stream' [Hh Hb']]].
  assert (h' = h) by congruence. subst h'.
  destruct (@bao_slice_decode x enc h slice_start slice_len Hx Hs Hl He)
    as [sl [inp' [Hsl [Hdec _]]]].
  exists (le_bytes 8 (len x) ++ enc), h, (le_bytes 8 (len x) ++ sl), inp'.
  repeat split; auto. rewrite Hdec. do 2 f_equal.
  unfold norm_skip, norm_start, norm_end, clamp.
  destruct (slice_len =? 0) eqn:E1; destruct (slice_start >=? len x) eqn:E2;
    cbn [orb]; zbool.
  - unfold slice. replace (Z.to_nat (slice_start + slice_len) - Z.to_nat slice_start)%nat
      with 0%nat by lia. reflexivity.
  - unfold slice. replace (Z.to_nat (slice_start + slice_len) - Z.to_nat slice_start)%nat
      with 0%nat by lia. reflexivity.
  - lia.
  - f_equal; lia.
Qed.

Lemma slice_soundness_witness :
  len (repeat x07 1500) < 2 ^ 64 /\ 0 <= 1000 /\ 0 <= 100
  /\ 1000 + 100 <= len (repeat x07 1500)
  /\ exists stream hash_ slice_stream rest,
    bao_encode (repeat x07 1500) false = Ok (stream, hash_)
    /\ bao_hash (buffered (repeat x07 1500)) = Ok hash_
    /\ bao_slice 1000 100 (combined stream) = (Ok tt, mkStreams rest None slice_stream)
    /\ bao_decode_slice hash_ 1000 100 (combined slice_stream)
       = (Ok tt, mkStreams [] None (slice (repeat x07 1500) 1000 (1000 + 100))).
Proof.
  split; [reflexivity|]. split; [lia|]. split; [lia|].
  split; [vm_compute; discriminate|].
  apply (@slice_soundness (repeat x07 1500) 1000 100);
    [reflexivity | lia | lia | vm_compute; discriminate].
Defined.

(** C9: when [start >= |x|], or when [len = 0], the slice produced and
    verified with the same parameters is accepted and nothing is written.
    For [len = 0] the slice stream is still not empty: it is the 8-byte
    header, a chain of 64-byte parent nodes, and the whole chunk that holds
    the (normalised) start byte. *)
Theorem degenerate_slices (x : bytes) (slice_start slice_len : Z) :
  len x < 2 ^ 64 -> 0 <= slice_start -> 0 <= slice_len ->
  len x <= slice_start \/ slice_len = 0 ->
  exists stream hash_ slice_stream rest,
    bao_encode x false = Ok (stream, hash_)
    /\ bao_hash (buffered x) = Ok hash_
    /\ bao_slice slice_start slice_len (combined stream)
       = (Ok tt, mkStreams rest None slice_stream)
    /\ bao_decode_slice hash_ slice_start slice_len (combined slice_stream)
       = (Ok tt, mkStreams [] None [])
    /\ (slice_len = 0 ->
        slice_stream <> []
        /\ exists header parents,
             encode_len (len x) = Ok header /\ len header = 8
             /\ len parents mod 64 = 0
             /\ slice_stream
                = header ++ parents ++ chunk_of x (norm_start (len x) slice_start)).
Proof.
  intros Hx Hs Hl Hdeg. pose proof (len_nonneg x) as H0.
  destruct (@bao_encode_encodes false x Hx) as [enc [h [He Hb]]].
  destruct (@bao_hash_encode false x Hx) as [h' [stream' [Hh Hb']]].
  assert (h' = h) by congruence. subst h'.
  destruct (@bao_slice_decode x enc h slice_start slice_len Hx Hs Hl He)
    as [sl [inp' [Hsl [Hdec Hone]]]].
  exists (le_bytes 8 (len x) ++ enc), h, (le_bytes 8 (len x) ++ sl), inp'.
  split; [exact Hb|]. split; [exact Hh|]. split; [exact Hsl|]. split.
  - rewrite Hdec. do 2 f_equal. unfold norm_skip.
    destruct (slice_len =? 0) eqn:E1; [reflexivity|].
    destruct (slice_start >=? len x) eqn:E2; [reflexivity|]. zbool. lia.
  - intros Hzero. split; [discriminate|].
    destruct Hone as [parents [Hp1 Hp2]].
    { unfold norm_end, norm_start. subst slice_len. cbn [Z.eqb].
      destruct (slice_start >=? len x) eqn:E2; [|lia].
      destruct (len x >? 0) eqn:E3; zbool; lia. }
    exists (le_bytes 8 (len x)), parents. rewrite encode_len_Ok by lia.
    rewrite len_le_bytes. subst sl. repeat split; auto.
Qed.

Lemma degenerate_slices_witness :
  len (repeat x07 1500) < 2 ^ 64 /\ 0 <= 2000 /\ 0 <= 0
  /\ (len (repeat x07 1500) <= 2000 \/ 0 = 0)
  /\ exists stream hash_ slice_stream rest,
    bao_encode (repeat x07 1500) false = Ok (stream, hash_)
    /\ bao_hash (buffered (repeat x07 1500)) = Ok hash_
    /\ bao_slice 2000 0 (combined stream) = (Ok tt, mkStreams rest None slice_stream)
    /\ bao_decode_slice hash_ 2000 0 (combined slice_stream)
       = (Ok tt, mkStreams [] None [])
    /\ (0 = 0 ->
        slice_stream <> []
        /\ exists header parents,
             encode_len (len (repeat x07 1500)) = Ok header /\ len header = 8
             /\ len parents mod 64 = 0
             /\ slice_stream
                = header ++ parents
                  ++ chunk_of (repeat x07 1500) (norm_start (len (repeat x07 1500)) 2000)).
Proof.
  split; [reflexivity|]. split; [lia|]. split; [lia|].
  split; [right; reflexivity|].
  apply (@degenerate_slices (repeat x07 1500) 2000 0);
    [reflexivity | lia | lia | right; reflexivity].
Defined.

(** C10: on a slice stream whose header says the content is empty,
    [bao_decode_slice] with any range reads the empty chunk and verifies it
    at chunk index 0 with the root finalization: it succeeds exactly when
    the supplied hash is [bao_hash] of the empty input, raises the
    verification error otherwise, and either way writes nothing;
    [skip_output] is set for every [start >= 0]. *)
Theorem empty_content_slice (hash_ : bytes) (slice_start slice_len : Z)
        (rest out : bytes) :
  exists h0,
    bao_hash [] = Ok h0
    /\ bao_decode_slice hash_ slice_start slice_len
         (mkStreams ([x00; x00; x00; x00; x00; x00; x00; x00] ++ rest) None out)
       = (verify_chunk hash_ [] 0 IS_ROOT, mkStreams rest None out)
    /\ verify_chunk hash_ [] 0 IS_ROOT
       = (if bytes_eqb hash_ h0 then Ok tt else Raise AssertionError)
    /\ snd (decode_slice_range 0 slice_start slice_len)
       = (slice_len =? 0) || (slice_start >=? 0).
Proof.
  exists empty_hash. split; [vm_compute; reflexivity|]. split; [|split].
  - rewrite bao_decode_slice_eq by reflexivity.
    change (decode_len [x00; x00; x00; x00; x00; x00; x00; x00]) with 0.
    change (tree_fuel 0) with 1%nat. cbn [decode_slice_recurse].
    change (0 >? 0) with false. rewrite !andb_false_r.
    change (0 <=? CHUNK_SIZE) with true. cbv beta iota.
    erewrite bind_Ok; [|apply (@read_exact_combined Input [] rest out 0); reflexivity].
    change (0 / CHUNK_SIZE) with 0.
    unfold bind, lift.
    destruct (verify_chunk hash_ [] 0 IS_ROOT) as [[]|e|]; try reflexivity.
    replace (slice [] _ _) with (@nil byte)
      by (unfold slice; now rewrite skipn_nil, firstn_nil).
    destruct (negb _); unfold write, ret; cbn [input_stream outboard_stream output_stream];
      rewrite ?app_nil_r; reflexivity.
  - unfold verify_chunk. rewrite chunk_chaining_value_empty. reflexivity.
  - rewrite decode_slice_range_eq. reflexivity.
Qed.

(* ================================================================== *)
(** * Evaluating the hashers on machine integers

    [compress] works on 32-bit words held in [Z].  To evaluate it on many
    inputs the same computation is run on 63-bit machine integers;
    [compress63_sim] shows that the two agree word for word, for all
    inputs. *)

Definition MASK63 : int := 4294967295%uint63.

Definition wrapping_add63 (a b : int) : int := Uint63.land (Uint63.add a b) MASK63.

Definition rotate_right63 (x n : int) : int :=
  Uint63.land (Uint63.lor (Uint63.lsr x n) (Uint63.lsl x (Uint63.sub 32 n))) MASK63.

Definition get63 (state : list int) (i : nat) : int := nth i state 0%uint63.

Definition g63 (state : list int) (a b c d : nat) (x y : int) : list int :=
  let state := set state a (wrapping_add63 (get63 state a) (wrapping_add63 (get63 state b) x)) in
  let state := set state d (rotate_right63 (Uint63.lxor (get63 state d) (get63 state a)) 16) in
  let state := set state c (wrapping_add63 (get63 state c) (get63 state d)) in
  let state := set state b (rotate_right63 (Uint63.lxor (get63 state b) (get63 state c)) 12) in
  let state := set state a (wrapping_add63 (get63 state a) (wrapping_add63 (get63 state b) y)) in
  let state := set state d (rotate_right63 (Uint63.lxor (get63 state d) (get63 state a)) 8) in
  let state := set state c (wrapping_add63 (get63 state c) (get63 state d)) in
  let state := set state b (rotate_right63 (Uint63.lxor (get63 state b) (get63 state c)) 7) in
  state.

Definition round63 (state : list int) (msg_words : list int) (schedule : list nat)
  : list int :=
  let m i := nth (nth i schedule O) msg_words 0%uint63 in
  let state := g63 state 0 4 8 12 (m 0%nat) (m 1%nat) in
  let state := g63 state 1 5 9 13 (m 2%nat) (m 3%nat) in
  let state := g63 state 2 6 10 14 (m 4%nat) (m 5%nat) in
  let state := g63 state 3 7 11 15 (m 6%nat) (m 7%nat) in
  let state := g63 state 0 5 10 15 (m 8%nat) (m 9%nat) in
  let state := g63 state 1 6 11 12 (m 10%nat) (m 11%nat) in
  let state := g63 state 2 7 8 13 (m 12%nat) (m 13%nat) in
  let state := g63 state 3 4 9 14 (m 14%nat) (m 15%nat) in
  state.

(** [g63] on the four words it touches, and [round63] on a state of sixteen
    words without list updates. *)
Definition g4 (a b c d x y : int) : int * int * int * int :=
  let a := wrapping_add63 a (wrapping_add63 b x) in
  let d := rotate_right63 (Uint63.lxor d a) 16 in
  let c := wrapping_add63 c d in
  let b := rotate_right63 (Uint63.lxor b c) 12 in
  let a := wrapping_add63 a (wrapping_add63 b y) in
  let d := rotate_right63 (Uint63.lxor d a) 8 in
  let c := wrapping_add63 c d in
  let b := rotate_right63 (Uint63.lxor b c) 7 in
  (a, b, c, d).

Definition round16 (s0 s1 s2 s3 s4 s5 s6 s7 s8 s9 s10 s11 s12 s13 s14 s15 : int)
           (m : nat -> int) : list int :=
  let '(s0, s4, s8, s12) := g4 s0 s4 s8 s12 (m 0%nat) (m 1%nat) in
  let '(s1, s5, s9, s13) := g4 s1 s5 s9 s13 (m 2%nat) (m 3%nat) in
  let '(s2, s6, s10, s14) := g4 s2 s6 s10 s14 (m 4%nat) (m 5%nat) in
  let '(s3, s7, s11, s15) := g4 s3 s7 s11 s15 (m 6%nat) (m 7%nat) in
  let '(s0, s5, s10, s15) := g4 s0 s5 s10 s15 (m 8%nat) (m 9%nat) in
  let '(s1, s6, s11, s12) := g4 s1 s6 s11 s12 (m 10%nat) (m 11%nat) in
  let '(s2, s7, s8, s13) := g4 s2 s7 s8 s13 (m 12%nat) (m 13%nat) in
  let '(s3, s4, s9, s14) := g4 s3 s4 s9 s14 (m 14%nat) (m 15%nat) in
  [s0; s1; s2; s3; s4; s5; s6; s7; s8; s9; s10; s11; s12; s13; s14; s15].

Definition round_fast (state : list int) (msg_words : list int) (schedule : list nat)
  : list int :=
  match state with
  | [s0; s1; s2; s3; s4; s5; s6; s7; s8; s9; s10; s11; s12; s13; s14; s15] =>
      round16 s0 s1 s2 s3 s4 s5 s6 s7 s8 s9 s10 s11 s12 s13 s14 s15
              (fun i => nth (nth i schedule O) msg_words 0%uint63)
  | _ => round63 state msg_words schedule
  end.

Definition compress63 (cv : list int) (block : bytes) (block_len offset flags : Z)
  : res (list int) :=
  let block_words := map Uint63.of_Z (words_from_bytes block) in
  if (length cv <? 8)%nat || (length block_words <? 16)%nat then Raise IndexError
  else
    let state :=
      [ get63 cv 0; get63 cv 1; get63 cv 2; get63 cv 3;
        get63 cv 4; get63 cv 5; get63 cv 6; get63 cv 7;
        Uint63.of_Z (get IV 0); Uint63.of_Z (get IV 1);
        Uint63.of_Z (get IV 2); Uint63.of_Z (get IV 3);
        Uint63.of_Z (Z.land offset WORD_MAX);
        Uint63.of_Z (Z.land (Z.shiftr offset WORD_BITS) WORD_MAX);
        Uint63.of_Z block_len;
        Uint63.of_Z flags ] in
    let state :=
      fold_left (fun st schedule => round_fast st block_words schedule)
                (firstn 7 MSG_SCHEDULE) state in
    Ok (map (fun i => Uint63.lxor (get63 state i) (get63 state (i + 8))) (seq 0 8)).

(** [len l > n], without counting the whole of [l]. *)
Definition longer (l : bytes) (n : nat) : bool :=
  match skipn n l with
  | [] => false
  | _ :: _ => true
  end.

Fixpoint chunk_loop63 (fuel : nat) (cv : list int) (rest : bytes) (chunk_index flags : Z)
  : res (list int * Z * bytes) :=
  if longer rest 64 then
    match fuel with
    | O => OutOfFuel
    | S fuel' =>
        let block := slice_to rest BLOCK_SIZE in
        (cv' <- compress63 cv block BLOCK_SIZE chunk_index flags ;;
         chunk_loop63 fuel' cv' (slice_from rest BLOCK_SIZE) chunk_index 0)%res
    end
  else Ok (cv, flags, rest).

Definition chunk_chaining_value63 (chunk_bytes : bytes) (chunk_index : Z)
           (fin : finalization) : res bytes :=
  ('(cv, flags, block) <-
     chunk_loop63 (length chunk_bytes) (map Uint63.of_Z IV) chunk_bytes chunk_index
                  CHUNK_START ;;
   let flags := Z.lor flags CHUNK_END in
   let flags := if is_root fin then Z.lor flags ROOT else flags in
   let block_len := len block in
   let block := block ++ zeros (BLOCK_SIZE - block_len) in
   cv <- compress63 cv block block_len chunk_index flags ;;
   bytes_from_words (map Uint63.to_Z cv))%res.

Definition parent_chaining_value63 (parent_bytes : bytes) (fin : finalization)
  : res bytes :=
  (let flags := PARENT in
   let flags := if is_root fin then Z.lor flags ROOT else flags in
   cv <- compress63 (map Uint63.of_Z IV) parent_bytes BLOCK_SIZE 0 flags ;;
   bytes_from_words (map Uint63.to_Z cv))%res.

Lemma land_MASK63 (x : int) : Uint63.to_Z (Uint63.land x MASK63) = Uint63.to_Z x mod 2 ^ 32.
Proof.
  rewrite Uint63.land_spec'. change (Uint63.to_Z MASK63) with (Z.ones 32).
  apply Z.land_ones. lia.
Qed.

Lemma mod_wB_mod_32 (a : Z) : (a mod Uint63.wB) mod 2 ^ 32 = a mod 2 ^ 32.
Proof.
  apply Z.mod_mod_divide. exists (2 ^ 31). reflexivity.
Qed.

Lemma wrapping_add63_sim (a b : int) :
  Uint63.to_Z (wrapping_add63 a b) = wrapping_add (Uint63.to_Z a) (Uint63.to_Z b).
Proof.
  unfold wrapping_add63, wrapping_add.
  rewrite land_MASK63, Uint63.add_spec, mod_wB_mod_32, land_WORD_MAX. reflexivity.
Qed.

Lemma rotate_right63_sim (x n : int) :
  0 <= Uint63.to_Z n <= 32 ->
  Uint63.to_Z (rotate_right63 x n) = rotate_right (Uint63.to_Z x) (Uint63.to_Z n).
Proof.
  intros Hn. unfold rotate_right63, rotate_right, WORD_BITS.
  assert (Hs : Uint63.to_Z (Uint63.sub 32 n) = 32 - Uint63.to_Z n).
  { rewrite Uint63.sub_spec. change (Uint63.to_Z 32) with 32.
    apply Z.mod_small. change Uint63.wB with (2 ^ 63). lia. }
  rewrite Uint63.land_spec', Uint63.lor_spec'.
  change (Uint63.to_Z MASK63) with WORD_MAX.
  rewrite !Z.land_lor_distr_l.
  rewrite Uint63.lsr_spec, Uint63.lsl_spec, Hs.
  rewrite Z.shiftr_div_pow2, Z.shiftl_mul_pow2 by lia.
  f_equal. rewrite !land_WORD_MAX. apply mod_wB_mod_32.
Qed.

Lemma get63_sim (st : list int) (i : nat) :
  Uint63.to_Z (get63 st i) = get (map Uint63.to_Z st) i.
Proof.
  unfold get63, get. change 0 with (Uint63.to_Z 0%uint63). now rewrite map_nth.
Qed.

Lemma map_set {A B} (f : A -> B) (st : list A) (i : nat) (v : A) :
  map f (set st i v) = set (map f st) i (f v).
Proof.
  revert i. induction st as [|h t IH]; intros [|i]; cbn [set map]; auto.
  now rewrite IH.
Qed.

(** One assignment [state[i] = ...] of [g], in both representations. *)
Ltac sim_let :=
  lazymatch goal with
  | |- map ?f (let s := ?v63 in @?k63 s) = (let s' := ?v in @?k s') =>
      let x63 := fresh "st63" in
      let x := fresh "st" in
      let H := fresh "Hst" in
      assert (H : map f v63 = v);
      [ | revert H; generalize v63, v; intros x63 x H;
          change (map f (k63 x63) = k x); cbv beta ]
  end.

Ltac sim_ops :=
  subst;
  rewrite map_set;
  rewrite ?wrapping_add63_sim, ?rotate_right63_sim, ?Uint63.lxor_spec', ?get63_sim,
    ?wrapping_add63_sim, ?get63_sim
    by (cbv; intuition congruence);
  reflexivity.

Lemma g63_sim (st : list int) (a b c d : nat) (x y : int) :
  map Uint63.to_Z (g63 st a b c d x y)
  = g (map Uint63.to_Z st) a b c d (Uint63.to_Z x) (Uint63.to_Z y).
Proof.
  cbv beta delta [g63 g].
  do 8 (sim_let; [sim_ops|]).
  assumption.
Qed.

Lemma nth63_sim (m : list int) (j : nat) :
  Uint63.to_Z (nth j m 0%uint63) = nth j (map Uint63.to_Z m) 0.
Proof. change 0 with (Uint63.to_Z 0%uint63). now rewrite map_nth. Qed.

Lemma round63_sim (st m : list int) (sch : list nat) :
  map Uint63.to_Z (round63 st m sch)
  = round (map Uint63.to_Z st) (map Uint63.to_Z m) sch.
Proof.
  cbv beta delta [round63 round].
  lazymatch goal with
  | |- map ?f (let m := ?v63 in @?k63 m) = (let m' := ?v in @?k m') =>
      change (map f (k63 v63) = k v); cbv beta
  end.
  do 8 (sim_let; [subst; rewrite g63_sim, !nth63_sim; reflexivity|]).
  assumption.
Qed.

Lemma round_fast_eq (st m : list int) (sch : list nat) :
  round_fast st m sch = round63 st m sch.
Proof.
  do 17 (destruct st as [|? st]; [reflexivity|]). reflexivity.
Qed.

Definition rmap {A B} (f : A -> B) (r : res A) : res B :=
  match r with
  | Ok a => Ok (f a)
  | Raise e => Raise e
  | OutOfFuel => OutOfFuel
  end.

Lemma to_of_Z_small (z : Z) : 0 <= z < Uint63.wB -> Uint63.to_Z (Uint63.of_Z z) = z.
Proof. intros H. rewrite Uint63.of_Z_spec. now apply Z.mod_small. Qed.

Lemma word_lt_wB (z : Z) : word z -> 0 <= z < Uint63.wB.
Proof. unfold word. change Uint63.wB with (2 ^ 63). lia. Qed.

Lemma words_from_bytes_word (b : bytes) : Forall word (words_from_bytes b).
Proof.
  remember (length b) as n eqn:Hn. revert b Hn.
  induction n as [n IH] using lt_wf_ind. intros b Hn.
  destruct b as [|b0 [|b1 [|b2 [|b3 rest]]]]; cbn [words_from_bytes]; try constructor.
  - unfold word. cbn [int_from_bytes].
    pose proof (Z_of_byte_range b0). pose proof (Z_of_byte_range b1).
    pose proof (Z_of_byte_range b2). pose proof (Z_of_byte_range b3). lia.
  - apply (IH (length rest)); [subst n; cbn [length]; lia | reflexivity].
Qed.

Lemma words63_sim (b : bytes) :
  map Uint63.to_Z (map Uint63.of_Z (words_from_bytes b)) = words_from_bytes b.
Proof.
  rewrite map_map. rewrite <- (map_id (words_from_bytes b)) at 2.
  apply map_ext_in. intros w Hw. apply to_of_Z_small, word_lt_wB.
  pose proof (words_from_bytes_word b) as H. rewrite Forall_forall in H. auto.
Qed.

Lemma fold_left_sim {A B C} (h : A -> B) (f : A -> C -> A) (f' : B -> C -> B)
      (l : list C) (a : A) :
  (forall a c, h (f a c) = f' (h a) c) -> h (fold_left f l a) = fold_left f' l (h a).
Proof.
  intros H. revert a. induction l as [|c l IH]; intros a; [reflexivity|].
  cbn [fold_left]. now rewrite IH, H.
Qed.

Lemma rounds63_sim (m : list int) (schs : list (list nat)) (st : list int) :
  map Uint63.to_Z (fold_left (fun st sch => round_fast st m sch) schs st)
  = fold_left (fun st sch => round st (map Uint63.to_Z m) sch) schs (map Uint63.to_Z st).
Proof.
  apply (fold_left_sim (map Uint63.to_Z) (fun st sch => round_fast st m sch)
                       (fun st sch => round st (map Uint63.to_Z m) sch)).
  intros a c. now rewrite round_fast_eq, round63_sim.
Qed.

Lemma compress63_sim cv block block_len offset flags :
  0 <= block_len < Uint63.wB -> 0 <= flags < Uint63.wB ->
  compress (map Uint63.to_Z cv) block block_len offset flags
  = rmap (map Uint63.to_Z) (compress63 cv block block_len offset flags).
Proof.
  intros Hbl Hfl. unfold compress, compress63.
  rewrite !length_map.
  destruct ((length cv <? 8)%nat || (length (words_from_bytes block) <? 16)%nat)%bool;
    [reflexivity|].
  cbn [rmap]. f_equal.
  set (m63 := map Uint63.of_Z (words_from_bytes block)).
  rewrite <- (words63_sim block). fold m63.
  match goal with
  | |- context [fold_left _ _ ?s] =>
      match s with
      | context [Z.land] =>
          replace s with
          (map Uint63.to_Z
               [ get63 cv 0; get63 cv 1; get63 cv 2; get63 cv 3;
                 get63 cv 4; get63 cv 5; get63 cv 6; get63 cv 7;
                 Uint63.of_Z (get IV 0); Uint63.of_Z (get IV 1);
                 Uint63.of_Z (get IV 2); Uint63.of_Z (get IV 3);
                 Uint63.of_Z (Z.land offset WORD_MAX);
                 Uint63.of_Z (Z.land (Z.shiftr offset WORD_BITS) WORD_MAX);
                 Uint63.of_Z block_len;
                 Uint63.of_Z flags ])
      end
  end.
  - rewrite <- rounds63_sim. rewrite map_map. apply map_ext. intros i.
    now rewrite Uint63.lxor_spec', !get63_sim.
  - cbn [map]. rewrite !get63_sim.
    rewrite !(@to_of_Z_small (Z.land _ _)) by (apply word_lt_wB, word_land).
    rewrite (@to_of_Z_small block_len), (@to_of_Z_small flags) by assumption.
    reflexivity.
Qed.

Lemma longer_len (l : bytes) (n : nat) : longer l n = (len l >? Z.of_nat n).
Proof.
  unfold longer, len. destruct (skipn n l) as [|b r] eqn:E.
  - assert (length (skipn n l) = 0%nat) by now rewrite E.
    rewrite length_skipn in *. symmetry. rewrite Z.gtb_ltb. apply Z.ltb_ge. lia.
  - assert (length (skipn n l) = S (length r)) by now rewrite E.
    rewrite length_skipn in *. symmetry. rewrite Z.gtb_ltb. apply Z.ltb_lt. lia.
Qed.

Lemma chunk_loop63_sim (fuel : nat) cv rest idx flags :
  0 <= flags < Uint63.wB ->
  chunk_loop fuel (map Uint63.to_Z cv) rest idx flags
  = rmap (fun '(c, f, b) => (map Uint63.to_Z c, f, b))
         (chunk_loop63 fuel cv rest idx flags).
Proof.
  revert cv rest flags. induction fuel as [|fuel IH]; intros cv rest flags Hfl;
    cbn [chunk_loop chunk_loop63]; rewrite (longer_len rest 64);
    change (Z.of_nat 64) with BLOCK_SIZE;
    destruct (len rest >? BLOCK_SIZE); try reflexivity.
  rewrite compress63_sim by (assumption || (unfold BLOCK_SIZE; change Uint63.wB with (2 ^ 63); lia)).
  destruct (compress63 cv (slice_to rest BLOCK_SIZE) BLOCK_SIZE idx flags) as [cv'| |];
    cbn [rmap rbind]; try reflexivity.
  apply IH. change Uint63.wB with (2 ^ 63). lia.
Qed.

Lemma chunk_loop63_block (fuel : nat) cv rest idx flags cv' flags' block :
  chunk_loop63 fuel cv rest idx flags = Ok (cv', flags', block) ->
  len block <= 64 /\ (flags' = flags \/ flags' = 0).
Proof.
  revert cv rest flags. induction fuel as [|fuel IH]; intros cv rest flags;
    cbn [chunk_loop63]; rewrite (longer_len rest 64); change (Z.of_nat 64) with 64;
    unfold BLOCK_SIZE; destruct (len rest >? 64) eqn:E;
    intros H; try discriminate;
    try (assert (block = rest /\ flags' = flags) as [-> ->]
          by (split; congruence); split; [zbool; lia | now left]).
  apply rbind_Ok in H. destruct H as [cv1 [_ H]]. apply IH in H.
  destruct H as [H1 [->| ->]]; auto.
Qed.

Local Transparent chunk_chaining_value parent_chaining_value.

Lemma chunk_chaining_value63_eq (chunk_bytes : bytes) (idx : Z) (fin : finalization) :
  chunk_chaining_value63 chunk_bytes idx fin = chunk_chaining_value chunk_bytes idx fin.
Proof.
  unfold chunk_chaining_value, chunk_chaining_value63.
  change IV with (map Uint63.to_Z (map Uint63.of_Z IV)) at 2.
  rewrite chunk_loop63_sim by (cbv; intuition congruence).
  destruct (chunk_loop63 _ _ _ _ _) as [[[cv fl] blk]| |] eqn:E; cbn [rmap rbind];
    try reflexivity.
  apply chunk_loop63_block in E. destruct E as [Hb Hf].
  pose proof (len_nonneg blk).
  rewrite compress63_sim.
  - destruct (compress63 _ _ _ _ _); reflexivity.
  - change Uint63.wB with (2 ^ 63). lia.
  - destruct Hf as [-> | ->]; destruct fin; cbv; intuition congruence.
Qed.

Lemma parent_chaining_value63_eq (parent_bytes : bytes) (fin : finalization) :
  parent_chaining_value63 parent_bytes fin = parent_chaining_value parent_bytes fin.
Proof.
  unfold parent_chaining_value, parent_chaining_value63.
  change IV with (map Uint63.to_Z (map Uint63.of_Z IV)) at 2.
  rewrite compress63_sim.
  - destruct (compress63 _ _ _ _ _); reflexivity.
  - cbv; intuition congruence.
  - destruct fin; cbv; intuition congruence.
Qed.

Global Opaque chunk_chaining_value parent_chaining_value.

(** The full decoder with the hashers evaluated on machine integers. *)
Definition verify_chunk63 (expected_cv chunk_bytes : bytes) (chunk_index : Z)
           (fin : finalization) : res unit :=
  (found_cv <- chunk_chaining_value63 chunk_bytes chunk_index fin ;;
   if bytes_eqb expected_cv found_cv then Ok tt else Raise AssertionError)%res.

Definition verify_parent63 (expected_cv parent_bytes : bytes) (fin : finalization)
  : res unit :=
  (found_cv <- parent_chaining_value63 parent_bytes fin ;;
   if bytes_eqb expected_cv found_cv then Ok tt else Raise AssertionError)%res.

Fixpoint decode_recurse63 (fuel : nat) (subtree_cv : bytes) (content_len : Z)
         (fin : finalization) (chunk_index : Z) : M Z :=
  match fuel with
  | O => lift OutOfFuel
  | S fuel' =>
      if content_len <=? CHUNK_SIZE then
        (chunk <- read_exact Input content_len ;;
         lift (verify_chunk63 subtree_cv chunk chunk_index fin) ;;
         write chunk ;;
         ret (chunk_index + 1))%io
      else
        (parent <- read_exact Tree PARENT_SIZE ;;
         lift (verify_parent63 subtree_cv parent fin) ;;
         let left_cv := slice_to parent HASH_SIZE in
         let right_cv := slice_from parent HASH_SIZE in
         let llen := left_len content_len in
         chunk_index <- decode_recurse63 fuel' left_cv llen NOT_ROOT chunk_index ;;
         decode_recurse63 fuel' right_cv (content_len - llen) NOT_ROOT chunk_index)%io
  end.

Definition bao_decode63 (hash_ : bytes) : M unit :=
  (header <- read_exact Tree HEADER_SIZE ;;
   let content_len := decode_len header in
   decode_recurse63 (tree_fuel content_len) hash_ content_len IS_ROOT 0 ;;
   ret tt)%io.

Lemma verify_chunk63_eq cv chunk idx fin :
  verify_chunk63 cv chunk idx fin = verify_chunk cv chunk idx fin.
Proof. unfold verify_chunk63, verify_chunk. now rewrite chunk_chaining_value63_eq. Qed.

Lemma verify_parent63_eq cv parent fin :
  verify_parent63 cv parent fin = verify_parent cv parent fin.
Proof. unfold verify_parent63, verify_parent. now rewrite parent_chaining_value63_eq. Qed.

Lemma decode_recurse63_eq (fuel : nat) :
  forall cv clen fin idx s,
    decode_recurse63 fuel cv clen fin idx s = decode_recurse fuel cv clen fin idx s.
Proof.
  induction fuel as [|fuel IH]; intros cv clen fin idx s; [reflexivity|].
  cbn [decode_recurse63 decode_recurse]. destruct (clen <=? CHUNK_SIZE).
  - unfold bind. destruct (read_exact Input clen s) as [[chunk| |] s1]; try reflexivity.
    unfold lift. now rewrite verify_chunk63_eq.
  - unfold bind. destruct (read_exact Tree PARENT_SIZE s) as [[parent| |] s1];
      try reflexivity.
    unfold lift. rewrite verify_parent63_eq.
    destruct (verify_parent cv parent fin); try reflexivity.
    rewrite IH. destruct (decode_recurse _ _ _ _ _ _) as [[i1| |] s2]; try reflexivity.
    apply IH.
Qed.

Lemma bao_decode63_eq (h : bytes) (s : streams) : bao_decode63 h s = bao_decode h s.
Proof.
  unfold bao_decode63, bao_decode, bind.
  destruct (read_exact Tree HEADER_SIZE s) as [[header| |] s1]; try reflexivity.
  now rewrite decode_recurse63_eq.
Qed.

(* ================================================================== *)
(** * Hashing zero blocks

    A chunk of zero bytes with one bit flipped is hashed block by block: the
    blocks before the flipped one are all zero, and so are the blocks after
    it.  On a zero block every message word is zero, and [g] needs neither
    the schedule nor the additions of the message words.  [compress0] is
    [compress63] on such a block; [compress63_zeros] shows that they
    agree. *)

Definition zero_words : list int := repeat 0%uint63 16.

Definition IV63 : list int :=
  [ 0x6A09E667; 0xBB67AE85; 0x3C6EF372; 0xA54FF53A;
    0x510E527F; 0x9B05688C; 0x1F83D9AB; 0x5BE0CD19 ]%uint63.

(** [(x >> r) | (x << l)], masked to a word. *)
Definition rot63 (x r l : int) : int :=
  Uint63.land (Uint63.lor (Uint63.lsr x r) (Uint63.lsl x l)) MASK63.

(** [g4] with [x = y = 0], in continuation-passing style. *)
Definition g0 {R} (a b c d : int) (k : int -> int -> int -> int -> R) : R :=
  let a := Uint63.land (Uint63.add a b) MASK63 in
  let d := rot63 (Uint63.lxor d a) 16 16 in
  let c := Uint63.land (Uint63.add c d) MASK63 in
  let b := rot63 (Uint63.lxor b c) 12 20 in
  let a := Uint63.land (Uint63.add a b) MASK63 in
  let d := rot63 (Uint63.lxor d a) 8 24 in
  let c := Uint63.land (Uint63.add c d) MASK63 in
  let b := rot63 (Uint63.lxor b c) 7 25 in
  k a b c d.

Definition round0 (state : list int) (schedule : list nat) : list int :=
  match state with
  | [s0; s1; s2; s3; s4; s5; s6; s7; s8; s9; s10; s11; s12; s13; s14; s15] =>
      g0 s0 s4 s8 s12 (fun s0 s4 s8 s12 =>
      g0 s1 s5 s9 s13 (fun s1 s5 s9 s13 =>
      g0 s2 s6 s10 s14 (fun s2 s6 s10 s14 =>
      g0 s3 s7 s11 s15 (fun s3 s7 s11 s15 =>
      g0 s0 s5 s10 s15 (fun s0 s5 s10 s15 =>
      g0 s1 s6 s11 s12 (fun s1 s6 s11 s12 =>
      g0 s2 s7 s8 s13 (fun s2 s7 s8 s13 =>
      g0 s3 s4 s9 s14 (fun s3 s4 s9 s14 =>
      [s0; s1; s2; s3; s4; s5; s6; s7; s8; s9; s10; s11; s12; s13; s14; s15]))))))))
  | _ => round63 state zero_words schedule
  end.

(** [compress63] on a block of 64 zero bytes; [t0], [t1] are the two words
    of the offset. *)
Definition compress0 (cv : list int) (t0 t1 block_len flags : int) : res (list int) :=
  if (length cv <? 8)%nat then Raise IndexError
  else
    let state :=
      [ get63 cv 0; get63 cv 1; get63 cv 2; get63 cv 3;
        get63 cv 4; get63 cv 5; get63 cv 6; get63 cv 7;
        get63 IV63 0; get63 IV63 1; get63 IV63 2; get63 IV63 3;
        t0; t1; block_len; flags ] in
    let state :=
      fold_left (fun st schedule => round0 st schedule) (firstn 7 MSG_SCHEDULE) state in
    Ok (map (fun i => Uint63.lxor (get63 state i) (get63 state (i + 8))) (seq 0 8)).

(** The two offset words of [compress], as machine integers. *)
Definition offset_lo (offset : Z) : int := Uint63.of_Z (Z.land offset WORD_MAX).
Definition offset_hi (offset : Z) : int :=
  Uint63.of_Z (Z.land (Z.shiftr offset WORD_BITS) WORD_MAX).

(** [chunk_chaining_value63] from the middle of a chunk: the loop over the
    remaining blocks and the final compression, without the conversion to
    bytes. *)
Definition chunk_finish63 (fuel : nat) (cv : list int) (rest : bytes)
           (chunk_index flags : Z) (fin : finalization) : res (list int) :=
  ('(cv, flags, block) <- chunk_loop63 fuel cv rest chunk_index flags ;;
   let flags := Z.lor flags CHUNK_END in
   let flags := if is_root fin then Z.lor flags ROOT else flags in
   let block_len := len block in
   let block := block ++ zeros (BLOCK_SIZE - block_len) in
   compress63 cv block block_len chunk_index flags)%res.

(** [n] blocks of 64 zero bytes. *)
Definition zblocks (n : nat) : bytes := repeat x00 (n * 64).

(** [chunk_finish63] on [n] zero blocks that are not the first of their
    chunk. *)
Fixpoint zero_tail (n : nat) (cv : list int) (t0 t1 : int) : res (list int) :=
  match n with
  | O => Ok cv
  | S n' =>
      match n' with
      | O => compress0 cv t0 t1 64 2
      | S _ => (cv' <- compress0 cv t0 t1 64 0 ;; zero_tail n' cv' t0 t1)%res
      end
  end.

Fixpoint ints_eqb (a b : list int) : bool :=
  match a, b with
  | [], [] => true
  | x :: a', y :: b' => Uint63.eqb x y && ints_eqb a' b'
  | _, _ => false
  end.

(* ================================================================== *)
(** * Tampering with an encoding *)

(** [buf[offset] ^= 1 << bit] *)
Definition flip_bit (buf : bytes) (offset : nat) (bit : Z) : bytes :=
  set buf offset (byte_of_Z (Z.lxor (Z_of_byte (nth offset buf x00)) (Z.shiftl 1 bit))).

(** The combined encoding of [b"\x00" * 2048] and its root hash. *)
Definition tamper_encoding : bytes :=
  match bao_encode (zeros 2048) false with Ok (e, _) => e | _ => [] end.

Definition tamper_hash : bytes :=
  match bao_encode (zeros 2048) false with Ok (_, h) => h | _ => [] end.

Definition bits : list Z := [0; 1; 2; 3; 4; 5; 6; 7].

(** The chaining value of a chunk that continues with a zero block in which
    byte [r] has bit [bit] flipped, followed by [n'] zero blocks, differs
    from [honest]. *)
Definition block_rejected (cv : list int) (idx flags : Z) (n' : nat)
           (honest : list int) (r : nat) (bit : Z) : bool :=
  let blk := flip_bit (zeros 64) r bit in
  match (match n' with
         | O => compress63 cv blk BLOCK_SIZE idx (Z.lor flags CHUNK_END)
         | S _ =>
             (cv' <- compress63 cv blk BLOCK_SIZE idx flags ;;
              zero_tail n' cv' (offset_lo idx) (offset_hi idx))%res
         end) with
  | Ok found => negb (ints_eqb found honest)
  | _ => false
  end.

(** The same for a flip in any of the [n] zero blocks that end a chunk;
    [cv] and [flags] are the state of [chunk_loop63] before these blocks. *)
Fixpoint blocks_rejected (n : nat) (cv : list int) (idx flags : Z)
         (honest : list int) : bool :=
  match n with
  | O => true
  | S n' =>
      forallb (fun r => forallb (block_rejected cv idx flags n' honest r) bits)
              (seq 0 64)
      && match n' with
         | O => true
         | S _ =>
             match compress0 cv (offset_lo idx) (offset_hi idx) 64
                             (Uint63.of_Z flags) with
             | Ok cv' => blocks_rejected n' cv' idx 0 honest
             | _ => false
             end
         end
  end.

(** The chaining value [honest] of a chunk of 1024 zero bytes at index
    [idx], when every single-bit flip changes it. *)
Definition chunk_rejected_with (honest : res (list int)) (idx : Z)
  : option (list int) :=
  match honest with
  | Ok honest =>
      if blocks_rejected 16 IV63 idx CHUNK_START honest then Some honest else None
  | _ => None
  end.

Definition chunk_rejected (idx : Z) : option (list int) :=
  chunk_rejected_with
    (chunk_finish63 1024 IV63 (zeros 1024) idx CHUNK_START NOT_ROOT) idx.

(** Every single-bit flip in a root parent node changes its chaining
    value. *)
Definition parent_rejected (parent : bytes) : bool :=
  let flags := Z.lor PARENT ROOT in
  match compress63 IV63 parent BLOCK_SIZE 0 flags with
  | Ok honest =>
      forallb (fun r =>
                 forallb (fun bit =>
                            match compress63 IV63 (flip_bit parent r bit)
                                             BLOCK_SIZE 0 flags with
                            | Ok found => negb (ints_eqb found honest)
                            | _ => false
                            end) bits)
              (seq 0 64)
  | _ => false
  end.

(** The root parent node over two chunks with the chaining values [l] and
    [r]. *)
Definition parent_of (l r : list int) : res bytes :=
  (lb <- bytes_from_words (map Uint63.to_Z l) ;;
   rb <- bytes_from_words (map Uint63.to_Z r) ;;
   Ok (lb ++ rb))%res.

Definition tree_rejected (l r : option (list int)) : bool :=
  match l, r with
  | Some l, Some r =>
      match parent_of l r with
      | Ok parent => parent_rejected parent
      | _ => false
      end
  | _, _ => false
  end.

(** All of it for the tree over 2048 zero bytes: two chunks and the root
    parent node. *)
Definition tamper_rejected : bool :=
  tree_rejected (chunk_rejected 0) (chunk_rejected 1).

(* ------------------------------------------------------------------ *)

Lemma wrapping_add63_0 (a b : int) :
  wrapping_add63 a (wrapping_add63 b 0) = Uint63.land (Uint63.add a b) MASK63.
Proof.
  apply Uint63.to_Z_inj.
  rewrite !wrapping_add63_sim, land_MASK63, Uint63.add_spec, mod_wB_mod_32.
  unfold wrapping_add. rewrite !land_WORD_MAX.
  change (Uint63.to_Z 0) with 0. rewrite Z.add_0_r.
  now rewrite Zplus_mod_idemp_r.
Qed.

Lemma g0_eq {R} (a b c d : int) (k : int -> int -> int -> int -> R) :
  g0 a b c d k = let '(a', b', c', d') := g4 a b c d 0 0 in k a' b' c' d'.
Proof.
  unfold g0, g4. cbv zeta. rewrite !wrapping_add63_0. reflexivity.
Qed.

Lemma nth_zero_words (j : nat) : nth j zero_words 0%uint63 = 0%uint63.
Proof.
  unfold zero_words. do 16 (destruct j as [|j]; [reflexivity|]). now destruct j.
Qed.

Lemma round0_eq (st : list int) (sch : list nat) :
  round0 st sch = round_fast st zero_words sch.
Proof.
  do 16 (destruct st as [|? st];
         [cbv beta iota delta [round0 round_fast]; reflexivity|]).
  destruct st; [|cbv beta iota delta [round0 round_fast]; reflexivity].
  cbv beta iota delta [round0 round_fast round16].
  rewrite !nth_zero_words.
  do 8 (rewrite g0_eq; destruct (g4 _ _ _ _ _ _) as [[[? ?] ?] ?]; cbv beta iota).
  reflexivity.
Qed.

Lemma rounds0_eq (schs : list (list nat)) (st : list int) :
  fold_left (fun st sch => round_fast st zero_words sch) schs st
  = fold_left (fun st sch => round0 st sch) schs st.
Proof.
  revert st. induction schs as [|sch schs IH]; intros st; [reflexivity|].
  cbn [fold_left]. now rewrite round0_eq, IH.
Qed.

Lemma compress63_zeros cv block_len offset flags :
  compress63 cv (zeros 64) block_len offset flags
  = compress0 cv (offset_lo offset) (offset_hi offset)
              (Uint63.of_Z block_len) (Uint63.of_Z flags).
Proof.
  unfold compress63, compress0, offset_lo, offset_hi.
  change (map Uint63.of_Z (words_from_bytes (zeros 64))) with zero_words.
  change (length zero_words <? 16)%nat with false. rewrite orb_false_r.
  destruct (length cv <? 8)%nat; [reflexivity|].
  cbv zeta. rewrite rounds0_eq. reflexivity.
Qed.

Lemma longer_block (blk rest : bytes) :
  length blk = 64%nat ->
  longer (blk ++ rest) 64 = match rest with [] => false | _ :: _ => true end.
Proof.
  intros H. unfold longer. rewrite skipn_app, H, Nat.sub_diag.
  rewrite skipn_all2 by lia. reflexivity.
Qed.

Lemma chunk_finish63_step fuel cv (blk rest : bytes) idx flags fin :
  length blk = 64%nat -> rest <> [] ->
  chunk_finish63 (S fuel) cv (blk ++ rest) idx flags fin
  = (cv' <- compress63 cv blk BLOCK_SIZE idx flags ;;
     chunk_finish63 fuel cv' rest idx 0 fin)%res.
Proof.
  intros Hb Hr. unfold chunk_finish63. cbn [chunk_loop63].
  rewrite (@longer_block blk rest Hb). destruct rest as [|x rest]; [contradiction|].
  rewrite slice_to_app_n, slice_from_app_n by (unfold len; now rewrite Hb).
  destruct (compress63 cv blk BLOCK_SIZE idx flags); reflexivity.
Qed.

Lemma chunk_finish63_last fuel cv (blk : bytes) idx flags :
  length blk = 64%nat ->
  chunk_finish63 fuel cv blk idx flags NOT_ROOT
  = compress63 cv blk BLOCK_SIZE idx (Z.lor flags CHUNK_END).
Proof.
  intros Hb. unfold chunk_finish63.
  assert (Hl : longer blk 64 = false).
  { rewrite <- (app_nil_r blk). now rewrite longer_block. }
  destruct fuel; cbn [chunk_loop63]; rewrite Hl; cbn [rbind is_root];
    unfold len; rewrite Hb; change (zeros (BLOCK_SIZE - Z.of_nat 64)) with (@nil byte);
    now rewrite app_nil_r.
Qed.

Lemma zblocks_S (n : nat) : zblocks (S n) = zeros 64 ++ zblocks n.
Proof.
  unfold zblocks, zeros. change (Z.to_nat 64) with 64%nat.
  now rewrite <- repeat_app.
Qed.

Lemma length_zblocks (n : nat) : length (zblocks n) = (n * 64)%nat.
Proof. apply repeat_length. Qed.

Lemma length_zeros64 : length (zeros 64) = 64%nat.
Proof. reflexivity. Qed.

Lemma zero_tail_eq (n : nat) :
  forall cv idx fuel, (n <= fuel)%nat ->
    chunk_finish63 fuel cv (zblocks (S n)) idx 0 NOT_ROOT
    = zero_tail (S n) cv (offset_lo idx) (offset_hi idx).
Proof.
  induction n as [|n IH]; intros cv idx fuel Hf.
  - rewrite zblocks_S. change (zblocks 0) with (@nil byte). rewrite app_nil_r.
    rewrite chunk_finish63_last by reflexivity.
    now rewrite compress63_zeros.
  - destruct fuel as [|fuel]; [lia|].
    rewrite zblocks_S, chunk_finish63_step;
      [|reflexivity|rewrite zblocks_S; discriminate].
    rewrite compress63_zeros. cbn [zero_tail].
    change (Uint63.of_Z BLOCK_SIZE) with 64%uint63.
    change (Uint63.of_Z 0) with 0%uint63.
    destruct (compress0 cv (offset_lo idx) (offset_hi idx) 64 0) as [cv'| |];
      cbn [rbind]; try reflexivity.
    apply IH. lia.
Qed.

Lemma ints_eqb_eq (a b : list int) : ints_eqb a b = true -> a = b.
Proof.
  revert b. induction a as [|x a IH]; destruct b as [|y b]; cbn [ints_eqb];
    try discriminate; [reflexivity|].
  intros H. apply andb_true_iff in H. destruct H as [H1 H2].
  apply Uint63.eqb_spec in H1. subst. f_equal. now apply IH.
Qed.

Lemma length_set_any {A} (st : list A) (i : nat) (v : A) : length (set st i v) = length st.
Proof.
  revert i. induction st as [|h t IH]; intros [|i]; cbn [set length]; auto.
Qed.

Lemma length_flip_bit (buf : bytes) (offset : nat) (bit : Z) :
  length (flip_bit buf offset bit) = length buf.
Proof. apply length_set_any. Qed.

Lemma set_app_r {A} (a b : list A) (r : nat) (v : A) :
  set (a ++ b) (length a + r) v = a ++ set b r v.
Proof. induction a as [|h a IH]; cbn [app length set Nat.add]; [reflexivity | now rewrite IH]. Qed.

Lemma set_app_l {A} (a b : list A) (r : nat) (v : A) :
  (r < length a)%nat -> set (a ++ b) r v = set a r v ++ b.
Proof.
  revert r. induction a as [|h a IH]; intros r Hr; cbn [length] in Hr; [lia|].
  destruct r as [|r]; cbn [app set]; [reflexivity|]. rewrite IH by lia. reflexivity.
Qed.

Lemma flip_bit_app_r (a b : bytes) (r : nat) (bit : Z) :
  flip_bit (a ++ b) (length a + r) bit = a ++ flip_bit b r bit.
Proof. unfold flip_bit. now rewrite set_app_r, app_nth2_plus. Qed.

Lemma flip_bit_app_l (a b : bytes) (r : nat) (bit : Z) :
  (r < length a)%nat -> flip_bit (a ++ b) r bit = flip_bit a r bit ++ b.
Proof. intros H. unfold flip_bit. now rewrite set_app_l, app_nth1. Qed.

Lemma in_bits (bit : Z) : 0 <= bit < 8 -> In bit bits.
Proof.
  intros H.
  assert (bit = 0 \/ bit = 1 \/ bit = 2 \/ bit = 3 \/ bit = 4 \/ bit = 5
          \/ bit = 6 \/ bit = 7) as Hc by lia.
  unfold bits. cbn [In]. intuition auto.
Qed.

Lemma negb_ints_eqb (a b : list int) : negb (ints_eqb a b) = true -> a <> b.
Proof.
  intros H E. subst.
  assert (ints_eqb b b = true).
  { clear H. induction b as [|x b IH]; cbn [ints_eqb]; [reflexivity|].
    rewrite IH, andb_true_r. now apply Uint63.eqb_spec. }
  rewrite H0 in H. discriminate.
Qed.

Lemma flipped_nonempty (a c : bytes) (r : nat) (bit : Z) :
  a ++ flip_bit (zeros 64) r bit ++ c <> [].
Proof.
  intros H. apply (f_equal (@length byte)) in H.
  rewrite !length_app, length_flip_bit, length_zeros64 in H. cbn [length] in H. lia.
Qed.

Lemma blocks_rejected_sound (n : nat) :
  forall cv idx flags honest fuel,
    blocks_rejected n cv idx flags honest = true -> (n <= S fuel)%nat ->
    forall j r bit, (j < n)%nat -> (r < 64)%nat -> 0 <= bit < 8 ->
      exists found,
        chunk_finish63 fuel cv
          (zblocks j ++ flip_bit (zeros 64) r bit ++ zblocks (n - 1 - j))
          idx flags NOT_ROOT = Ok found
        /\ found <> honest.
Proof.
  induction n as [|n IH]; intros cv idx flags honest fuel H Hf j r bit Hj Hr Hbit;
    [lia|].
  cbn [blocks_rejected] in H. apply andb_true_iff in H. destruct H as [Hhere Hnext].
  destruct j as [|j].
  - rewrite forallb_forall in Hhere.
    specialize (Hhere r ltac:(apply in_seq; lia)).
    rewrite forallb_forall in Hhere. specialize (Hhere bit (@in_bits bit Hbit)).
    unfold block_rejected in Hhere.
    change (zblocks 0) with (@nil byte). cbn [app].
    replace (S n - 1 - 0)%nat with n by lia.
    destruct n as [|n].
    + change (zblocks 0) with (@nil byte). rewrite app_nil_r.
      rewrite chunk_finish63_last by (now rewrite length_flip_bit).
      destruct (compress63 _ _ _ _ _) as [found| |]; try discriminate.
      exists found. split; [reflexivity|]. now apply negb_ints_eqb.
    + destruct fuel as [|fuel]; [lia|].
      rewrite chunk_finish63_step;
        [|now rewrite length_flip_bit|rewrite zblocks_S; discriminate].
      destruct (compress63 _ _ _ _ _) as [cv'| |]; cbn [rbind] in *; try discriminate.
      rewrite zero_tail_eq by lia.
      destruct (zero_tail _ _ _ _) as [found| |]; try discriminate.
      exists found. split; [reflexivity|]. now apply negb_ints_eqb.
  - destruct n as [|n]; [lia|].
    destruct fuel as [|fuel]; [lia|].
    destruct (compress0 _ _ _ _ _) as [cv'| |] eqn:E; try discriminate.
    rewrite zblocks_S, <- app_assoc.
    rewrite chunk_finish63_step;
      [|reflexivity|apply flipped_nonempty].
    rewrite compress63_zeros. change (Uint63.of_Z BLOCK_SIZE) with 64%uint63.
    rewrite E. cbn [rbind].
    replace (S (S n) - 1 - S j)%nat with (S n - 1 - j)%nat by lia.
    apply IH; auto; lia.
Qed.

Lemma zeros_1024_split (j : nat) :
  (j < 16)%nat -> zeros 1024 = zblocks j ++ zeros 64 ++ zblocks (15 - j).
Proof.
  intros H. unfold zblocks, zeros. rewrite <- !repeat_app. f_equal.
  change (Z.to_nat 1024) with 1024%nat. change (Z.to_nat 64) with 64%nat. lia.
Qed.

Lemma flip_bit_zeros_split (off : nat) (bit : Z) :
  (off < 1024)%nat ->
  flip_bit (zeros 1024) off bit
  = zblocks (off / 64) ++ flip_bit (zeros 64) (off mod 64) bit
            ++ zblocks (16 - 1 - off / 64).
Proof.
  intros H.
  assert (Hj : (off / 64 < 16)%nat) by (apply Nat.Div0.div_lt_upper_bound; lia).
  assert (Hr : (off mod 64 < 64)%nat) by (apply Nat.mod_upper_bound; lia).
  pose proof (Nat.div_mod_eq off 64) as Hoff.
  remember (off / 64)%nat as j eqn:Ej. remember (off mod 64)%nat as r eqn:Er.
  rewrite (@zeros_1024_split j Hj).
  replace off with (length (zblocks j) + r)%nat by (rewrite length_zblocks; lia).
  rewrite flip_bit_app_r, flip_bit_app_l by (rewrite length_zeros64; exact Hr).
  reflexivity.
Qed.

Lemma IV63_eq : map Uint63.of_Z IV = IV63.
Proof. reflexivity. Qed.

Lemma chunk_rejected_with_sound (hr : res (list int)) (idx : Z) (honest : list int) :
  chunk_rejected_with hr idx = Some honest ->
  hr = Ok honest /\ blocks_rejected 16 IV63 idx CHUNK_START honest = true.
Proof.
  unfold chunk_rejected_with. destruct hr as [h| |]; [|discriminate|discriminate].
  remember (blocks_rejected 16 IV63 idx CHUNK_START h) as b eqn:Eb.
  destruct b; intros H; [|discriminate H].
  injection H as <-. split; [reflexivity | symmetry; exact Eb].
Qed.

Lemma decode_recurse_leaf (fuel : nat) (cv a rest out : bytes) (idx : Z)
      (fin : finalization) :
  len a <= CHUNK_SIZE ->
  decode_recurse (S fuel) cv (len a) fin idx (mkStreams (a ++ rest) None out)
  = match verify_chunk cv a idx fin with
    | Ok _ => (Ok (idx + 1), mkStreams rest None (out ++ a))
    | Raise e => (Raise e, mkStreams rest None out)
    | OutOfFuel => (OutOfFuel, mkStreams rest None out)
    end.
Proof.
  intros Hl. cbn [decode_recurse].
  destruct (len a <=? CHUNK_SIZE) eqn:E; [|lia].
  unfold bind. rewrite (@read_exact_combined Input a rest out (len a) eq_refl).
  unfold lift, write, ret.
  destruct (verify_chunk cv a idx fin) as [[]|e|]; reflexivity.
Qed.

Lemma decode_recurse_two_chunks (fuel : nat) (h p a b out : bytes) :
  len p = 64 -> len a = 1024 -> len b = 1024 ->
  fst (decode_recurse (S (S fuel)) h 2048 IS_ROOT 0 (mkStreams (p ++ a ++ b) None out))
  = (_ <- verify_parent h p IS_ROOT ;;
     _ <- verify_chunk (slice_to p HASH_SIZE) a 0 NOT_ROOT ;;
     _ <- verify_chunk (slice_from p HASH_SIZE) b 1 NOT_ROOT ;;
     Ok 2)%res.
Proof.
  intros Hp Ha Hb.
  change (decode_recurse (S (S fuel)) h 2048 IS_ROOT 0)
    with (parent <- read_exact Tree PARENT_SIZE ;;
          lift (verify_parent h parent IS_ROOT) ;;
          chunk_index <- decode_recurse (S fuel) (slice_to parent HASH_SIZE) 1024
                                        NOT_ROOT 0 ;;
          decode_recurse (S fuel) (slice_from parent HASH_SIZE) 1024 NOT_ROOT
                         chunk_index)%io.
  unfold bind at 1.
  rewrite (@read_exact_combined Tree p (a ++ b) out PARENT_SIZE) by (now rewrite Hp).
  unfold bind at 1. unfold lift.
  destruct (verify_parent h p IS_ROOT) as [[]|e|]; cbn [rbind fst]; try reflexivity.
  unfold bind. rewrite <- Ha at 1.
  rewrite decode_recurse_leaf by (rewrite Ha; unfold CHUNK_SIZE; lia).
  destruct (verify_chunk (slice_to p HASH_SIZE) a 0 NOT_ROOT) as [[]|e|];
    cbn [rbind fst]; try reflexivity.
  rewrite <- (app_nil_r b) at 1. rewrite <- Hb at 1.
  rewrite decode_recurse_leaf by (rewrite Hb; unfold CHUNK_SIZE; lia).
  change (0 + 1) with 1.
  destruct (verify_chunk (slice_from p HASH_SIZE) b 1 NOT_ROOT) as [[]|e|];
    reflexivity.
Qed.

Lemma bao_decode_two_chunks (h p a b : bytes) :
  len p = 64 -> len a = 1024 -> len b = 1024 ->
  fst (bao_decode h (combined (le_bytes 8 2048 ++ p ++ a ++ b)))
  = (_ <- verify_parent h p IS_ROOT ;;
     _ <- verify_chunk (slice_to p HASH_SIZE) a 0 NOT_ROOT ;;
     _ <- verify_chunk (slice_from p HASH_SIZE) b 1 NOT_ROOT ;;
     Ok tt)%res.
Proof.
  intros Hp Ha Hb. unfold bao_decode, combined.
  erewrite bind_Ok; [|apply read_exact_combined; reflexivity].
  change (decode_len (le_bytes 8 2048)) with 2048.
  change (tree_fuel 2048) with 12%nat.
  pose proof (@decode_recurse_two_chunks 10 h p a b [] Hp Ha Hb) as H.
  unfold bind, ret.
  destruct (decode_recurse 12 h 2048 IS_ROOT 0 (mkStreams (p ++ a ++ b) None []))
    as [[i|e|] s]; cbn [fst] in *;
    destruct (verify_parent h p IS_ROOT) as [[]|e1|]; cbn [rbind] in *;
    try discriminate H; try (rewrite H; reflexivity);
    destruct (verify_chunk (slice_to p HASH_SIZE) a 0 NOT_ROOT) as [[]|e2|];
    cbn [rbind] in *; try discriminate H; try (rewrite H; reflexivity);
    destruct (verify_chunk (slice_from p HASH_SIZE) b 1 NOT_ROOT) as [[]|e3|];
    cbn [rbind] in *; try discriminate H; try (rewrite H; reflexivity);
    try reflexivity; try congruence.
Qed.

Unset Implicit Arguments.

Lemma chunk_rejected_eq (idx : Z) :
  chunk_rejected idx
  = chunk_rejected_with
      (chunk_finish63 1024 IV63 (zeros 1024) idx CHUNK_START NOT_ROOT) idx.
Proof. reflexivity. Qed.

Lemma chunk_rejected_blocks (idx : Z) (honest : list int) :
  chunk_rejected idx = Some honest ->
  chunk_finish63 1024 IV63 (zeros 1024) idx CHUNK_START NOT_ROOT = Ok honest
  /\ blocks_rejected 16 IV63 idx CHUNK_START honest = true.
Proof.
  intros H. rewrite chunk_rejected_eq in H.
  apply chunk_rejected_with_sound in H. exact H.
Qed.

Lemma blocks_rejected_split (idx : Z) (honest : list int) :
  blocks_rejected 16 IV63 idx CHUNK_START honest = true ->
  forall off bit, (off < 1024)%nat -> 0 <= bit < 8 ->
    exists found,
      chunk_finish63 1024 IV63
        (zblocks (off / 64) ++ flip_bit (zeros 64) (off mod 64) bit
                 ++ zblocks (16 - 1 - off / 64))
        idx CHUNK_START NOT_ROOT = Ok found
      /\ found <> honest.
Proof.
  intros E off bit Hoff Hbit.
  apply (@blocks_rejected_sound 16 IV63 idx CHUNK_START honest 1024 E).
  - lia.
  - apply Nat.Div0.div_lt_upper_bound; lia.
  - apply Nat.mod_upper_bound; lia.
  - exact Hbit.
Qed.

Lemma blocks_rejected_chunk (idx : Z) (honest : list int) :
  blocks_rejected 16 IV63 idx CHUNK_START honest = true ->
  forall off bit, (off < 1024)%nat -> 0 <= bit < 8 ->
    exists found,
      chunk_finish63 1024 IV63 (flip_bit (zeros 1024) off bit) idx CHUNK_START
                     NOT_ROOT = Ok found
      /\ found <> honest.
Proof.
  intros E off bit Hoff Hbit. rewrite flip_bit_zeros_split by exact Hoff.
  exact (@blocks_rejected_split idx honest E off bit Hoff Hbit).
Qed.

Lemma chunk_chaining_value63_finish (c : bytes) (idx : Z) (fin : finalization) :
  chunk_chaining_value63 c idx fin
  = (cv <- chunk_finish63 (length c) IV63 c idx CHUNK_START fin ;;
     bytes_from_words (map Uint63.to_Z cv))%res.
Proof.
  unfold chunk_chaining_value63, chunk_finish63. rewrite IV63_eq.
  destruct (chunk_loop63 _ _ _ _ _) as [[[cv fl] blk]| |]; reflexivity.
Qed.

Lemma words_from_bytes_from_words (ws : list Z) (b : bytes) :
  bytes_from_words ws = Ok b -> words_from_bytes b = ws.
Proof.
  revert b. induction ws as [|w ws IH]; intros b H; cbn [bytes_from_words] in H.
  - injection H as <-. reflexivity.
  - apply rbind_Ok in H. destruct H as [b1 [H1 H]].
    apply rbind_Ok in H. destruct H as [bs [Hbs H]]. injection H as <-.
    unfold int_to_bytes in H1.
    destruct ((0 <=? w) && (w <? 256 ^ Z.of_nat 4))%bool eqn:E; try discriminate.
    injection H1 as <-. apply andb_true_iff in E. destruct E as [E1 E2].
    apply Z.leb_le in E1. apply Z.ltb_lt in E2.
    pose proof (int_from_le_bytes 4 w) as Hw.
    rewrite Z.mod_small in Hw by lia.
    cbn [le_bytes] in *. cbn [app words_from_bytes]. rewrite Hw. f_equal. now apply IH.
Qed.

Lemma map_to_Z_inj (a b : list int) : map Uint63.to_Z a = map Uint63.to_Z b -> a = b.
Proof.
  revert b. induction a as [|x a IH]; destruct b as [|y b]; cbn [map]; intros H;
    try discriminate; [reflexivity|].
  injection H as Hx Hr. apply Uint63.to_Z_inj in Hx. subst. f_equal. now apply IH.
Qed.

Lemma cv_bytes_neq (a b : list int) (ba bb : bytes) :
  bytes_from_words (map Uint63.to_Z a) = Ok ba ->
  bytes_from_words (map Uint63.to_Z b) = Ok bb ->
  a <> b -> bytes_eqb ba bb = false.
Proof.
  intros Ha Hb Hne. destruct (bytes_eqb ba bb) eqn:E; [|reflexivity].
  apply bytes_eqb_eq in E. subst bb. exfalso. apply Hne. apply map_to_Z_inj.
  apply words_from_bytes_from_words in Ha, Hb. congruence.
Qed.

Lemma length_zeros_1024 : length (zeros 1024) = 1024%nat.
Proof. reflexivity. Qed.

(** A flipped bit in a chunk of zero bytes is caught by [verify_chunk]. *)
Lemma verify_chunk_rejected (idx : Z) (honest : list int) (cv : bytes)
      (off : nat) (bit : Z) :
  chunk_rejected idx = Some honest ->
  chunk_chaining_value (zeros 1024) idx NOT_ROOT = Ok cv ->
  (off < 1024)%nat -> 0 <= bit < 8 ->
  verify_chunk cv (flip_bit (zeros 1024) off bit) idx NOT_ROOT = Raise AssertionError.
Proof.
  intros Hc Hcv Hoff Hbit. apply chunk_rejected_blocks in Hc. destruct Hc as [Hh E].
  destruct (@blocks_rejected_chunk idx honest E off bit Hoff Hbit) as [found [Hf Hne]].
  clear E.
  rewrite <- chunk_chaining_value63_eq, chunk_chaining_value63_finish in Hcv.
  rewrite length_zeros_1024, Hh in Hcv. cbn [rbind] in Hcv.
  destruct (chunk_chaining_value_Ok (flip_bit (zeros 1024) off bit) idx NOT_ROOT)
    as [cv' [Hcv' _]].
  unfold verify_chunk. rewrite Hcv'. cbn [rbind].
  rewrite <- chunk_chaining_value63_eq, chunk_chaining_value63_finish in Hcv'.
  rewrite length_flip_bit, length_zeros_1024, Hf in Hcv'. cbn [rbind] in Hcv'.
  rewrite (@cv_bytes_neq _ _ _ _ Hcv Hcv'); [reflexivity|]. congruence.
Qed.

Lemma parent_chaining_value63_root (p : bytes) :
  parent_chaining_value63 p IS_ROOT
  = (cv <- compress63 IV63 p BLOCK_SIZE 0 (Z.lor PARENT ROOT) ;;
     bytes_from_words (map Uint63.to_Z cv))%res.
Proof. reflexivity. Qed.

Lemma parent_rejected_eq (parent : bytes) :
  parent_rejected parent
  = match compress63 IV63 parent BLOCK_SIZE 0 (Z.lor PARENT ROOT) with
    | Ok honest =>
        forallb (fun r =>
                   forallb (fun bit =>
                              match compress63 IV63 (flip_bit parent r bit)
                                               BLOCK_SIZE 0 (Z.lor PARENT ROOT) with
                              | Ok found => negb (ints_eqb found honest)
                              | _ => false
                              end) bits)
                (seq 0 64)
    | _ => false
    end.
Proof. reflexivity. Qed.

(** A flipped bit in the root parent node is caught by [verify_parent]. *)
Lemma verify_parent_rejected (parent h : bytes) (r : nat) (bit : Z) :
  parent_rejected parent = true ->
  len parent = 64 ->
  parent_chaining_value parent IS_ROOT = Ok h ->
  (r < 64)%nat -> 0 <= bit < 8 ->
  verify_parent h (flip_bit parent r bit) IS_ROOT = Raise AssertionError.
Proof.
  intros Hp Hlen Hh Hr Hbit. rewrite parent_rejected_eq in Hp.
  rewrite <- parent_chaining_value63_eq, parent_chaining_value63_root in Hh.
  destruct (compress63 IV63 parent BLOCK_SIZE 0 (Z.lor PARENT ROOT)) as [honest| |];
    [|discriminate Hp|discriminate Hp].
  cbn [rbind] in Hh.
  rewrite forallb_forall in Hp. specialize (Hp r ltac:(apply in_seq; lia)).
  rewrite forallb_forall in Hp. specialize (Hp bit (@in_bits bit Hbit)).
  destruct (@parent_chaining_value_Ok (flip_bit parent r bit) IS_ROOT) as [h' [Hh' _]].
  { unfold len in *. rewrite length_flip_bit. lia. }
  unfold verify_parent. rewrite Hh'. cbn [rbind].
  rewrite <- parent_chaining_value63_eq, parent_chaining_value63_root in Hh'.
  destruct (compress63 IV63 (flip_bit parent r bit) BLOCK_SIZE 0 (Z.lor PARENT ROOT))
    as [found| |]; [|discriminate Hp|discriminate Hp].
  cbn [rbind] in Hh'. apply negb_ints_eqb in Hp.
  rewrite (@cv_bytes_neq _ _ _ _ Hh Hh'); [reflexivity|]. congruence.
Qed.

Lemma tree_rejected_sound (l r : option (list int)) :
  tree_rejected l r = true ->
  exists a b p, l = Some a /\ r = Some b /\ parent_of a b = Ok p
                /\ parent_rejected p = true.
Proof.
  unfold tree_rejected. destruct l as [a|]; [|discriminate].
  destruct r as [b|]; [|discriminate].
  destruct (parent_of a b) as [p| |] eqn:Ep; [|discriminate|discriminate].
  intros H. exists a, b, p. repeat split; [exact Ep | exact H].
Qed.

Lemma tamper_encoding_unfold :
  tamper_encoding
  = match bao_encode (zeros 2048) false with Ok (e, _) => e | _ => [] end.
Proof. reflexivity. Qed.

Lemma tamper_hash_unfold :
  tamper_hash
  = match bao_encode (zeros 2048) false with Ok (_, h) => h | _ => [] end.
Proof. reflexivity. Qed.

Lemma zeros_2048_left : slice_to (zeros 2048) (left_len (len (zeros 2048))) = zeros 1024.
Proof. reflexivity. Qed.

Lemma zeros_2048_right : slice_from (zeros 2048) (left_len (len (zeros 2048))) = zeros 1024.
Proof. reflexivity. Qed.

Lemma zeros_2048_chunks : 0 + count_chunks (left_len (len (zeros 2048))) = 1.
Proof. reflexivity. Qed.

(** The encoding of 2048 zero bytes: header, root parent node, two chunks. *)
Lemma tamper_encoding_parts :
  exists lcv rcv,
    chunk_chaining_value (zeros 1024) 0 NOT_ROOT = Ok lcv
    /\ chunk_chaining_value (zeros 1024) 1 NOT_ROOT = Ok rcv
    /\ len lcv = 32 /\ len rcv = 32
    /\ parent_chaining_value (lcv ++ rcv) IS_ROOT = Ok tamper_hash
    /\ tamper_encoding = le_bytes 8 2048 ++ (lcv ++ rcv) ++ zeros 1024 ++ zeros 1024
    /\ bao_encode (zeros 2048) false = Ok (tamper_encoding, tamper_hash).
Proof.
  destruct (chunk_chaining_value_Ok (zeros 1024) 0 NOT_ROOT) as [lcv [Hl Hll]].
  destruct (chunk_chaining_value_Ok (zeros 1024) 1 NOT_ROOT) as [rcv [Hr Hrl]].
  destruct (@parent_chaining_value_Ok (lcv ++ rcv) IS_ROOT) as [h [Hh _]].
  { rewrite len_app. lia. }
  assert (He : encodes false (zeros 2048) IS_ROOT 0
                       ((lcv ++ rcv) ++ zeros 1024 ++ zeros 1024) h).
  { apply encodes_node.
    - rewrite len_zeros; unfold CHUNK_SIZE; lia.
    - rewrite zeros_2048_left.
      apply (@encodes_leaf false (zeros 1024) NOT_ROOT 0 lcv); [|exact Hl].
      rewrite len_zeros; unfold CHUNK_SIZE; lia.
    - rewrite zeros_2048_right, zeros_2048_chunks.
      apply (@encodes_leaf false (zeros 1024) NOT_ROOT 1 rcv); [|exact Hr].
      rewrite len_zeros; unfold CHUNK_SIZE; lia.
    - exact Hh. }
  assert (Hb : bao_encode (zeros 2048) false
               = Ok (le_bytes 8 2048 ++ (lcv ++ rcv) ++ zeros 1024 ++ zeros 1024, h)).
  { unfold bao_encode. rewrite (@encode_recurse_encodes _ _ _ _ _ _ He) by lia.
    cbn [rbind]. rewrite len_zeros by lia. rewrite encode_len_Ok by lia. reflexivity. }
  exists lcv, rcv.
  rewrite tamper_encoding_unfold, tamper_hash_unfold, Hb.
  repeat split; assumption.
Qed.

(** Every single-bit flip in the parent node and in the two chunks changes
    the chaining value that the decoder compares. *)
Lemma tamper_rejected_true : tamper_rejected = true.
Proof. vm_compute. reflexivity. Qed.

Lemma tamper_rejected_eq :
  tamper_rejected = tree_rejected (chunk_rejected 0) (chunk_rejected 1).
Proof. reflexivity. Qed.

Lemma chunk_rejected_cv (idx : Z) (honest : list int) (cv : bytes) :
  chunk_rejected idx = Some honest ->
  chunk_chaining_value (zeros 1024) idx NOT_ROOT = Ok cv ->
  bytes_from_words (map Uint63.to_Z honest) = Ok cv.
Proof.
  intros Hc Hcv. apply chunk_rejected_blocks in Hc. destruct Hc as [Hh _].
  rewrite <- chunk_chaining_value63_eq, chunk_chaining_value63_finish in Hcv.
  rewrite length_zeros_1024, Hh in Hcv. exact Hcv.
Qed.

(** A flipped byte after the header lies in the parent node, in the first
    chunk or in the second. *)
Lemma flip_bit_parts (hd p a b : bytes) (off : nat) (bit : Z) :
  (length hd <= off < length hd + length p + length a + length b)%nat ->
  (exists r, (r < length p)%nat
             /\ flip_bit (hd ++ p ++ a ++ b) off bit = hd ++ flip_bit p r bit ++ a ++ b)
  \/ (exists r, (r < length a)%nat
                /\ flip_bit (hd ++ p ++ a ++ b) off bit = hd ++ p ++ flip_bit a r bit ++ b)
  \/ (exists r, (r < length b)%nat
                /\ flip_bit (hd ++ p ++ a ++ b) off bit = hd ++ p ++ a ++ flip_bit b r bit).
Proof.
  intros H.
  replace off with (length hd + (off - length hd))%nat by lia.
  rewrite flip_bit_app_r. remember (off - length hd)%nat as r1 eqn:E1.
  destruct (Nat.lt_ge_cases r1 (length p)) as [Hp | Hp].
  - left. exists r1. split; [exact Hp|]. now rewrite flip_bit_app_l.
  - right. replace r1 with (length p + (r1 - length p))%nat by lia.
    rewrite flip_bit_app_r. remember (r1 - length p)%nat as r2 eqn:E2.
    destruct (Nat.lt_ge_cases r2 (length a)) as [Ha | Ha].
    + left. exists r2. split; [exact Ha|]. now rewrite flip_bit_app_l.
    + right. replace r2 with (length a + (r2 - length a))%nat by lia.
      rewrite flip_bit_app_r. exists (r2 - length a)%nat. split; [lia | reflexivity].
Qed.

Lemma length_header_2048 : length (le_bytes 8 2048) = 8%nat.
Proof. reflexivity. Qed.

Lemma len_zeros_1024 : len (zeros 1024) = 1024.
Proof. reflexivity. Qed.

Global Opaque tamper_encoding tamper_hash.

(** C8: in the combined encoding of 2048 zero bytes (2120 bytes), flipping
    any one bit of any byte at offset 8 or later makes [bao_decode], run with
    the correct root hash, raise the hash-mismatch error. *)
Theorem tamper_detected (offset : nat) (bit : Z) :
  (8 <= offset < 2120)%nat -> 0 <= bit < 8 ->
  bao_encode (zeros 2048) false = Ok (tamper_encoding, tamper_hash)
  /\ len tamper_encoding = 2120
  /\ fst (bao_decode tamper_hash (combined (flip_bit tamper_encoding offset bit)))
     = Raise AssertionError.
Proof.
  intros Hoff Hbit.
  destruct tamper_encoding_parts as [lcv [rcv [Hl [Hr [Hll [Hrl [Hh [He Hb]]]]]]]].
  split; [exact Hb|].
  pose proof tamper_rejected_true as Ht. rewrite tamper_rejected_eq in Ht.
  apply tree_rejected_sound in Ht.
  destruct Ht as [hl [hr [p [Hcl [Hcr [Hp Hrej]]]]]].
  unfold parent_of in Hp.
  rewrite (@chunk_rejected_cv 0 hl lcv Hcl Hl) in Hp.
  rewrite (@chunk_rejected_cv 1 hr rcv Hcr Hr) in Hp.
  cbn [rbind] in Hp. injection Hp as <-.
  assert (Hlp : len (lcv ++ rcv) = 64) by (rewrite len_app; lia).
  rewrite He. split.
  { rewrite !len_app, len_zeros_1024. unfold len at 1. rewrite length_header_2048. lia. }
  destruct (@flip_bit_parts (le_bytes 8 2048) (lcv ++ rcv) (zeros 1024) (zeros 1024)
              offset bit) as [[r [Hlt ->]] | [[r [Hlt ->]] | [r [Hlt ->]]]].
  { rewrite length_header_2048, length_zeros_1024. unfold len in Hlp. lia. }
  - assert (Hlt' : (r < 64)%nat) by (unfold len in Hlp; lia).
    rewrite bao_decode_two_chunks;
      [| unfold len in *; rewrite length_flip_bit; exact Hlp
       | exact len_zeros_1024 | exact len_zeros_1024].
    rewrite (@verify_parent_rejected (lcv ++ rcv) tamper_hash r bit Hrej Hlp Hh Hlt' Hbit).
    reflexivity.
  - rewrite length_zeros_1024 in Hlt.
    rewrite bao_decode_two_chunks;
      [| exact Hlp
       | unfold len; rewrite length_flip_bit; exact len_zeros_1024
       | exact len_zeros_1024].
    rewrite (@verify_parent_Ok _ _ _ Hh). cbn [rbind].
    rewrite (slice_to_app_n lcv rcv) by (unfold HASH_SIZE; lia).
    rewrite (@verify_chunk_rejected 0 hl lcv r bit Hcl Hl Hlt Hbit). reflexivity.
  - rewrite length_zeros_1024 in Hlt.
    rewrite bao_decode_two_chunks;
      [| exact Hlp
       | exact len_zeros_1024
       | unfold len; rewrite length_flip_bit; exact len_zeros_1024].
    rewrite (@verify_parent_Ok _ _ _ Hh). cbn [rbind].
    rewrite (slice_to_app_n lcv rcv) by (unfold HASH_SIZE; lia).
    rewrite (slice_from_app_n lcv rcv) by (unfold HASH_SIZE; lia).
    rewrite (@verify_chunk_Ok _ _ _ _ Hl). cbn [rbind].
    rewrite (@verify_chunk_rejected 1 hr rcv r bit Hcr Hr Hlt Hbit). reflexivity.
Qed.

Lemma tamper_detected_witness :
  (8 <= 8 < 2120)%nat /\ 0 <= 0 < 8
  /\ bao_encode (zeros 2048) false = Ok (tamper_encoding, tamper_hash)
  /\ len tamper_encoding = 2120
  /\ fst (bao_decode tamper_hash (combined (flip_bit tamper_encoding 8 0)))
     = Raise AssertionError.
Proof.
  split; [lia|]. split; [lia|]. apply (@tamper_detected 8 0); lia.
Defined.

(* ================================================================== *)
(** * Further properties of the codec *)

(* ================================================================== *)
(** * The decoder in outboard mode *)

(** An outboard run: the content is the input stream, the tree is read from
    the outboard stream. *)
Definition outboard (input tree : bytes) : streams := mkStreams input (Some tree) [].

Lemma read_exact_input_outboard (a rest t out : bytes) (n : Z) :
  n = len a ->
  read_exact Input n (mkStreams (a ++ rest) (Some t) out)
  = (Ok a, mkStreams rest (Some t) out).
Proof.
  intros H. unfold read_exact. cbn [outboard_stream input_stream output_stream].
  now rewrite (read_bytes_app a rest H).
Qed.

Lemma read_exact_tree_outboard (a rest i out : bytes) (n : Z) :
  n = len a ->
  read_exact Tree n (mkStreams i (Some (a ++ rest)) out)
  = (Ok a, mkStreams i (Some rest) out).
Proof.
  intros H. unfold read_exact. cbn [outboard_stream input_stream output_stream].
  now rewrite (read_bytes_app a rest H).
Qed.

Lemma decode_recurse_outboard buf fin idx enc cv :
  encodes true buf fin idx enc cv ->
  forall fuel, (tree_fuel (len buf) <= fuel)%nat ->
  forall irest trest out,
    decode_recurse fuel cv (len buf) fin idx
                   (mkStreams (buf ++ irest) (Some (enc ++ trest)) out)
    = (Ok (idx + count_chunks (len buf)),
       mkStreams irest (Some trest) (out ++ buf)).
Proof.
  induction 1 as [buf fin idx cv Hlen Hcv
                 | buf fin idx le lcv re rcv cv Hlen Hl IHl Hr IHr Hcv];
    intros fuel Hfuel irest trest out;
    (destruct fuel as [|fuel]; [unfold tree_fuel in Hfuel; lia|]);
    cbn [decode_recurse].
  - destruct (len buf <=? CHUNK_SIZE) eqn:E; [|lia].
    erewrite bind_Ok; [|apply read_exact_input_outboard; reflexivity].
    unfold lift, write, ret, bind. rewrite (@verify_chunk_Ok _ _ _ _ Hcv).
    cbn [input_stream outboard_stream output_stream app].
    pose proof (len_nonneg buf). now rewrite count_chunks_leaf by lia.
  - destruct (len buf <=? CHUNK_SIZE) eqn:E; [lia|].
    pose proof (@left_len_bounds _ Hlen) as [Hb1 [Hb2 _]].
    pose proof (@tree_fuel_children _ Hlen) as [Hf1 Hf2]. unfold CHUNK_SIZE in *.
    pose proof (@encodes_len_cv _ _ _ _ _ _ Hl) as Hlcv.
    pose proof (@encodes_len_cv _ _ _ _ _ _ Hr) as Hrcv.
    rewrite len_slice_to in IHl by lia. rewrite len_slice_from in IHr by lia.
    rewrite <- !app_assoc with (l := lcv ++ rcv).
    erewrite bind_Ok;
      [|apply read_exact_tree_outboard; rewrite len_app; unfold PARENT_SIZE, HASH_SIZE; lia].
    erewrite bind_Ok; [|unfold lift; rewrite (@verify_parent_Ok _ _ _ Hcv); reflexivity].
    rewrite (slice_to_app_n lcv rcv) by (unfold HASH_SIZE; lia).
    rewrite (slice_from_app_n lcv rcv) by (unfold HASH_SIZE; lia).
    rewrite <- app_assoc.
    replace (buf ++ irest)
      with (slice_to buf (left_len (len buf))
            ++ slice_from buf (left_len (len buf)) ++ irest)
      by (now rewrite app_assoc, slice_to_from).
    erewrite bind_Ok; [|apply IHl; lia].
    rewrite IHr by lia.
    rewrite (@count_chunks_split (len buf)) by (unfold CHUNK_SIZE; lia).
    rewrite <- app_assoc, slice_to_from. do 2 f_equal. lia.
Qed.

(** X1: for every byte string [x], [bao_decode] run on [x] itself as the
    input stream, with the outboard encoding of [x] as the outboard stream
    and the root hash that [bao_encode] returned, succeeds, reads both
    streams to their end and writes exactly [x]. *)
Theorem decode_encode_outboard (x : bytes) :
  len x < 2 ^ 64 ->
  exists tree hash_,
    bao_encode x true = Ok (tree, hash_)
    /\ bao_decode hash_ (outboard x tree) = (Ok tt, mkStreams [] (Some []) x).
Proof.
  intros Hx. destruct (@bao_encode_encodes true x Hx) as [enc [h [He Hb]]].
  exists (le_bytes 8 (len x) ++ enc), h. split; [exact Hb|].
  pose proof (len_nonneg x) as H0.
  unfold bao_decode, outboard.
  erewrite bind_Ok; [|apply read_exact_tree_outboard; now rewrite len_le_bytes].
  rewrite decode_encode_len by lia.
  pose proof (@decode_recurse_outboard _ _ _ _ _ He (tree_fuel (len x)) (le_n _) [] [] [])
    as Hd.
  rewrite !app_nil_r in Hd. cbn [app] in Hd.
  erewrite bind_Ok; [|exact Hd]. reflexivity.
Qed.

Lemma decode_encode_outboard_witness :
  len [x01; x02; x03] < 2 ^ 64
  /\ exists tree hash_,
       bao_encode [x01; x02; x03] true = Ok (tree, hash_)
       /\ bao_decode hash_ (outboard [x01; x02; x03] tree)
          = (Ok tt, mkStreams [] (Some []) [x01; x02; x03]).
Proof.
  assert (H : len [x01; x02; x03] < 2 ^ 64) by (vm_compute; reflexivity).
  split; [exact H | exact (decode_encode_outboard [x01; x02; x03] H)].
Defined.

(* ================================================================== *)
(** * The decoder on a truncated stream *)

Lemma read_exact_short w (p out : bytes) (n : Z) :
  len p < n ->
  read_exact w n (mkStreams p None out) = (Raise IOError, mkStreams [] None out).
Proof.
  intros H. unfold read_exact, read_bytes.
  cbn [outboard_stream input_stream output_stream].
  destruct (n <=? len p) eqn:E; [zbool; lia|]. now destruct w.
Qed.

(** Where a cut of [a ++ b] falls: inside [a], or at or after its end. *)
Lemma cut_app (a b p q : bytes) :
  a ++ b = p ++ q ->
  (exists l, l <> [] /\ a = p ++ l) \/ (exists p1, p = a ++ p1 /\ b = p1 ++ q).
Proof.
  intros H. apply app_eq_app in H. destruct H as [l [[H1 H2] | [H1 H2]]].
  - destruct l as [|c l].
    + right. exists []. rewrite app_nil_r in H1. cbn [app] in H2. subst a q.
      rewrite app_nil_r. split; reflexivity.
    + left. exists (c :: l). split; [discriminate | exact H1].
  - right. exists l. split; assumption.
Qed.

Lemma len_cut (p l : bytes) : l <> [] -> len p < len (p ++ l).
Proof.
  intros H. rewrite len_app. destruct l as [|c l]; [congruence|].
  unfold len. cbn [length]. lia.
Qed.

Lemma decode_recurse_truncated buf fin idx enc cv :
  encodes false buf fin idx enc cv ->
  forall fuel, (tree_fuel (len buf) <= fuel)%nat ->
  forall p q out, enc = p ++ q -> q <> [] ->
    exists w r,
      decode_recurse fuel cv (len buf) fin idx (mkStreams p None out)
      = (Raise IOError, mkStreams [] None (out ++ w))
      /\ buf = w ++ r.
Proof.
  induction 1 as [buf fin idx cv Hlen Hcv
                 | buf fin idx le lcv re rcv cv Hlen Hl IHl Hr IHr Hcv];
    intros fuel Hfuel p q out Hcut Hq;
    (destruct fuel as [|fuel]; [unfold tree_fuel in Hfuel; lia|]);
    cbn [decode_recurse].
  - destruct (len buf <=? CHUNK_SIZE) eqn:E; [|lia].
    exists [], buf. rewrite app_nil_r. split; [|reflexivity].
    apply bind_Raise. apply read_exact_short. rewrite Hcut. now apply len_cut.
  - destruct (len buf <=? CHUNK_SIZE) eqn:E; [lia|].
    pose proof (@left_len_bounds _ Hlen) as [Hb1 [Hb2 _]].
    pose proof (@tree_fuel_children _ Hlen) as [Hf1 Hf2]. unfold CHUNK_SIZE in *.
    pose proof (@encodes_len_cv _ _ _ _ _ _ Hl) as Hlcv.
    pose proof (@encodes_len_cv _ _ _ _ _ _ Hr) as Hrcv.
    rewrite len_slice_to in IHl by lia. rewrite len_slice_from in IHr by lia.
    apply cut_app in Hcut. destruct Hcut as [[l [Hl0 Hp]] | [p1 [-> Hcut]]].
    + exists [], buf. rewrite app_nil_r. split; [|reflexivity].
      apply bind_Raise. apply read_exact_short.
      apply len_cut with (p := p) in Hl0. rewrite <- Hp, len_app in Hl0.
      unfold PARENT_SIZE, HASH_SIZE. lia.
    + erewrite bind_Ok;
        [|apply read_exact_combined; rewrite len_app; unfold PARENT_SIZE, HASH_SIZE; lia].
      erewrite bind_Ok; [|unfold lift; rewrite (@verify_parent_Ok _ _ _ Hcv); reflexivity].
      rewrite (slice_to_app_n lcv rcv) by (unfold HASH_SIZE; lia).
      rewrite (slice_from_app_n lcv rcv) by (unfold HASH_SIZE; lia).
      apply cut_app in Hcut. destruct Hcut as [[l [Hl0 Hp]] | [p2 [-> Hcut]]].
      * destruct (IHl fuel ltac:(lia) p1 l out Hp Hl0) as [w [r [Hrun Hw]]].
        exists w, (r ++ slice_from buf (left_len (len buf))). split.
        -- apply bind_Raise. exact Hrun.
        -- rewrite app_assoc, <- Hw. symmetry. apply slice_to_from.
      * pose proof (@decode_recurse_encodes _ _ _ _ _ Hl) as Hdl.
        rewrite len_slice_to in Hdl by lia.
        erewrite bind_Ok; [|apply Hdl; lia].
        destruct (IHr fuel ltac:(lia) p2 q (out ++ slice_to buf (left_len (len buf)))
                      Hcut Hq) as [w [r [Hrun Hw]]].
        exists (slice_to buf (left_len (len buf)) ++ w), r. split.
        -- rewrite Hrun. now rewrite app_assoc.
        -- rewrite <- app_assoc, <- Hw. symmetry. apply slice_to_from.
Qed.

(** X2: when the combined encoding of [x] is cut short anywhere, at least
    one byte missing, [bao_decode] with the root hash raises [IOError]: it
    never accepts the stream, and what it has written by then is a prefix of
    [x]. *)
Theorem truncated_stream_rejected (x stream hash_ p q : bytes) :
  len x < 2 ^ 64 ->
  bao_encode x false = Ok (stream, hash_) ->
  stream = p ++ q -> q <> [] ->
  exists w r,
    bao_decode hash_ (combined p) = (Raise IOError, mkStreams [] None w)
    /\ x = w ++ r.
Proof.
  intros Hx Hb Hcut Hq.
  destruct (@bao_encode_encodes false x Hx) as [enc [h [He Hb']]].
  assert (Hs : stream = le_bytes 8 (len x) ++ enc) by congruence.
  assert (Hh : hash_ = h) by congruence. subst hash_. clear Hb.
  rewrite Hs in Hcut. clear Hs.
  pose proof (len_nonneg x) as H0.
  unfold bao_decode, combined.
  apply cut_app in Hcut. destruct Hcut as [[l [Hl0 Hp]] | [p1 [-> Hcut]]].
  - exists [], x. split; [|reflexivity].
    apply bind_Raise. apply read_exact_short.
    apply len_cut with (p := p) in Hl0. rewrite <- Hp, len_le_bytes in Hl0.
    unfold HEADER_SIZE. lia.
  - erewrite bind_Ok; [|apply read_exact_combined; now rewrite len_le_bytes].
    rewrite decode_encode_len by lia.
    destruct (@decode_recurse_truncated _ _ _ _ _ He (tree_fuel (len x)) (le_n _)
                p1 q [] Hcut Hq) as [w [r [Hrun Hw]]].
    exists w, r. split; [|exact Hw].
    apply bind_Raise. exact Hrun.
Qed.

Lemma truncated_stream_rejected_witness :
  exists stream hash_ p q,
    len [x01; x02; x03] < 2 ^ 64
    /\ bao_encode [x01; x02; x03] false = Ok (stream, hash_)
    /\ stream = p ++ q /\ q <> []
    /\ exists w r,
         bao_decode hash_ (combined p) = (Raise IOError, mkStreams [] None w)
         /\ [x01; x02; x03] = w ++ r.
Proof.
  assert (Hx : len [x01; x02; x03] < 2 ^ 64) by (vm_compute; reflexivity).
  destruct (@bao_encode_encodes false [x01; x02; x03] Hx) as [enc [h [He Hb]]].
  assert (Hq : [x03] <> []) by discriminate.
  assert (Henc : enc = [x01; x02; x03]).
  { inversion He; subst; [reflexivity|].
    exfalso. match goal with H : CHUNK_SIZE < len _ |- _ => vm_compute in H; discriminate H end. }
  assert (Hcut : le_bytes 8 (len [x01; x02; x03]) ++ enc
                 = (le_bytes 8 (len [x01; x02; x03]) ++ [x01; x02]) ++ [x03]).
  { rewrite Henc, <- app_assoc. reflexivity. }
  exists (le_bytes 8 (len [x01; x02; x03]) ++ enc), h,
         (le_bytes 8 (len [x01; x02; x03]) ++ [x01; x02]), [x03].
  split; [exact Hx|]. split; [exact Hb|]. split; [exact Hcut|]. split; [exact Hq|].
  exact (truncated_stream_rejected [x01; x02; x03] _ h _ [x03] Hx Hb Hcut Hq).
Defined.

(* ================================================================== *)
(** * The decoder with a wrong root hash *)

Lemma bytes_eqb_neq (a b : bytes) : a <> b -> bytes_eqb a b = false.
Proof.
  intros H. destruct (bytes_eqb a b) eqn:E; [|reflexivity].
  apply bytes_eqb_eq in E. contradiction.
Qed.

Lemma verify_chunk_neq cv cv' chunk idx fin :
  chunk_chaining_value chunk idx fin = Ok cv -> cv' <> cv ->
  verify_chunk cv' chunk idx fin = Raise AssertionError.
Proof.
  intros H Hne. unfold verify_chunk. rewrite H. cbn [rbind].
  now rewrite bytes_eqb_neq.
Qed.

Lemma verify_parent_neq cv cv' parent fin :
  parent_chaining_value parent fin = Ok cv -> cv' <> cv ->
  verify_parent cv' parent fin = Raise AssertionError.
Proof.
  intros H Hne. unfold verify_parent. rewrite H. cbn [rbind].
  now rewrite bytes_eqb_neq.
Qed.

(** The first node of an encoded subtree. *)
Lemma encodes_first_node buf fin idx enc cv :
  encodes false buf fin idx enc cv ->
  (len buf <= CHUNK_SIZE /\ enc = buf /\ chunk_chaining_value buf idx fin = Ok cv)
  \/ (CHUNK_SIZE < len buf
      /\ exists parent rest,
           len parent = PARENT_SIZE /\ enc = parent ++ rest
           /\ parent_chaining_value parent fin = Ok cv).
Proof.
  destruct 1 as [buf fin idx cv Hlen Hcv
                | buf fin idx le lcv re rcv cv Hlen Hl Hr Hcv].
  - left. auto.
  - right. split; [exact Hlen|]. exists (lcv ++ rcv), (le ++ re).
    pose proof (@encodes_len_cv _ _ _ _ _ _ Hl) as Hlcv.
    pose proof (@encodes_len_cv _ _ _ _ _ _ Hr) as Hrcv.
    rewrite len_app. unfold PARENT_SIZE, HASH_SIZE. repeat split; [lia | exact Hcv].
Qed.

(** X3: [bao_decode] on the combined encoding of [x] with any hash other
    than the root hash raises the hash-mismatch error at the first node it
    reads, before anything is written. *)
Theorem wrong_hash_rejected (x stream hash_ other : bytes) :
  len x < 2 ^ 64 ->
  bao_encode x false = Ok (stream, hash_) ->
  other <> hash_ ->
  exists rest,
    bao_decode other (combined stream) = (Raise AssertionError, mkStreams rest None []).
Proof.
  intros Hx Hb Hne.
  destruct (@bao_encode_encodes false x Hx) as [enc [h [He Hb']]].
  assert (Hs : stream = le_bytes 8 (len x) ++ enc) by congruence.
  assert (Hh : hash_ = h) by congruence. subst stream hash_. clear Hb.
  pose proof (len_nonneg x) as H0.
  unfold bao_decode, combined.
  erewrite bind_Ok; [|apply read_exact_combined; now rewrite len_le_bytes].
  rewrite decode_encode_len by lia.
  unfold tree_fuel. cbn [decode_recurse]. rewrite <- (app_nil_r enc).
  destruct (@encodes_first_node _ _ _ _ _ He)
    as [[Hlen [-> Hcv]] | [Hlen [parent [rest [Hpl [-> Hcv]]]]]].
  - destruct (len x <=? CHUNK_SIZE) eqn:E; [|zbool; lia].
    exists []. apply bind_Raise.
    erewrite bind_Ok;
      [|apply (@read_exact_combined Input x [] [] (len x)); reflexivity].
    apply bind_Raise. unfold lift.
    now rewrite (@verify_chunk_neq h other x 0 IS_ROOT Hcv Hne).
  - destruct (len x <=? CHUNK_SIZE) eqn:E; [zbool; lia|].
    exists (rest ++ []). apply bind_Raise. rewrite <- app_assoc.
    erewrite bind_Ok; [|apply read_exact_combined; now rewrite Hpl].
    apply bind_Raise. unfold lift.
    now rewrite (@verify_parent_neq h other parent IS_ROOT Hcv Hne).
Qed.

Lemma wrong_hash_rejected_witness :
  exists stream hash_,
    len [x01; x02; x03] < 2 ^ 64
    /\ bao_encode [x01; x02; x03] false = Ok (stream, hash_)
    /\ (x00 :: hash_) <> hash_
    /\ exists rest,
         bao_decode (x00 :: hash_) (combined stream)
         = (Raise AssertionError, mkStreams rest None []).
Proof.
  assert (Hx : len [x01; x02; x03] < 2 ^ 64) by (vm_compute; reflexivity).
  destruct (@bao_encode_encodes false [x01; x02; x03] Hx) as [enc [h [He Hb]]].
  assert (Hne : (x00 :: h) <> h).
  { intros H. apply (f_equal (@length byte)) in H. cbn [length] in H. lia. }
  exists (le_bytes 8 (len [x01; x02; x03]) ++ enc), h.
  split; [exact Hx|]. split; [exact Hb|]. split; [exact Hne|].
  exact (wrong_hash_rejected [x01; x02; x03] _ h (x00 :: h) Hx Hb Hne).
Defined.

(* ================================================================== *)
(** * The exceptions of the decoder *)

Lemma int_from_bytes_nonneg (b : bytes) : 0 <= int_from_bytes b.
Proof.
  induction b as [|c b IH]; cbn [int_from_bytes]; [lia|].
  pose proof (Z_of_byte_range c). lia.
Qed.

Lemma read_exact_cases w (n : Z) (s : streams) :
  0 <= n ->
  (exists b, fst (read_exact w n s) = Ok b /\ len b = n)
  \/ fst (read_exact w n s) = Raise IOError.
Proof.
  intros Hn. unfold read_exact, read_bytes.
  destruct w; destruct (outboard_stream s) as [t|];
    match goal with |- context [?a <=? ?b] => destruct (a <=? b) eqn:E end;
    cbn [fst]; zbool;
    solve [ right; reflexivity
          | left; eexists; split; [reflexivity | apply len_slice_to; lia] ].
Qed.

Lemma verify_chunk_cases cv chunk idx fin :
  verify_chunk cv chunk idx fin = Ok tt
  \/ verify_chunk cv chunk idx fin = Raise AssertionError.
Proof.
  unfold verify_chunk.
  destruct (chunk_chaining_value_Ok chunk idx fin) as [found [-> _]]. cbn [rbind].
  destruct (bytes_eqb cv found); auto.
Qed.

Lemma verify_parent_cases cv parent fin :
  64 <= len parent ->
  verify_parent cv parent fin = Ok tt
  \/ verify_parent cv parent fin = Raise AssertionError.
Proof.
  intros H. unfold verify_parent.
  destruct (@parent_chaining_value_Ok parent fin H) as [found [-> _]]. cbn [rbind].
  destruct (bytes_eqb cv found); auto.
Qed.

(** What a run of the decoder can end in. *)
Definition decoder_result {A} (r : res A) : Prop :=
  (exists a, r = Ok a) \/ r = Raise IOError \/ r = Raise AssertionError.

Lemma decode_recurse_result (L : Z) :
  0 <= L ->
  forall fuel, (tree_fuel L <= fuel)%nat ->
  forall cv fin idx s, decoder_result (fst (decode_recurse fuel cv L fin idx s)).
Proof.
  intros HL. pattern L. apply tree_ind; [| |exact HL]; clear L HL.
  - intros L HL fuel Hfuel cv fin idx s.
    destruct fuel as [|fuel]; [unfold tree_fuel in Hfuel; lia|].
    cbn [decode_recurse].
    destruct (L <=? CHUNK_SIZE) eqn:E; [|zbool; lia].
    unfold bind, lift, write, ret.
    destruct (@read_exact_cases Input L s ltac:(lia)) as [[b [Hb _]] | Hb];
      destruct (read_exact Input L s) as [r s1]; cbn [fst] in Hb; subst r;
      [|right; left; reflexivity].
    destruct (verify_chunk_cases cv b idx fin) as [-> | ->]; cbn [fst].
    + left. eexists. reflexivity.
    + right. right. reflexivity.
  - intros L HL IHl IHr fuel Hfuel cv fin idx s.
    destruct fuel as [|fuel]; [unfold tree_fuel in Hfuel; lia|].
    pose proof (@tree_fuel_children L HL) as [Hf1 Hf2].
    cbn [decode_recurse].
    destruct (L <=? CHUNK_SIZE) eqn:E; [zbool; lia|].
    unfold bind at 1.
    destruct (@read_exact_cases Tree PARENT_SIZE s ltac:(unfold PARENT_SIZE, HASH_SIZE; lia))
      as [[b [Hb Hlb]] | Hb];
      destruct (read_exact Tree PARENT_SIZE s) as [r s1]; cbn [fst] in Hb; subst r;
      [|right; left; reflexivity].
    unfold bind at 1, lift.
    destruct (@verify_parent_cases cv b fin ltac:(unfold PARENT_SIZE, HASH_SIZE in Hlb; lia))
      as [-> | ->]; [|right; right; reflexivity].
    unfold bind.
    pose proof (IHl fuel ltac:(lia) (slice_to b HASH_SIZE) NOT_ROOT idx s1) as Hleft.
    destruct (decode_recurse fuel (slice_to b HASH_SIZE) (left_len L) NOT_ROOT idx s1)
      as [[i|e|] s2]; cbn [fst] in *.
    + apply IHr. lia.
    + destruct Hleft as [[a Ha] | [Ha | Ha]]; [discriminate Ha | |];
        injection Ha as ->; [right; left | right; right]; reflexivity.
    + destruct Hleft as [[a Ha] | [Ha | Ha]]; discriminate Ha.
Qed.

(** X4: on any streams whatever, in combined or in outboard mode and with
    any hash, [bao_decode] returns, or raises [IOError] (the input ended
    early) or [AssertionError] (a hash mismatch): it does not loop, and no
    malformed input makes it fail with an index or overflow error. *)
Theorem bao_decode_exceptions (hash_ : bytes) (s : streams) :
  fst (bao_decode hash_ s) = Ok tt
  \/ fst (bao_decode hash_ s) = Raise IOError
  \/ fst (bao_decode hash_ s) = Raise AssertionError.
Proof.
  enough (H : decoder_result (fst (bao_decode hash_ s))).
  { destruct H as [[[] Ha] | [Ha | Ha]]; auto. }
  unfold bao_decode. unfold bind at 1.
  destruct (@read_exact_cases Tree HEADER_SIZE s ltac:(unfold HEADER_SIZE; lia))
    as [[b [Hb _]] | Hb];
    destruct (read_exact Tree HEADER_SIZE s) as [r s1]; cbn [fst] in Hb; subst r;
    [|right; left; reflexivity].
  unfold bind, ret.
  pose proof (@decode_recurse_result (decode_len b) (int_from_bytes_nonneg b)
                (tree_fuel (decode_len b)) (le_n _) hash_ IS_ROOT 0 s1) as Hd.
  destruct (decode_recurse (tree_fuel (decode_len b)) hash_ (decode_len b) IS_ROOT 0 s1)
    as [[i|e|] s2]; cbn [fst] in *.
  - left. exists tt. reflexivity.
  - destruct Hd as [[a Ha] | [Ha | Ha]]; [discriminate Ha | |];
      injection Ha as ->; [right; left | right; right]; reflexivity.
  - destruct Hd as [[a Ha] | [Ha | Ha]]; discriminate Ha.
Qed.

(* ================================================================== *)
(** * The hasher on short reads *)

Lemma hash_loop_one_chunk (reads : list bytes) :
  Forall (fun read => read <> []) reads ->
  forall buf, len buf + len (concat reads) <= CHUNK_SIZE ->
    hash_loop reads buf 0 [] = chunk_chaining_value (buf ++ concat reads) 0 IS_ROOT.
Proof.
  induction 1 as [|read reads Hne Hall IH]; intros buf Hlen.
  - cbn [hash_loop concat]. rewrite app_nil_r. reflexivity.
  - destruct read as [|c read]; [congruence|].
    cbn [concat] in *. rewrite len_app in Hlen.
    pose proof (len_nonneg (concat reads)) as H0.
    assert (Hc : 0 < len (c :: read)) by (unfold len; cbn [length]; lia).
    cbn [hash_loop].
    destruct (len buf >=? CHUNK_SIZE) eqn:E; [zbool; lia|].
    rewrite IH by (rewrite len_app; lia).
    now rewrite <- app_assoc.
Qed.

(** X5: on an input of at most one chunk the sizes of the reads do not
    matter: whatever non-empty pieces the stream delivers [x] in,
    [bao_hash] returns the root hash of [bao_encode]. *)
Theorem hash_agreement_one_chunk (reads : list bytes) :
  Forall (fun read => read <> []) reads ->
  len (concat reads) <= CHUNK_SIZE ->
  exists h stream,
    bao_hash reads = Ok h
    /\ bao_encode (concat reads) false = Ok (stream, h)
    /\ chunk_chaining_value (concat reads) 0 IS_ROOT = Ok h.
Proof.
  intros Hne Hlen.
  assert (Hx : len (concat reads) < 2 ^ 64) by (unfold CHUNK_SIZE in Hlen; lia).
  destruct (@bao_encode_encodes false (concat reads) Hx) as [enc [h [He Hb]]].
  exists h, (le_bytes 8 (len (concat reads)) ++ enc).
  assert (Hcv : chunk_chaining_value (concat reads) 0 IS_ROOT = Ok h).
  { inversion He; subst; [assumption | lia]. }
  split; [|split; [exact Hb | exact Hcv]].
  unfold bao_hash. rewrite (@hash_loop_one_chunk reads Hne []); [exact Hcv|].
  rewrite len_nil. lia.
Qed.

Lemma hash_agreement_one_chunk_witness :
  Forall (fun read => read <> []) [[x01; x02]; [x03]]
  /\ len (concat [[x01; x02]; [x03]]) <= CHUNK_SIZE
  /\ exists h stream,
       bao_hash [[x01; x02]; [x03]] = Ok h
       /\ bao_encode (concat [[x01; x02]; [x03]]) false = Ok (stream, h)
       /\ chunk_chaining_value (concat [[x01; x02]; [x03]]) 0 IS_ROOT = Ok h.
Proof.
  assert (Hne : Forall (fun read : bytes => read <> []) [[x01; x02]; [x03]])
    by (repeat constructor; discriminate).
  assert (Hlen : len (concat [[x01; x02]; [x03]]) <= CHUNK_SIZE)
    by (vm_compute; discriminate).
  split; [exact Hne|]. split; [exact Hlen|].
  exact (hash_agreement_one_chunk [[x01; x02]; [x03]] Hne Hlen).
Defined.

(* ================================================================== *)
(** * The hasher on any stream *)

(** The stack of [bao_hash] as far as its height goes: one 32-byte
    chaining value for every 1 in the binary form of [chunks]. *)
Definition stack_shape (chunks : Z) (subtrees : list bytes) : Prop :=
  0 <= chunks
  /\ Z.of_nat (length subtrees) = popcount chunks
  /\ Forall (fun cv => len cv = 32) subtrees.

Lemma merge_subtrees_shape (subtrees : list bytes) :
  forall new_subtree total,
    Forall (fun cv => len cv = 32) subtrees -> len new_subtree = 32 ->
    1 <= total <= Z.of_nat (length subtrees) + 1 ->
    exists subtrees',
      merge_subtrees subtrees new_subtree total = Ok subtrees'
      /\ Z.of_nat (length subtrees') = total
      /\ Forall (fun cv => len cv = 32) subtrees'.
Proof.
  induction subtrees as [|top rest IH]; intros new total Hall Hnew Htot;
    cbn [merge_subtrees].
  - cbn [length] in *. destruct (_ >? _) eqn:E; [zbool; lia|].
    exists [new]. repeat split; [cbn [length]; lia | constructor; auto].
  - destruct (_ >? _) eqn:E.
    + inversion Hall as [|? ? Htop Hrest]; subst.
      destruct (@parent_chaining_value_Ok (top ++ new) NOT_ROOT) as [cv [Hcv Hl]];
        [rewrite len_app; lia|].
      rewrite Hcv. cbn [rbind]. apply IH; auto.
      cbn [length] in *. zbool. lia.
    + exists (new :: top :: rest). zbool. cbn [length] in *.
      repeat split; [lia | constructor; auto].
Qed.

Lemma finish_subtrees_shape (subtrees : list bytes) :
  forall new_subtree,
    subtrees <> [] -> Forall (fun cv => len cv = 32) subtrees -> len new_subtree = 32 ->
    exists h, finish_subtrees subtrees new_subtree = Ok h /\ len h = 32.
Proof.
  induction subtrees as [|top rest IH]; intros new Hne Hall Hnew; [congruence|].
  inversion Hall as [|? ? Htop Hrest]; subst.
  cbn [finish_subtrees]. destruct rest as [|next rest].
  - apply parent_chaining_value_Ok. rewrite len_app. lia.
  - destruct (@parent_chaining_value_Ok (top ++ new) NOT_ROOT) as [cv [Hcv Hl]];
      [rewrite len_app; lia|].
    rewrite Hcv. cbn [rbind]. apply IH; auto. discriminate.
Qed.

Lemma hash_finish_shape (buf : bytes) chunks subtrees :
  stack_shape chunks subtrees ->
  exists h, hash_finish buf chunks subtrees = Ok h /\ len h = 32.
Proof.
  intros [Hc [Hlen Hall]]. unfold hash_finish. destruct (chunks =? 0) eqn:E.
  - apply chunk_chaining_value_Ok.
  - destruct (chunk_chaining_value_Ok buf chunks NOT_ROOT) as [new [Hnew Hl]].
    rewrite Hnew. cbn [rbind]. apply finish_subtrees_shape; auto.
    pose proof (@popcount_pos chunks ltac:(zbool; lia)).
    destruct subtrees; [cbn [length] in Hlen; lia | discriminate].
Qed.

Lemma hash_loop_shape (reads : list bytes) :
  forall buf chunks subtrees,
    stack_shape chunks subtrees ->
    exists h, hash_loop reads buf chunks subtrees = Ok h /\ len h = 32.
Proof.
  induction reads as [|read reads IH]; intros buf chunks subtrees Hst;
    cbn [hash_loop]; [now apply hash_finish_shape|].
  destruct read as [|c read]; [now apply hash_finish_shape|].
  destruct (len buf >=? CHUNK_SIZE); [|now apply IH].
  destruct Hst as [Hc [Hlen Hall]].
  destruct (chunk_chaining_value_Ok (slice_to buf CHUNK_SIZE) chunks NOT_ROOT)
    as [new [Hnew Hl]].
  rewrite Hnew. cbn [rbind].
  pose proof (@popcount_succ chunks Hc) as Hs.
  pose proof (@popcount_pos (chunks + 1) ltac:(lia)) as Hp.
  destruct (@merge_subtrees_shape subtrees new (popcount (chunks + 1)) Hall Hl
              ltac:(lia)) as [st' [Hm [Hlen' Hall']]].
  rewrite Hm. cbn [rbind]. apply IH. repeat split; [lia | exact Hlen' | exact Hall'].
Qed.

(** X6: on every stream, whatever the sizes of its reads, [bao_hash]
    returns a hash of 32 bytes: the pops of the merging loops never find the
    stack empty, and [subtrees[0]] exists at the end. *)
Theorem bao_hash_total (input_stream : list bytes) :
  exists h, bao_hash input_stream = Ok h /\ len h = 32.
Proof.
  unfold bao_hash. apply hash_loop_shape.
  repeat split; [lia | constructor].
Qed.

(* ================================================================== *)
(** * The length header *)

(** X7: [encode_len] succeeds exactly on the lengths that fit 8 bytes, where
    [decode_len] inverts it; on any other integer it raises
    [OverflowError]. *)
Theorem encode_len_range (n : Z) :
  (0 <= n < 2 ^ 64 /\ exists header, encode_len n = Ok header /\ len header = 8
                                      /\ decode_len header = n)
  \/ ((n < 0 \/ 2 ^ 64 <= n) /\ encode_len n = Raise OverflowError).
Proof.
  destruct (Z_lt_dec n 0) as [Hneg|Hpos]; [right|].
  - split; [left; exact Hneg|]. unfold encode_len, int_to_bytes.
    destruct (0 <=? n) eqn:E; [zbool; lia | reflexivity].
  - destruct (Z_lt_dec n (2 ^ 64)) as [Hlt|Hge]; [left | right].
    + split; [lia|]. exists (le_bytes 8 n).
      rewrite encode_len_Ok, len_le_bytes, decode_encode_len by lia. auto.
    + split; [right; lia|]. unfold encode_len, int_to_bytes.
      change (256 ^ Z.of_nat (Z.to_nat HEADER_SIZE)) with (2 ^ 64).
      destruct (n <? 2 ^ 64) eqn:E; [zbool; lia|]. now rewrite andb_false_r.
Qed.

(* ================================================================== *)
(** * Words and bytes *)

Lemma int_to_bytes_word (w : Z) :
  (word w /\ int_to_bytes w 4 = Ok (le_bytes 4 w))
  \/ (~ word w /\ int_to_bytes w 4 = Raise OverflowError).
Proof.
  unfold int_to_bytes, word. change (256 ^ Z.of_nat 4) with (2 ^ 32).
  destruct (0 <=? w) eqn:E1; destruct (w <? 2 ^ 32) eqn:E2; cbn [andb]; zbool;
    [left | right | right | right]; split; try reflexivity; lia.
Qed.

(** X8: [bytes_from_words] succeeds exactly on lists of 32-bit words,
    giving four bytes a word, and [words_from_bytes] reads the words back;
    a negative or larger integer in the list raises [OverflowError]. *)
Theorem bytes_from_words_range (ws : list Z) :
  (Forall word ws
   /\ exists b, bytes_from_words ws = Ok b /\ len b = 4 * Z.of_nat (length ws)
                /\ words_from_bytes b = ws)
  \/ (~ Forall word ws /\ bytes_from_words ws = Raise OverflowError).
Proof.
  induction ws as [|w ws IH].
  - left. split; [constructor|]. exists []. repeat split.
  - cbn [bytes_from_words].
    destruct (int_to_bytes_word w) as [[Hw ->] | [Hw ->]]; cbn [rbind].
    + destruct IH as [[Hall [b [Hb [Hl Hr]]]] | [Hall Hb]]; rewrite Hb; cbn [rbind].
      * left. split; [constructor; assumption|].
        eexists. split; [reflexivity|]. split.
        -- rewrite len_app, len_le_bytes, Hl. cbn [length]. lia.
        -- apply words_from_bytes_from_words. cbn [bytes_from_words].
           destruct (int_to_bytes_word w) as [[_ ->] | [Hn _]]; [|contradiction].
           rewrite Hb. reflexivity.
      * right. split; [intros H; inversion H; contradiction | reflexivity].
    + right. split; [intros H; inversion H; contradiction | reflexivity].
Qed.

(* ================================================================== *)
(** * The slice of the whole content *)

Lemma slice_recurse_whole buf fin idx enc cv :
  encodes false buf fin idx enc cv ->
  forall fuel, (tree_fuel (len buf) <= fuel)%nat ->
  forall slice_start slice_end subtree_start rest out,
    0 < len buf -> slice_start <= subtree_start ->
    subtree_start + len buf <= slice_end ->
    slice_recurse fuel slice_start slice_end subtree_start (len buf)
                  (mkStreams (enc ++ rest) None out)
    = (Ok tt, mkStreams rest None (out ++ enc)).
Proof.
  induction 1 as [buf fin idx cv Hlen Hcv
                 | buf fin idx le lcv re rcv cv Hlen Hl IHl Hr IHr Hcv];
    intros fuel Hfuel ss se s rest out Hpos Hss Hse;
    (destruct fuel as [|fuel]; [unfold tree_fuel in Hfuel; lia|]);
    cbn [slice_recurse];
    (destruct (s + len buf <=? ss) eqn:E1; [zbool; lia|]);
    (destruct (se <=? s) eqn:E2; [zbool; lia|]).
  - destruct (len buf <=? CHUNK_SIZE) eqn:E; [|zbool; lia].
    erewrite bind_Ok; [|apply read_exact_combined; reflexivity].
    apply write_run.
  - destruct (len buf <=? CHUNK_SIZE) eqn:E; [zbool; lia|].
    pose proof (@left_len_bounds _ Hlen) as [Hb1 [Hb2 _]].
    pose proof (@tree_fuel_children _ Hlen) as [Hf1 Hf2]. unfold CHUNK_SIZE in *.
    pose proof (@encodes_len_cv _ _ _ _ _ _ Hl) as Hlcv.
    pose proof (@encodes_len_cv _ _ _ _ _ _ Hr) as Hrcv.
    rewrite len_slice_to in IHl by lia. rewrite len_slice_from in IHr by lia.
    rewrite <- !app_assoc with (l := lcv ++ rcv).
    erewrite bind_Ok;
      [|apply read_exact_combined; rewrite len_app; unfold PARENT_SIZE, HASH_SIZE; lia].
    erewrite bind_Ok; [|apply write_run].
    rewrite <- app_assoc.
    erewrite bind_Ok; [|apply IHl; lia].
    rewrite IHr by lia.
    now rewrite <- !app_assoc.
Qed.

Lemma bao_slice_whole (x stream hash_ : bytes) (slice_len : Z) :
  len x < 2 ^ 64 ->
  bao_encode x false = Ok (stream, hash_) ->
  len x <= slice_len ->
  bao_slice 0 slice_len (combined stream) = (Ok tt, mkStreams [] None stream).
Proof.
  intros Hx Hb Hl.
  destruct (@bao_encode_encodes false x Hx) as [enc [h [He Hb']]].
  assert (Hs : stream = le_bytes 8 (len x) ++ enc) by congruence. subst stream.
  pose proof (len_nonneg x) as H0.
  unfold combined. rewrite bao_slice_eq by (now rewrite len_le_bytes).
  rewrite decode_encode_len by lia. cbn [app].
  destruct (Z.eq_dec (len x) 0) as [Hz|Hz].
  - assert (x = []) by (destruct x; [reflexivity | unfold len in Hz; simpl in Hz; lia]).
    subst x.
    assert (enc = []) by (inversion He; subst; [reflexivity | rewrite len_nil in *; unfold CHUNK_SIZE in *; lia]).
    subst enc. rewrite app_nil_r. reflexivity.
  - assert (Hns : norm_start (len x) 0 = 0).
    { unfold norm_start. destruct (0 >=? len x) eqn:E; [zbool; lia | reflexivity]. }
    assert (Hne : norm_end 0 slice_len = slice_len).
    { unfold norm_end. destruct (slice_len =? 0) eqn:E; [zbool; lia | reflexivity]. }
    rewrite Hns, Hne.
    pose proof (@slice_recurse_whole _ _ _ _ _ He (tree_fuel (len x)) (le_n _)
                  0 slice_len 0 [] (le_bytes 8 (len x))) as Hrun.
    rewrite app_nil_r in Hrun. apply Hrun; lia.
Qed.

(** X9: a slice that covers the whole content is the combined encoding
    itself: for [start = 0] and [len >= |x|], [bao_slice] reads the encoding
    of [x] to its end and writes it unchanged. *)
Theorem slice_whole_content (x stream hash_ : bytes) (slice_len : Z) :
  len x < 2 ^ 64 ->
  bao_encode x false = Ok (stream, hash_) ->
  len x <= slice_len ->
  bao_slice 0 slice_len (combined stream) = (Ok tt, mkStreams [] None stream).
Proof. exact (bao_slice_whole x stream hash_ slice_len). Qed.

Lemma slice_whole_content_witness :
  exists stream hash_,
    len [x01; x02; x03] < 2 ^ 64
    /\ bao_encode [x01; x02; x03] false = Ok (stream, hash_)
    /\ len [x01; x02; x03] <= 3
    /\ bao_slice 0 3 (combined stream) = (Ok tt, mkStreams [] None stream).
Proof.
  assert (Hx : len [x01; x02; x03] < 2 ^ 64) by (vm_compute; reflexivity).
  assert (Hl : len [x01; x02; x03] <= 3) by (vm_compute; discriminate).
  destruct (@bao_encode_encodes false [x01; x02; x03] Hx) as [enc [h [He Hb]]].
  exists (le_bytes 8 (len [x01; x02; x03]) ++ enc), h.
  split; [exact Hx|]. split; [exact Hb|]. split; [exact Hl|].
  exact (slice_whole_content [x01; x02; x03] _ h 3 Hx Hb Hl).
Defined.

(* ================================================================== *)
(** * What the decoder writes in outboard mode *)





(** X11: the combined encoding taken as a slice of the whole content is
    accepted by [bao_decode_slice], which then does what [bao_decode] does:
    it reads the stream to its end and writes [x]. *)
Theorem decode_slice_whole_content (x stream hash_ : bytes) (slice_len : Z) :
  len x < 2 ^ 64 ->
  bao_encode x false = Ok (stream, hash_) ->
  len x <= slice_len ->
  bao_decode_slice hash_ 0 slice_len (combined stream) = (Ok tt, mkStreams [] None x)
  /\ bao_decode hash_ (combined stream) = (Ok tt, mkStreams [] None x).
Proof.
  intros Hx Hb Hl.
  destruct (@bao_encode_encodes false x Hx) as [enc [h [He Hb']]].
  assert (Hs : stream = le_bytes 8 (len x) ++ enc) by congruence.
  assert (Hh : hash_ = h) by congruence. subst hash_.
  pose proof (len_nonneg x) as H0.
  split; [|rewrite Hs; now apply bao_decode_encoded].
  destruct (@bao_slice_decode x enc h 0 slice_len Hx ltac:(lia) ltac:(lia) He)
    as [sl [inp' [Hsl [Hdec _]]]].
  pose proof (@bao_slice_whole x stream h slice_len Hx Hb Hl) as Hw.
  rewrite Hs in Hw. rewrite Hw in Hsl.
  assert (Hsame : le_bytes 8 (len x) ++ enc = le_bytes 8 (len x) ++ sl) by congruence.
  rewrite Hs, Hsame, Hdec. do 2 f_equal.
  unfold norm_skip, norm_start, norm_end, clamp.
  destruct (Z.eq_dec (len x) 0) as [Hz|Hz].
  - assert (x = []) by (destruct x; [reflexivity | unfold len in Hz; simpl in Hz; lia]).
    subst x. destruct (slice_len =? 0); reflexivity.
  - destruct (slice_len =? 0) eqn:E1; [zbool; lia|].
    destruct (0 >=? len x) eqn:E2; [zbool; lia|]. cbn [orb].
    rewrite Z.add_0_l, Z.min_r, Z.max_l by lia.
    rewrite Z.min_l, Z.max_r by lia. apply slice_all.
Qed.

Lemma decode_slice_whole_content_witness :
  exists stream hash_,
    len [x01; x02; x03] < 2 ^ 64
    /\ bao_encode [x01; x02; x03] false = Ok (stream, hash_)
    /\ len [x01; x02; x03] <= 3
    /\ bao_decode_slice hash_ 0 3 (combined stream)
       = (Ok tt, mkStreams [] None [x01; x02; x03])
    /\ bao_decode hash_ (combined stream) = (Ok tt, mkStreams [] None [x01; x02; x03]).
Proof.
  assert (Hx : len [x01; x02; x03] < 2 ^ 64) by (vm_compute; reflexivity).
  assert (Hl : len [x01; x02; x03] <= 3) by (vm_compute; discriminate).
  destruct (@bao_encode_encodes false [x01; x02; x03] Hx) as [enc [h [He Hb]]].
  exists (le_bytes 8 (len [x01; x02; x03]) ++ enc), h.
  split; [exact Hx|]. split; [exact Hb|]. split; [exact Hl|].
  exact (decode_slice_whole_content [x01; x02; x03] _ h 3 Hx Hb Hl).
Defined.

(* ================================================================== *)
(** * The exceptions of the slice functions *)

Lemma decode_slice_recurse_result (L : Z) :
  0 <= L ->
  forall fuel, (tree_fuel L <= fuel)%nat ->
  forall clen ss se skip s0 cv fin s,
    decoder_result
      (fst (decode_slice_recurse fuel clen ss se skip s0 L cv fin s)).
Proof.
  intros HL. pattern L. apply tree_ind; [| |exact HL]; clear L HL.
  - intros L HL fuel Hfuel clen ss se skip s0 cv fin s.
    destruct fuel as [|fuel]; [unfold tree_fuel in Hfuel; lia|].
    cbn [decode_slice_recurse].
    destruct ((s0 + L <=? ss) && (clen >? 0))%bool; [left; exists tt; reflexivity|].
    destruct ((se <=? s0) && (clen >? 0))%bool; [left; exists tt; reflexivity|].
    destruct (L <=? CHUNK_SIZE) eqn:E; [|zbool; lia].
    unfold bind, lift.
    destruct (@read_exact_cases Input L s ltac:(lia)) as [[b [Hb _]] | Hb];
      destruct (read_exact Input L s) as [r s1]; cbn [fst] in Hb; subst r;
      [|right; left; reflexivity].
    destruct (verify_chunk_cases cv b (s0 / CHUNK_SIZE) fin) as [-> | ->]; cbn [fst].
    + left. exists tt. destruct (negb skip); reflexivity.
    + right. right. reflexivity.
  - intros L HL IHl IHr fuel Hfuel clen ss se skip s0 cv fin s.
    destruct fuel as [|fuel]; [unfold tree_fuel in Hfuel; lia|].
    pose proof (@tree_fuel_children L HL) as [Hf1 Hf2].
    cbn [decode_slice_recurse].
    destruct ((s0 + L <=? ss) && (clen >? 0))%bool; [left; exists tt; reflexivity|].
    destruct ((se <=? s0) && (clen >? 0))%bool; [left; exists tt; reflexivity|].
    destruct (L <=? CHUNK_SIZE) eqn:E; [zbool; lia|].
    unfold bind at 1.
    destruct (@read_exact_cases Input PARENT_SIZE s ltac:(unfold PARENT_SIZE, HASH_SIZE; lia))
      as [[b [Hb Hlb]] | Hb];
      destruct (read_exact Input PARENT_SIZE s) as [r s1]; cbn [fst] in Hb; subst r;
      [|right; left; reflexivity].
    unfold bind at 1, lift.
    destruct (@verify_parent_cases cv b fin ltac:(unfold PARENT_SIZE, HASH_SIZE in Hlb; lia))
      as [-> | ->]; [|right; right; reflexivity].
    unfold bind.
    pose proof (IHl fuel ltac:(lia) clen ss se skip s0 (slice_to b HASH_SIZE) NOT_ROOT s1)
      as Hleft.
    destruct (decode_slice_recurse fuel clen ss se skip s0 (left_len L)
                (slice_to b HASH_SIZE) NOT_ROOT s1) as [[i|e|] s2]; cbn [fst] in *.
    + apply IHr. lia.
    + destruct Hleft as [[a Ha] | [Ha | Ha]]; [discriminate Ha | |];
        injection Ha as ->; [right; left | right; right]; reflexivity.
    + destruct Hleft as [[a Ha] | [Ha | Ha]]; discriminate Ha.
Qed.

(** X12: on any stream, with any hash and any range, [bao_decode_slice]
    returns, or raises [IOError] or [AssertionError]; nothing else. *)
Theorem bao_decode_slice_exceptions (hash_ : bytes) (slice_start slice_len : Z)
        (s : streams) :
  fst (bao_decode_slice hash_ slice_start slice_len s) = Ok tt
  \/ fst (bao_decode_slice hash_ slice_start slice_len s) = Raise IOError
  \/ fst (bao_decode_slice hash_ slice_start slice_len s) = Raise AssertionError.
Proof.
  enough (H : decoder_result (fst (bao_decode_slice hash_ slice_start slice_len s))).
  { destruct H as [[[] Ha] | [Ha | Ha]]; auto. }
  unfold bao_decode_slice. unfold bind at 1.
  destruct (@read_exact_cases Input HEADER_SIZE s ltac:(unfold HEADER_SIZE; lia))
    as [[b [Hb _]] | Hb];
    destruct (read_exact Input HEADER_SIZE s) as [r s1]; cbn [fst] in Hb; subst r;
    [|right; left; reflexivity].
  rewrite decode_slice_range_eq.
  apply decode_slice_recurse_result; [apply int_from_bytes_nonneg | apply le_n].
Qed.




